(** * Nsight Systems trace analysis scripts: correlator, stream pairing,
      kernel binning and trace origin.

    Shallow embedding of
      - scripts/analyze_memcpy.py          (E2E_QUERY, analyze)
      - scripts/dump_window_csv.py         (MEMCPY_E2E_SQL, main)
      - scripts/dump_kernel_memcpy_pairs.py (main)
      - scripts/plot_nsys_trace.py         (load_events, bin_events)
      - scripts/visualize_nsys_trace.py    (query_events)
      - scripts/plot_memcpy_e2e.py         (load)

    Conventions.
      - Python integers (nanosecond timestamps, byte counts, ids) are [Z].
      - Python floats (milliseconds, GB/s) are read as exact rationals [Qc]:
        the arithmetic is the one the scripts write, without the rounding of
        binary floating point.  [Qc] is the canonical form, so equality of
        values is Leibniz equality.  Where a float is cast to an integer
        the rounding of the operation before the cast is modelled: the bin
        index of bin_events is computed with the binary64 division
        ([Binary64.div]), and the window bound [t0 + int(ms * 1e6)] is
        given with the exact product ([Origin.bound]) and with the binary64
        product ([Origin.bound64]), which differ by at most one nanosecond.
      - An SQLite table is the list of its rows in table order; [ORDER BY]
        is a stable sort of the joined rows (SQL leaves the order of equal
        keys open; Python's [list.sort] and [sorted] are stable).
      - A Python exception is the [None] of an [option] result. *)

From Stdlib Require Import ZArith QArith Qcanon Qround Qpower Lia Lqa.
From Stdlib Require Import Ascii String SpecFloat.
From Stdlib Require Import Permutation Sorted.
From stdpp Require Import gmap strings list fin_maps pretty sorting.

Local Open Scope Z_scope.

(* ===================================================================== *)
(** ** Numbers                                                            *)
(* ===================================================================== *)

(** An integer used in float arithmetic. *)
Definition of_int (z : Z) : Qc := Q2Qc (inject_Z z).

(** The float literals [1e6] and [1e9]. *)
Definition f1e6 : Qc := of_int 1000000.
Definition f1e9 : Qc := of_int 1000000000.

(** [int(x)] on a float: truncation toward zero. *)
Definition py_int (x : Qc) : Z := Z.quot (Qnum x) (Zpos (Qden x)).

(** [max(a, b)] on integers, as Python's builtin. *)
Definition py_max (a b : Z) : Z := if decide (a < b) then b else a.

(* ===================================================================== *)
(** ** Binary64 arithmetic                                                *)
(* ===================================================================== *)

(** The values of Python floats and of float64 columns are the binary64
    numbers: the rationals m * 2^e with |m| < 2^53 and e >= -1074.  An
    operation gives the binary64 number nearest to its exact result, ties
    to the even significand.  (Results beyond the largest binary64 number,
    which are infinite in Python, are outside the model.) *)
Module Binary64.

Definition pow2 (e : Z) : Qc := Q2Qc (2 ^ e)%Q.

(** ⌊log2 q⌋ for q > 0. *)
Definition ilog2 (q : Qc) : Z :=
  let k := Z.log2 (Qnum q) - Z.log2 (Zpos (Qden q)) in
  if decide (pow2 k ≤ q)%Qc then k else k - 1.

Definition abs (q : Qc) : Qc := if decide (q < Q2Qc 0)%Qc then (- q)%Qc else q.

(** The exponent of the unit in the last place at [q]: 53 significant
    bits, and the fixed unit 2^-1074 of the subnormal range. *)
Definition ulp_exp (q : Qc) : Z := Z.max (-1074) (ilog2 (abs q) - 52).

(** The integer nearest to [q], ties to even. *)
Definition rne (q : Qc) : Z :=
  let f := Qfloor q in
  let r := (q - of_int f)%Qc in
  if decide (r + r < of_int 1)%Qc then f
  else if decide (of_int 1 < r + r)%Qc then f + 1
  else if Z.even f then f else f + 1.

(** The binary64 number nearest to [q]: what a float literal, a float
    argument or the result of one operation holds. *)
Definition round (q : Qc) : Qc :=
  let e := ulp_exp q in (of_int (rne (q / pow2 e)) * pow2 e)%Qc.

Definition is_float (q : Qc) : Prop := round q = q.

(** [x / y] on floats (and element-wise on float64 columns). *)
Definition div (x y : Qc) : Qc := round (round x / round y).

(** [x * y] on floats. *)
Definition mul (x y : Qc) : Qc := round (round x * round y).

(** The value of a finite number of the Standard Library's specification
    of IEEE 754 arithmetic (SpecFloat), to compare [div] with its
    [SFdiv 53 1024]. *)
Definition of_spec_float (f : spec_float) : option Qc :=
  match f with
  | S754_zero _ => Some (Q2Qc 0)
  | S754_finite s m e =>
      Some ((if s then of_int (-1) else of_int 1) * of_int (Z.pos m) * pow2 e)%Qc
  | _ => None
  end.

End Binary64.

(** [sum(l)] on a list of floats. *)
Definition fsum (l : list Qc) : Qc := foldl Qcplus (Q2Qc 0) l.

(** [sum(l)] on a list of integers. *)
Definition zsum (l : list Z) : Z := foldl Z.add 0 l.

(* ===================================================================== *)
(** ** Stable sort on an integer key                                      *)
(* ===================================================================== *)

Section StableSort.
Context {A : Type} (key : A → Z).

Fixpoint insert_by (x : A) (l : list A) : list A :=
  match l with
  | [] => [x]
  | y :: l' => if decide (key x ≤ key y) then x :: l else y :: insert_by x l'
  end.

(** [l.sort(key=key)] / [sorted(l, key=key)] / [ORDER BY key]. *)
Fixpoint sort_by (l : list A) : list A :=
  match l with
  | [] => []
  | x :: l' => insert_by x (sort_by l')
  end.

(** The order a sort on [key] establishes. *)
Definition key_le (x y : A) : Prop := key x ≤ key y.
End StableSort.

(** [sorted(l, key=key, reverse=True)]: descending, equal keys keep their
    original order. *)
Definition sort_by_desc {A} (key : A → Z) (l : list A) : list A :=
  sort_by (λ x, - key x) l.

(* ===================================================================== *)
(** ** The event store (the SQLite export of a trace)                     *)
(* ===================================================================== *)

Module Store.

(** A row of CUPTI_ACTIVITY_KIND_KERNEL, with the columns the scripts
    read.  [k_demangledName] is the id joined with StringIds. *)
Record KernelRow := {
  k_start : Z; k_end : Z;
  k_deviceId : Z; k_streamId : Z;
  k_demangledName : Z
}.

(** A row of CUPTI_ACTIVITY_KIND_MEMCPY. *)
Record MemcpyRow := {
  m_start : Z; m_end : Z;
  m_bytes : Z; m_copyKind : Z; m_srcKind : Z; m_dstKind : Z;
  m_deviceId : Z; m_streamId : Z; m_correlationId : Z
}.

(** A row of CUPTI_ACTIVITY_KIND_RUNTIME. *)
Record RuntimeRow := {
  r_start : Z; r_end : Z;
  r_correlationId : Z; r_nameId : Z
}.

(** The database.  StringIds maps an id to its string (id is the key of
    that table). *)
Record t := {
  kernels : list KernelRow;
  memcpys : list MemcpyRow;
  runtime : list RuntimeRow;
  StringIds : gmap Z string
}.

(** [SELECT MIN(col) FROM table]: NULL on an empty table. *)
Fixpoint sql_min (l : list Z) : option Z :=
  match l with
  | [] => None
  | x :: l' =>
      match sql_min l' with
      | None => Some x
      | Some y => Some (Z.min x y)
      end
  end.

End Store.
Import Store.

(** The lookup tables shared by the scripts. *)
Definition COPY_KIND : gmap Z string :=
  list_to_map [(0, "Unknown"); (1, "HtoD"); (2, "DtoH"); (3, "HtoH");
               (4, "DtoD"); (8, "Peer")]%string.

Definition MEM_KIND : gmap Z string :=
  list_to_map [(0, "Unknown"); (1, "Pageable"); (2, "Device"); (3, "Array");
               (4, "Unified"); (5, "Managed")]%string.

(** [COPY_KIND.get(k, "?")] and [MEM_KIND.get(k, "?")]. *)
Definition copy_kind (k : Z) : string := default "?"%string (COPY_KIND !! k).
Definition mem_kind (k : Z) : string := default "?"%string (MEM_KIND !! k).

(** The bandwidth expression every script uses for one transfer or one
    total: [b / (d / 1e9) / 1e9 if d > 0 and b > 0 else 0]. *)
Definition gbps (b d : Z) : Qc := (of_int b / (of_int d / f1e9) / f1e9)%Qc.

Definition dma_bw (b d : Z) : Qc :=
  if decide (0 < d ∧ 0 < b) then gbps b d else Q2Qc 0.

(* ===================================================================== *)
(** ** Trace origin                                                       *)
(* ===================================================================== *)

Module Origin.

(** analyze_memcpy.analyze, dump_window_csv.main, plot_memcpy_e2e.load and
    plot_nsys_trace.load_events:
<<
    t0 = MIN(start) of the kernel table
    if t0 is None: t0 = MIN(start) of the memcpy table
>> *)
Definition t0 (db : Store.t) : option Z :=
  match sql_min (k_start <$> kernels db) with
  | Some t => Some t
  | None => sql_min (m_start <$> memcpys db)
  end.

(** dump_kernel_memcpy_pairs.main: the kernel table only. *)
Definition t0_pairs (db : Store.t) : option Z :=
  sql_min (k_start <$> kernels db).

(** [min(l)] on a non-empty Python list; on the empty list it raises, but
    query_events returns before it gets there. *)
Definition py_min (l : list Z) : option Z := sql_min l.

(** visualize_nsys_trace.query_events: [[], [], 0] when both lists are
    empty, else [t0 = min(all_starts)] over kernels and memcpys. *)
Definition t0_query_events (db : Store.t) : Z :=
  match kernels db, memcpys db with
  | [], [] => 0
  | _, _ =>
      default 0 (py_min ((k_start <$> kernels db) ++ (m_start <$> memcpys db)))
  end.

(** The start timestamps of the device events (kernels and memcpys), and
    of all the events of the trace (with the API calls). *)
Definition device_starts (db : Store.t) : list Z :=
  (k_start <$> kernels db) ++ (m_start <$> memcpys db).

Definition all_starts (db : Store.t) : list Z :=
  device_starts db ++ (r_start <$> runtime db).

(** [t0 + int(ms * 1e6)]: a window bound in trace nanoseconds; a
    TypeError when [t0] is None.  The product is the exact one here (for a
    whole number of milliseconds, and whenever the product of the float
    [ms] with 1e6 is a float, that is what Python computes too). *)
Definition bound (t0 : option Z) (ms : Qc) : option Z :=
  t ← t0; Some (t + py_int (ms * f1e6)%Qc).

(** The same bound with the product [ms * 1e6] computed in binary64, as
    Python computes it for every float [ms]; it is [bound] or one
    nanosecond more. *)
Definition bound64 (t0 : option Z) (ms : Qc) : option Z :=
  t ← t0; Some (t + py_int (Binary64.mul ms f1e6)).

End Origin.

(* ===================================================================== *)
(** ** Correlator: analyze_memcpy.py and dump_window_csv.py               *)
(* ===================================================================== *)

Module Correlator.

(** [m JOIN r ON m.correlationId = r.correlationId]: an inner join, one
    joined row per matching pair, a memcpy without a match gives none. *)
Definition join_on_correlation (ms : list MemcpyRow) (rs : list RuntimeRow)
  : list (MemcpyRow * RuntimeRow) :=
  m ← ms;
  (λ r, (m, r)) <$>
    filter (λ r, m_correlationId m = r_correlationId r) rs.

(** A row of E2E_QUERY (analyze_memcpy.py). *)
Record E2ERow := {
  cpu_start : Z; cpu_end : Z; cpu_wall_ns : Z;
  gpu_start : Z; gpu_end : Z; gpu_dma_ns : Z;
  launch_overhead_ns : Z; sync_wait_ns : Z;
  bytes : Z; copyKind : Z; srcKind : Z; dstKind : Z;
  deviceId : Z; streamId : Z; correlationId : Z;
  api_name : option string
}.

(** The SELECT list of E2E_QUERY; [LEFT JOIN StringIds] leaves [api_name]
    NULL when the name id is unknown. *)
Definition e2e_select (names : gmap Z string) (mr : MemcpyRow * RuntimeRow)
  : E2ERow :=
  let (m, r) := mr in
  {| cpu_start := r_start r;
     cpu_end := r_end r;
     cpu_wall_ns := r_end r - r_start r;
     gpu_start := m_start m;
     gpu_end := m_end m;
     gpu_dma_ns := m_end m - m_start m;
     launch_overhead_ns := m_start m - r_start r;
     sync_wait_ns := r_end r - m_end m;
     bytes := m_bytes m;
     copyKind := m_copyKind m;
     srcKind := m_srcKind m;
     dstKind := m_dstKind m;
     deviceId := m_deviceId m;
     streamId := m_streamId m;
     correlationId := m_correlationId m;
     api_name := names !! r_nameId r |}.

(** The WHERE clause analyze builds: [m.start >= lo] when [start_ms] is
    given, [m.start <= hi] when [end_ms] is given.  A bound needs [t0]. *)
Definition analyze_where (t0 : option Z) (start_ms end_ms : option Qc)
  : option (MemcpyRow → bool) :=
  lo ← match start_ms with
       | Some s => Some <$> Origin.bound t0 s
       | None => Some None
       end;
  hi ← match end_ms with
       | Some e => Some <$> Origin.bound t0 e
       | None => Some None
       end;
  Some (λ m,
    match lo with Some l => bool_decide (l ≤ m_start m) | None => true end &&
    match hi with Some h => bool_decide (m_start m ≤ h) | None => true end).

(** E2E_QUERY with its WHERE clause, ORDER BY m.start. *)
Definition E2E_QUERY (db : Store.t) (where_ : MemcpyRow → bool)
  : list E2ERow :=
  e2e_select (StringIds db) <$>
    sort_by (λ mr, m_start mr.1)
      (filter (λ mr, where_ mr.1 = true)
         (join_on_correlation (memcpys db) (runtime db))).

(** The end-to-end time analyze computes in each of its sections. *)
Definition e2e_of (r : E2ERow) : Z :=
  py_max (cpu_wall_ns r) (gpu_end r - cpu_start r).

(** One entry of the [stats] dictionary. *)
Record DirStats := {
  count : Z; bytes_total : Z;
  cpu_wall : Z; gpu_dma : Z; launch_oh : Z; sync_wait : Z;
  e2e_list : list Z; bw_list : list Qc
}.

(** The [defaultdict] factory. *)
Definition stats_default : DirStats :=
  {| count := 0; bytes_total := 0;
     cpu_wall := 0; gpu_dma := 0; launch_oh := 0; sync_wait := 0;
     e2e_list := []; bw_list := [] |}.

(** The body of [for r in rows] on the entry [s = stats[kind]]. *)
Definition accumulate (s : DirStats) (r : E2ERow) : DirStats :=
  {| count := count s + 1;
     bytes_total := bytes_total s + bytes r;
     cpu_wall := cpu_wall s + cpu_wall_ns r;
     gpu_dma := gpu_dma s + gpu_dma_ns r;
     launch_oh := launch_oh s + py_max 0 (launch_overhead_ns r);
     sync_wait := sync_wait s + py_max 0 (sync_wait_ns r);
     e2e_list := e2e_list s ++ [e2e_of r];
     bw_list :=
       if decide (0 < gpu_dma_ns r ∧ 0 < bytes r)
       then bw_list s ++ [gbps (bytes r) (gpu_dma_ns r)]
       else bw_list s |}.

Definition stats_step (stats : gmap string DirStats) (r : E2ERow)
  : gmap string DirStats :=
  let kind := copy_kind (copyKind r) in
  <[kind := accumulate (default stats_default (stats !! kind)) r]> stats.

(** The [stats] dictionary after the loop over the rows. *)
Definition direction_stats (rows : list E2ERow) : gmap string DirStats :=
  foldl stats_step ∅ rows.

(** [sum(bw_list) / len(bw_list) if bw_list else 0]. *)
Definition mean_bw (l : list Qc) : Qc :=
  match l with
  | [] => Q2Qc 0
  | _ => (fsum l / of_int (Z.of_nat (length l)))%Qc
  end.

(** One printed line of the per-direction summary (the values before they
    are formatted). *)
Record DirSummary := {
  ds_kind : string; ds_count : Z; ds_bytes : Z;
  ds_cpu_wall : Z; ds_gpu_dma : Z; ds_launch_oh : Z; ds_sync_wait : Z;
  ds_bw : Qc
}.

Definition summary_kinds : list string :=
  ["HtoD"; "DtoH"; "DtoD"; "Peer"; "HtoH"; "Unknown"]%string.

(** The loop [for kind in [...]] that prints the summary. *)
Definition direction_summary (rows : list E2ERow) : list DirSummary :=
  let stats := direction_stats rows in
  kind ← summary_kinds;
  match stats !! kind with
  | None => []
  | Some s =>
      if decide (count s = 0) then []
      else [ {| ds_kind := kind; ds_count := count s;
                ds_bytes := bytes_total s;
                ds_cpu_wall := cpu_wall s; ds_gpu_dma := gpu_dma s;
                ds_launch_oh := launch_oh s; ds_sync_wait := sync_wait s;
                ds_bw := mean_bw (bw_list s) |} ]
  end.

(** The memory type breakdown: [mem_stats] is a dictionary in insertion
    order, keyed by the two memory kinds. *)
Record MemStats := { ms_count : Z; ms_bytes : Z; ms_gpu_dma : Z }.

Definition mem_key (r : E2ERow) : string :=
  (mem_kind (srcKind r) +:+ " → " +:+ mem_kind (dstKind r))%string.

Fixpoint mem_stats_add (key : string) (r : E2ERow)
    (d : list (string * MemStats)) : list (string * MemStats) :=
  match d with
  | [] => [(key, {| ms_count := 0 + 1; ms_bytes := 0 + bytes r;
                    ms_gpu_dma := 0 + gpu_dma_ns r |})]
  | (k, m) :: d' =>
      if decide (k = key)
      then (k, {| ms_count := ms_count m + 1;
                  ms_bytes := ms_bytes m + bytes r;
                  ms_gpu_dma := ms_gpu_dma m + gpu_dma_ns r |}) :: d'
      else (k, m) :: mem_stats_add key r d'
  end.

Definition mem_stats (rows : list E2ERow) : list (string * MemStats) :=
  foldl (λ d r, mem_stats_add (mem_key r) r d) [] rows.

(** [bw = bytes / (gpu_dma / 1e9) / 1e9 if gpu_dma > 0 else 0] *)
Definition mem_bw (m : MemStats) : Qc :=
  if decide (0 < ms_gpu_dma m) then gbps (ms_bytes m) (ms_gpu_dma m)
  else Q2Qc 0.

(** The breakdown lines, by descending total bytes. *)
Definition mem_breakdown (rows : list E2ERow)
  : list (string * MemStats * Qc) :=
  (λ km, (km, mem_bw km.2)) <$>
    sort_by_desc (λ km, ms_bytes km.2) (mem_stats rows).

(** A row of the CSV analyze exports: the correlated transfer record. *)
Record CsvRow := {
  copy_kind_ : string; src_mem : string; dst_mem : string; bytes_ : Z;
  cpu_start_ns : Z; cpu_end_ns : Z; cpu_wall_ns_ : Z;
  gpu_start_ns : Z; gpu_end_ns : Z; gpu_dma_ns_ : Z;
  launch_overhead_ns_ : Z; sync_wait_ns_ : Z; e2e_ns : Z;
  dma_bw_gbps : Qc; api_name_ : option string;
  stream_id : Z; device_id : Z
}.

Definition csv_row (r : E2ERow) : CsvRow :=
  {| copy_kind_ := copy_kind (copyKind r);
     src_mem := mem_kind (srcKind r);
     dst_mem := mem_kind (dstKind r);
     bytes_ := bytes r;
     cpu_start_ns := cpu_start r; cpu_end_ns := cpu_end r;
     cpu_wall_ns_ := cpu_wall_ns r;
     gpu_start_ns := gpu_start r; gpu_end_ns := gpu_end r;
     gpu_dma_ns_ := gpu_dma_ns r;
     launch_overhead_ns_ := py_max 0 (launch_overhead_ns r);
     sync_wait_ns_ := py_max 0 (sync_wait_ns r);
     e2e_ns := e2e_of r;
     dma_bw_gbps := dma_bw (bytes r) (gpu_dma_ns r);
     api_name_ := api_name r;
     stream_id := streamId r; device_id := deviceId r |}.

(** What analyze reports for a non-empty row set. *)
Record Report := {
  n_rows : nat;
  summary : list DirSummary;
  top15 : list E2ERow;
  breakdown : list (string * MemStats * Qc);
  csv : list CsvRow
}.

(** analyze(sqlite_path, start_ms, end_ms, csv_path): [None] is an
    exception (a window bound on a trace without origin), [Some None] the
    early return on an empty row set. *)
Definition analyze (db : Store.t) (start_ms end_ms : option Qc)
  : option (option Report) :=
  let t0 := Origin.t0 db in
  where_ ← analyze_where t0 start_ms end_ms;
  let rows := E2E_QUERY db where_ in
  Some (match rows with
        | [] => None
        | _ =>
            Some {| n_rows := length rows;
                    summary := direction_summary rows;
                    top15 := take 15 (sort_by_desc e2e_of rows);
                    breakdown := mem_breakdown rows;
                    csv := csv_row <$> rows |}
        end).

(** *** dump_window_csv.py, the joined section *)

(** The row MEMCPY_E2E_SQL selects. *)
Record WinRow := {
  w_cpu_start : Z; w_cpu_end : Z; w_gpu_start : Z; w_gpu_end : Z;
  w_bytes : Z; w_copyKind : Z; w_srcKind : Z; w_dstKind : Z;
  w_deviceId : Z; w_streamId : Z; w_api_name : option string
}.

Definition win_select (names : gmap Z string) (mr : MemcpyRow * RuntimeRow)
  : WinRow :=
  let (m, r) := mr in
  {| w_cpu_start := r_start r; w_cpu_end := r_end r;
     w_gpu_start := m_start m; w_gpu_end := m_end m;
     w_bytes := m_bytes m; w_copyKind := m_copyKind m;
     w_srcKind := m_srcKind m; w_dstKind := m_dstKind m;
     w_deviceId := m_deviceId m; w_streamId := m_streamId m;
     w_api_name := names !! r_nameId r |}.

(** [WHERE m.end >= lo AND m.start <= hi ORDER BY m.start] *)
Definition MEMCPY_E2E_SQL (db : Store.t) (lo hi : Z) : list WinRow :=
  win_select (StringIds db) <$>
    sort_by (λ mr, m_start mr.1)
      (filter (λ mr, lo ≤ m_end mr.1 ∧ m_start mr.1 ≤ hi)
         (join_on_correlation (memcpys db) (runtime db))).

(** The values computed for one line of memcpy_e2e_*.csv (before the
    division by 1e6 and the formatting). *)
Record WinOut := {
  wo_cpu_wall : Z; wo_gpu_dma : Z; wo_launch_oh : Z; wo_e2e : Z;
  wo_bw : Qc; wo_row : WinRow
}.

Definition win_out (r : WinRow) : WinOut :=
  let cpu_wall := w_cpu_end r - w_cpu_start r in
  let gpu_dma := w_gpu_end r - w_gpu_start r in
  {| wo_cpu_wall := cpu_wall;
     wo_gpu_dma := gpu_dma;
     wo_launch_oh := py_max 0 (w_gpu_start r - w_cpu_start r);
     wo_e2e := py_max cpu_wall (w_gpu_end r - w_cpu_start r);
     wo_bw := dma_bw (w_bytes r) gpu_dma;
     wo_row := r |}.

(** The joined section of dump_window_csv.main for the window
    [t1, t2] (milliseconds from the origin). *)
Definition dump_e2e (db : Store.t) (t1 t2 : Qc) : option (list WinOut) :=
  let t0 := Origin.t0 db in
  lo ← Origin.bound t0 t1;
  hi ← Origin.bound t0 t2;
  Some (win_out <$> MEMCPY_E2E_SQL db lo hi).

(** The correlated transfer records of a run of analyze (none when it
    stops early). *)
Definition csv_of (r : option (option Report)) : list CsvRow :=
  match r with
  | Some (Some rep) => csv rep
  | _ => []
  end.

(** The per-direction lines and the memory type lines of a run. *)
Definition summary_of (r : option (option Report)) : list DirSummary :=
  match r with
  | Some (Some rep) => summary rep
  | _ => []
  end.

Definition breakdown_of (r : option (option Report))
  : list (string * MemStats * Qc) :=
  match r with
  | Some (Some rep) => breakdown rep
  | _ => []
  end.

End Correlator.


(* ===================================================================== *)
(** ** Kernel names                                                       *)
(* ===================================================================== *)

(** [s.split(c)[0]] for a one-character separator [c]. *)
Fixpoint before_char (c : ascii) (s : string) : string :=
  match s with
  | EmptyString => EmptyString
  | String a s' =>
      if decide (a = c) then EmptyString else String a (before_char c s')
  end.

(** [s.split("::")]: never empty, separators taken left to right. *)
Fixpoint split_colons (s : string) : list string :=
  match s with
  | EmptyString => [EmptyString]
  | String a s' =>
      match s' with
      | String b rest =>
          if decide (a = ":"%char ∧ b = ":"%char)
          then EmptyString :: split_colons rest
          else match split_colons s' with
               | p :: ps => String a p :: ps
               | [] => [String a EmptyString]
               end
      | EmptyString => [String a EmptyString]
      end
  end.

(** ["::".join(parts[-2:]) if len(parts) > 1 else parts[-1]] *)
Definition last_two (parts : list string) : string :=
  match reverse parts with
  | z :: y :: _ => (y +:+ "::" +:+ z)%string
  | [z] => z
  | [] => EmptyString
  end.

(** short_name(demangled) of dump_kernel_memcpy_pairs.py, dump_window_csv.py
    and plot_nsys_trace.py; [None] and the empty string are both falsy. *)
Definition short_name (demangled : option string) : string :=
  match demangled with
  | None | Some EmptyString => "unknown"%string
  | Some d =>
      last_two (split_colons (before_char "("%char (before_char "<"%char d)))
  end.

(* ===================================================================== *)
(** ** Stream pairing engine: dump_kernel_memcpy_pairs.py                 *)
(* ===================================================================== *)

Module Pairing.

(** An entry of the merged timeline: a dictionary whose ["type"] is
    ["kernel"] or ["memcpy"], with the keys of that kind. *)
Inductive Event :=
| Kernel (start end_ stream : Z) (name full_name : string)
| Memcpy (start end_ stream bytes copyKind srcKind dstKind : Z).

Definition ev_start (e : Event) : Z :=
  match e with Kernel s _ _ _ _ => s | Memcpy s _ _ _ _ _ _ => s end.
Definition ev_end (e : Event) : Z :=
  match e with Kernel _ e _ _ _ => e | Memcpy _ e _ _ _ _ _ => e end.
Definition ev_stream (e : Event) : Z :=
  match e with Kernel _ _ s _ _ => s | Memcpy _ _ s _ _ _ _ => s end.
Definition is_kernel (e : Event) : bool :=
  match e with Kernel _ _ _ _ _ => true | Memcpy _ _ _ _ _ _ _ => false end.

(** [events[j]["type"] == "kernel" and events[j]["stream"] == stream] *)
Definition kernel_on (stream : Z) (e : Event) : bool :=
  is_kernel e && bool_decide (ev_stream e = stream).

Definition of_kernel (names : gmap Z string) (k : KernelRow) : Event :=
  let name := names !! k_demangledName k in
  Kernel (k_start k) (k_end k) (k_streamId k)
         (short_name name) (default EmptyString name).

Definition of_memcpy (m : MemcpyRow) : Event :=
  Memcpy (m_start m) (m_end m) (m_streamId m) (m_bytes m)
         (m_copyKind m) (m_srcKind m) (m_dstKind m).

(** The merged timeline: the kernels, then the memcpys, sorted by start. *)
Definition timeline (names : gmap Z string) (ks : list KernelRow)
    (ms : list MemcpyRow) : list Event :=
  sort_by ev_start ((of_kernel names <$> ks) ++ (of_memcpy <$> ms)).

(** [for j in range(i - 1, -1, -1)]: the index of the first kernel of the
    stream found below [i]. *)
Fixpoint search_backward (events : list Event) (stream : Z) (i : nat)
  : option nat :=
  match i with
  | O => None
  | S j =>
      match events !! j with
      | Some e =>
          if kernel_on stream e then Some j
          else search_backward events stream j
      | None => None
      end
  end.

(** [for j in range(j0, j0 + n)]: the index of the first kernel of the
    stream found from [j0] on. *)
Fixpoint search_forward (events : list Event) (stream : Z) (n j0 : nat)
  : option nat :=
  match n with
  | O => None
  | S n' =>
      match events !! j0 with
      | Some e =>
          if kernel_on stream e then Some j0
          else search_forward events stream n' (S j0)
      | None => None
      end
  end.

Definition prev_index (events : list Event) (stream : Z) (i : nat)
  : option nat :=
  search_backward events stream i.

(** [range(i + 1, len(events))] *)
Definition next_index (events : list Event) (stream : Z) (i : nat)
  : option nat :=
  search_forward events stream (length events - (i + 1)) (i + 1).

(** The values computed for one memcpy of the timeline. *)
Record Pair := {
  ev : Event;
  prev_kernel : option Event;
  next_kernel : option Event;
  dur_ns : Z;
  bw : Qc;
  gap_before : option Qc;
  gap_after : option Qc
}.

(** The loop body for the event [e] at index [i]; kernels are skipped. *)
Definition pair_at (events : list Event) (i : nat) (e : Event)
  : option Pair :=
  match e with
  | Kernel _ _ _ _ _ => None
  | Memcpy start end_ stream bytes _ _ _ =>
      let prev := j ← prev_index events stream i; events !! j in
      let next := j ← next_index events stream i; events !! j in
      let dur := end_ - start in
      Some {| ev := e;
              prev_kernel := prev;
              next_kernel := next;
              dur_ns := dur;
              bw := dma_bw bytes dur;
              gap_before :=
                (λ p, (of_int (start - ev_end p) / f1e6)%Qc) <$> prev;
              gap_after :=
                (λ n, (of_int (ev_start n - end_) / f1e6)%Qc) <$> next |}
  end.

(** [for i, ev in enumerate(events)] *)
Definition pairs (events : list Event) : list Pair :=
  omap id (imap (pair_at events) events).

(** main for the window [t1, t2] in milliseconds: [None] is the TypeError
    of [t0 + int(...)] on a trace without kernels; no memcpy in the window
    gives no row. *)
Definition main (db : Store.t) (t1 t2 : Qc) : option (list Pair) :=
  let t0 := Origin.t0_pairs db in
  lo ← Origin.bound t0 t1;
  hi ← Origin.bound t0 t2;
  let ks := sort_by k_start
              (filter (λ k, lo ≤ k_end k ∧ k_start k ≤ hi) (kernels db)) in
  let ms := sort_by m_start
              (filter (λ m, lo ≤ m_end m ∧ m_start m ≤ hi) (memcpys db)) in
  Some (match ms with
        | [] => []
        | _ => pairs (timeline (StringIds db) ks ms)
        end).

(** What "nearest on the stream" means for the result [r] of a lookup
    from position [i]: the closest kernel of the stream on that side of
    [i], or no kernel of the stream on that side at all. *)
Definition nearest_before (events : list Event) (stream : Z) (i : nat)
    (r : option Event) : Prop :=
  match r with
  | Some k =>
      ∃ j, (j < i)%nat ∧ events !! j = Some k ∧ kernel_on stream k = true ∧
           ∀ j' e', (j < j' < i)%nat → events !! j' = Some e' →
                    kernel_on stream e' = false
  | None =>
      ∀ j e, (j < i)%nat → events !! j = Some e → kernel_on stream e = false
  end.

Definition nearest_after (events : list Event) (stream : Z) (i : nat)
    (r : option Event) : Prop :=
  match r with
  | Some k =>
      ∃ j, (i < j)%nat ∧ events !! j = Some k ∧ kernel_on stream k = true ∧
           ∀ j' e', (i < j' < j)%nat → events !! j' = Some e' →
                    kernel_on stream e' = false
  | None =>
      ∀ j e, (i < j)%nat → events !! j = Some e → kernel_on stream e = false
  end.

End Pairing.


(* ===================================================================== *)
(** ** Aggregator: plot_nsys_trace.py                                     *)
(* ===================================================================== *)

Module Aggregator.

Inductive EventType := kernel | memcpy.

#[global] Instance EventType_eq_dec : EqDecision EventType.
Proof. solve_decision. Defined.

(** A row of the events DataFrame, with the columns bin_events reads or
    passes on.  [detail] is the formatted text load_events attaches. *)
Record Row := {
  event_type : EventType;
  op_name : string;
  full_name : string;
  start_ms : Qc;
  end_ms : Qc;
  duration_ms : Qc;
  stream_id : Z;
  device_id : Z;
  bytes : Z;
  detail : string
}.

(** load_events: the record of a kernel row, times in milliseconds from
    [t0].  ([detail] is a formatted text of the launch geometry, which the
    store rows here do not carry.) *)
Definition kernel_record (t0 : Z) (names : gmap Z string) (detail : string)
    (r : KernelRow) : Row :=
  let dn := names !! k_demangledName r in
  {| event_type := kernel;
     op_name := short_name (Some (default EmptyString dn));
     full_name := default EmptyString dn;
     start_ms := (of_int (k_start r - t0) / f1e6)%Qc;
     end_ms := (of_int (k_end r - t0) / f1e6)%Qc;
     duration_ms := (of_int (k_end r - k_start r) / f1e6)%Qc;
     stream_id := k_streamId r;
     device_id := k_deviceId r;
     bytes := 0;
     detail := detail |}.

(** [df[df["event_type"] == t]] *)
Definition of_type (t : EventType) (df : list Row) : list Row :=
  filter (λ r, event_type r = t) df.

(** [kernels["bin"] = (kernels["start_ms"] / bin_ms).astype(int)]: the
    binary64 quotient, truncated toward zero. *)
Definition bin_of (bin_ms : Qc) (r : Row) : Z :=
  py_int (Binary64.div (start_ms r) bin_ms).

(** The group key [["stream_id", "bin"]], ordered as tuples are. *)
Definition Key : Type := Z * Z.

Definition key_of (bin_ms : Qc) (r : Row) : Key :=
  (stream_id r, bin_of bin_ms r).

Definition key_lt (a b : Key) : Prop :=
  a.1 < b.1 ∨ (a.1 = b.1 ∧ a.2 < b.2).

#[global] Instance key_lt_dec (a b : Key) : Decision (key_lt a b).
Proof. unfold key_lt. apply _. Defined.

(** [groupby]: the rows of each key in their original order, the groups
    in ascending key order (pandas sorts the group keys). *)
Fixpoint group_insert (k : Key) (r : Row) (gs : list (Key * list Row))
  : list (Key * list Row) :=
  match gs with
  | [] => [(k, [r])]
  | (k', members) :: gs' =>
      if decide (k = k') then (k', members ++ [r]) :: gs'
      else if decide (key_lt k k') then (k, [r]) :: gs
      else (k', members) :: group_insert k r gs'
  end.

Definition groupby (keyf : Row → Key) (rows : list Row)
  : list (Key * list Row) :=
  foldl (λ gs r, group_insert (keyf r) r gs) [] rows.

(** The aggregations ["min"], ["max"], ["sum"], ["size"], ["first"]. *)
Definition fmin (a b : Qc) : Qc := if decide (a ≤ b)%Qc then a else b.
Definition fmax (a b : Qc) : Qc := if decide (a ≤ b)%Qc then b else a.

Definition col_min (l : list Qc) : option Qc :=
  match l with [] => None | x :: l' => Some (foldl fmin x l') end.
Definition col_max (l : list Qc) : option Qc :=
  match l with [] => None | x :: l' => Some (foldl fmax x l') end.

(** [s.value_counts()]: the distinct values with their counts.  pandas
    counts the values in order of first appearance and then sorts by count,
    descending; equal counts keep the order of first appearance (the
    tie rule the design documents). *)
Fixpoint count_add (x : string) (c : list (string * nat))
  : list (string * nat) :=
  match c with
  | [] => [(x, 1%nat)]
  | (y, n) :: c' =>
      if decide (x = y) then (y, S n) :: c' else (y, n) :: count_add x c'
  end.

Definition first_seen_counts (s : list string) : list (string * nat) :=
  foldl (λ c x, count_add x c) [] s.

Definition value_counts (s : list string) : list (string * nat) :=
  sort_by_desc (λ p, Z.of_nat p.2) (first_seen_counts s).

(** [lambda s: s.value_counts().index[0]] *)
Definition top_of (s : list string) : option string :=
  fst <$> head (value_counts s).

(** A row of [agg]: one bin. *)
Record Bin := {
  b_stream_id : Z;
  b_bin : Z;
  b_count : Z;
  b_start_ms : Qc;
  b_end_ms : Qc;
  b_total_dur : Qc;
  b_top_kernel : string;
  b_device_id : Z;
  b_duration_ms : Qc
}.

(** The named aggregations of one group, and
    [agg["duration_ms"] = agg["end_ms"] - agg["start_ms"]]. *)
Definition agg_group (g : Key * list Row) : option Bin :=
  let members := g.2 in
  lo ← col_min (start_ms <$> members);
  hi ← col_max (end_ms <$> members);
  top ← top_of (op_name <$> members);
  first ← head (device_id <$> members);
  Some {| b_stream_id := g.1.1;
          b_bin := g.1.2;
          b_count := Z.of_nat (length members);
          b_start_ms := lo;
          b_end_ms := hi;
          b_total_dur := fsum (duration_ms <$> members);
          b_top_kernel := top;
          b_device_id := first;
          b_duration_ms := (hi - lo)%Qc |}.

(** [kernels.groupby(["stream_id", "bin"]).agg(...).reset_index()] *)
Definition agg (kernels : list Row) (bin_ms : Qc) : list Bin :=
  omap agg_group (groupby (key_of bin_ms) kernels).

(** bin_events(df, bin_ms): the bins and the memcpys kept as they are.
    (The frame returned is these two, the bins with their formatted
    [op_name] and [detail], ordered by [start_ms].) *)
Definition bin_events (df : list Row) (bin_ms : Qc)
  : list Bin * list Row :=
  let memcpys := of_type memcpy df in
  let kernels := of_type kernel df in
  match kernels with
  | [] => ([], memcpys)
  | _ => (agg kernels bin_ms, memcpys)
  end.

(** The fields of a bin the order of the input cannot change: its key,
    boundaries and count. *)
Definition bin_extent (b : Bin) : Z * Z * Z * Qc * Qc :=
  (b_stream_id b, b_bin b, b_count b, b_start_ms b, b_end_ms b).

Definition bin_key (b : Bin) : Key := (b_stream_id b, b_bin b).

(** The number of occurrences of a label in a column. *)
Definition occurrences (y : string) (s : list string) : nat :=
  length (filter (λ z, z = y) s).

(** [top] is the most frequent label of [s], and among the labels as
    frequent as it the one seen first: every label seen before the first
    [top] is strictly less frequent. *)
Definition most_frequent_first_seen (top : string) (s : list string) : Prop :=
  ∃ pre post,
    s = pre ++ top :: post ∧ (top ∉ pre) ∧
    (∀ y, (occurrences y s ≤ occurrences top s)%nat) ∧
    (∀ y, y ∈ pre → (occurrences y s < occurrences top s)%nat).


End Aggregator.


(* ===================================================================== *)
(** ** Concrete traces                                                    *)
(* ===================================================================== *)

Module Traces.
Import Correlator.

Definition mk_memcpy (s e b ck corr : Z) : MemcpyRow :=
  {| m_start := s; m_end := e; m_bytes := b; m_copyKind := ck;
     m_srcKind := 1; m_dstKind := 2; m_deviceId := 0; m_streamId := 1;
     m_correlationId := corr |}.

Definition mk_runtime (s e corr : Z) : RuntimeRow :=
  {| r_start := s; r_end := e; r_correlationId := corr; r_nameId := 1 |}.

Definition mk_kernel (s e stream : Z) : KernelRow :=
  {| k_start := s; k_end := e; k_deviceId := 0; k_streamId := stream;
     k_demangledName := 2 |}.

Definition mk_db (ks : list KernelRow) (ms : list MemcpyRow)
    (rs : list RuntimeRow) : Store.t :=
  {| kernels := ks; memcpys := ms; runtime := rs;
     StringIds := {[ 1 := "cudaMemcpyAsync"%string ]} |}.

(** The device reports the copy [0, 11) before the API call [10, 12) that
    triggered it starts (the two clocks disagree). *)
Definition skewed : Store.t :=
  mk_db [] [mk_memcpy 0 11 4 1 7] [mk_runtime 10 12 7].

(** The scenario of the design: a copy [20, 30) correlated with the API
    call [15, 35). *)
Definition scenario : Store.t :=
  mk_db [mk_kernel 0 10 1; mk_kernel 50 60 1]
        [mk_memcpy 20 30 4096 1 7] [mk_runtime 15 35 7].

(** One correlated copy, and the same trace with a second copy whose
    correlation id 9 belongs to no API call. *)
Definition matched_only : Store.t :=
  mk_db [] [mk_memcpy 20 30 4096 1 7] [mk_runtime 15 35 7].

Definition with_unmatched : Store.t :=
  mk_db [] [mk_memcpy 20 30 4096 1 7; mk_memcpy 40 45 64 2 9]
        [mk_runtime 15 35 7].

(** Two copies in one direction: 4 bytes in 1 ns and 4 bytes in 4 ns. *)
Definition two_rates : Store.t :=
  mk_db [] [mk_memcpy 0 1 4 1 7; mk_memcpy 10 14 4 1 8]
        [mk_runtime 0 1 7; mk_runtime 10 14 8].

(** A copy that starts before the first kernel. *)
Definition copy_first : Store.t :=
  mk_db [mk_kernel 100 110 1] [mk_memcpy 50 60 4096 1 7] [mk_runtime 45 65 7].

(** [two_rates] and a third copy of 8 bytes that takes no time. *)
Definition with_instant_copy : Store.t :=
  mk_db [] [mk_memcpy 0 1 4 1 7; mk_memcpy 10 14 4 1 8; mk_memcpy 20 20 8 1 9]
        [mk_runtime 0 1 7; mk_runtime 10 14 8; mk_runtime 20 21 9].

(** A single copy of 8 bytes that takes no time. *)
Definition instant_copy : Store.t :=
  mk_db [] [mk_memcpy 20 20 8 1 9] [mk_runtime 20 21 9].

(** Two copies on stream 1 followed by one kernel on that stream. *)
Definition two_copies_then_kernel : Store.t :=
  mk_db [mk_kernel 40 50 1]
        [mk_memcpy 0 10 64 1 7; mk_memcpy 20 30 64 1 8]
        [mk_runtime 0 10 7; mk_runtime 20 30 8].

(** A kernel row of the events frame, times in milliseconds. *)
Definition mk_row (name : string) (s e stream : Z) : Aggregator.Row :=
  {| Aggregator.event_type := Aggregator.kernel;
     Aggregator.op_name := name; Aggregator.full_name := name;
     Aggregator.start_ms := of_int s; Aggregator.end_ms := of_int e;
     Aggregator.duration_ms := of_int (e - s);
     Aggregator.stream_id := stream; Aggregator.device_id := 0;
     Aggregator.bytes := 0; Aggregator.detail := EmptyString |}.

(** Two kernels of stream 2 in the bin [0, 10), with different names. *)
Definition two_names : list Aggregator.Row :=
  [mk_row "gemm" 5 9 2; mk_row "relu" 8 18 2].

Definition two_names_swapped : list Aggregator.Row :=
  [mk_row "relu" 8 18 2; mk_row "gemm" 5 9 2].

End Traces.

(** The store with another memcpy table. *)
Definition set_memcpys (db : Store.t) (ms : list MemcpyRow) : Store.t :=
  {| kernels := kernels db; memcpys := ms; runtime := runtime db;
     StringIds := StringIds db |}.

(* ===================================================================== *)
(** ** Joining name components                                            *)
(* ===================================================================== *)

(** ["::".join(parts)] *)
Fixpoint join_colons (parts : list string) : string :=
  match parts with
  | [] => EmptyString
  | [p] => p
  | p :: ps => (p +:+ "::" +:+ join_colons ps)%string
  end.

(** The characters of a string. *)
Fixpoint chars (s : string) : list ascii :=
  match s with
  | EmptyString => []
  | String a s' => a :: chars s'
  end.

(* ===================================================================== *)
(** ** dump_window_csv.py: the kernel and memcpy sections                 *)
(* ===================================================================== *)

Module DumpWindow.

(** KERNEL_SQL and MEMCPY_SQL:
    [WHERE end >= lo AND start <= hi ORDER BY start]. *)
Definition KERNEL_SQL (db : Store.t) (lo hi : Z) : list KernelRow :=
  sort_by k_start (filter (λ k, lo ≤ k_end k ∧ k_start k ≤ hi) (kernels db)).

Definition MEMCPY_SQL (db : Store.t) (lo hi : Z) : list MemcpyRow :=
  sort_by m_start (filter (λ m, lo ≤ m_end m ∧ m_start m ≤ hi) (memcpys db)).

(** [KIND.get(k, str(k))]: an unknown kind is written as its number. *)
Definition mem_kind_or_number (k : Z) : string :=
  default (pretty k) (MEM_KIND !! k).
Definition copy_kind_or_number (k : Z) : string :=
  default (pretty k) (COPY_KIND !! k).

(** The values of one line of kernels_*.csv, times in milliseconds from
    [t0] (before formatting; the launch geometry columns are not carried
    by the store rows here). *)
Record KernelLine := {
  kl_start_ms : Qc; kl_end_ms : Qc; kl_duration_ms : Qc;
  kl_device_id : Z; kl_stream_id : Z;
  kl_op_name : string; kl_full_name : string
}.

Definition kernel_line (t0 : Z) (names : gmap Z string) (r : KernelRow)
  : KernelLine :=
  let dn := names !! k_demangledName r in
  {| kl_start_ms := (of_int (k_start r - t0) / f1e6)%Qc;
     kl_end_ms := (of_int (k_end r - t0) / f1e6)%Qc;
     kl_duration_ms := (of_int (k_end r - k_start r) / f1e6)%Qc;
     kl_device_id := k_deviceId r; kl_stream_id := k_streamId r;
     kl_op_name := short_name dn;
     kl_full_name := default EmptyString dn |}.

(** The values of one line of memcpy_*.csv. *)
Record MemcpyLine := {
  ml_start_ms : Qc; ml_end_ms : Qc; ml_duration_ms : Qc;
  ml_size_bytes : Z;
  ml_src_mem : string; ml_dst_mem : string;
  ml_device_id : Z; ml_stream_id : Z;
  ml_dma_bw : Qc; ml_direction : string
}.

Definition memcpy_line (t0 : Z) (r : MemcpyRow) : MemcpyLine :=
  let dur_ns := m_end r - m_start r in
  {| ml_start_ms := (of_int (m_start r - t0) / f1e6)%Qc;
     ml_end_ms := (of_int (m_end r - t0) / f1e6)%Qc;
     ml_duration_ms := (of_int dur_ns / f1e6)%Qc;
     ml_size_bytes := m_bytes r;
     ml_src_mem := mem_kind_or_number (m_srcKind r);
     ml_dst_mem := mem_kind_or_number (m_dstKind r);
     ml_device_id := m_deviceId r; ml_stream_id := m_streamId r;
     ml_dma_bw := dma_bw (m_bytes r) dur_ns;
     ml_direction := copy_kind_or_number (m_copyKind r) |}.

(** What main writes: the three files. *)
Record Dump := {
  kernel_lines : list KernelLine;
  memcpy_lines : list MemcpyLine;
  e2e_lines : list Correlator.WinOut
}.

(** main for the window [t1, t2] in milliseconds; [None] is the TypeError
    of [t0 + int(...)] on a trace without origin. *)
Definition main (db : Store.t) (t1 t2 : Qc) : option Dump :=
  t0 ← Origin.t0 db;
  let lo := t0 + py_int (t1 * f1e6)%Qc in
  let hi := t0 + py_int (t2 * f1e6)%Qc in
  Some {| kernel_lines := kernel_line t0 (StringIds db) <$> KERNEL_SQL db lo hi;
          memcpy_lines := memcpy_line t0 <$> MEMCPY_SQL db lo hi;
          e2e_lines :=
            Correlator.win_out <$> Correlator.MEMCPY_E2E_SQL db lo hi |}.

End DumpWindow.

(* ===================================================================== *)
(** ** visualize_nsys_trace.py: query_events                              *)
(* ===================================================================== *)

Module Visualize.

(** [l[:n]]: a negative [n] counts from the end. *)
Definition slice_to {A} (n : Z) (l : list A) : list A :=
  if decide (0 ≤ n) then take (Z.to_nat n) l
  else take (Z.to_nat (Z.of_nat (length l) + n)) l.

(** [k["duration"]], the column [k.end - k.start]. *)
Definition k_duration (k : KernelRow) : Z := k_end k - k_start k.

(** The top-N step:
<<
    kernels.sort(key=lambda k: k["duration"], reverse=True)
    kernels = kernels[:top_kernels]
    kernels.sort(key=lambda k: k["start"])
>> *)
Definition longest (n : Z) (ks : list KernelRow) : list KernelRow :=
  sort_by k_start (slice_to n (sort_by_desc k_duration ks)).

(** query_events(sqlite_path, start_ms, end_ms, top_kernels): the kernels,
    the memcpys and the time base.  (A table that does not exist is an
    empty table.) *)
Definition query_events (db : Store.t) (start_ms end_ms : option Qc)
    (top_kernels : option Z) : list KernelRow * list MemcpyRow * Z :=
  let kernels := sort_by k_start (kernels db) in
  let memcpys := sort_by m_start (memcpys db) in
  match kernels, memcpys with
  | [], [] => ([], [], 0)
  | _, _ =>
      let all_starts := (k_start <$> kernels) ++ (m_start <$> memcpys) in
      let t0 := default 0 (Origin.py_min all_starts) in
      let '(kernels, memcpys) :=
        match start_ms with
        | Some s =>
            let lo := t0 + py_int (s * f1e6)%Qc in
            (filter (λ k, lo ≤ k_end k) kernels,
             filter (λ m, lo ≤ m_end m) memcpys)
        | None => (kernels, memcpys)
        end in
      let '(kernels, memcpys) :=
        match end_ms with
        | Some e =>
            let hi := t0 + py_int (e * f1e6)%Qc in
            (filter (λ k, k_start k ≤ hi) kernels,
             filter (λ m, m_start m ≤ hi) memcpys)
        | None => (kernels, memcpys)
        end in
      let kernels :=
        match top_kernels with
        | Some n => longest n kernels
        | None => kernels
        end in
      (kernels, memcpys, t0)
  end.

End Visualize.

(* ===================================================================== *)
(** ** plot_memcpy_e2e.py: load                                           *)
(* ===================================================================== *)

Module PlotE2E.

(** The WHERE clause of load: the two bounds of analyze, and
    [m.bytes >= min_bytes] when [min_bytes > 0]. *)
Definition load_where (t0 : option Z) (start_ms end_ms : option Qc)
    (min_bytes : Z) : option (MemcpyRow → bool) :=
  w ← Correlator.analyze_where t0 start_ms end_ms;
  Some (λ m, w m &&
             (if decide (0 < min_bytes)
              then bool_decide (min_bytes ≤ m_bytes m) else true)).

(** [s.clip(lower=lo)] on one value. *)
Definition clip_lower (lo x : Qc) : Qc := if decide (x < lo)%Qc then lo else x.

(** A row of the data frame: the row of the query (its E2E_QUERY selects
    ten of the columns of analyze_memcpy's, from the same join) and the
    columns load adds.  [Series.map] of a kind without an entry is missing. *)
Record FrameRow := {
  fr_row : Correlator.E2ERow;
  fr_kind : option string;
  fr_src_mem : option string; fr_dst_mem : option string;
  cpu_start_ms : Qc; cpu_end_ms : Qc; gpu_start_ms : Qc; gpu_end_ms : Qc;
  cpu_dur_ms : Qc; gpu_dur_ms : Qc; launch_oh_ms : Qc; e2e_ms : Qc
}.

Definition frame_row (t0 : Z) (r : Correlator.E2ERow) : FrameRow :=
  let ms (x : Z) := (of_int (x - t0) / f1e6)%Qc in
  let cs := ms (Correlator.cpu_start r) in
  let ce := ms (Correlator.cpu_end r) in
  let gs := ms (Correlator.gpu_start r) in
  let ge := ms (Correlator.gpu_end r) in
  {| fr_row := r;
     fr_kind := COPY_KIND !! Correlator.copyKind r;
     fr_src_mem := MEM_KIND !! Correlator.srcKind r;
     fr_dst_mem := MEM_KIND !! Correlator.dstKind r;
     cpu_start_ms := cs; cpu_end_ms := ce;
     gpu_start_ms := gs; gpu_end_ms := ge;
     cpu_dur_ms := (ce - cs)%Qc;
     gpu_dur_ms := (ge - gs)%Qc;
     launch_oh_ms := clip_lower (Q2Qc 0) (gs - cs)%Qc;
     e2e_ms := (Aggregator.fmax ce ge - cs)%Qc |}.

(** load(sqlite_path, start_ms, end_ms, min_bytes): the frame and the
    origin.  [None] is an exception, [Some None] is [sys.exit(1)] on an
    empty row set. *)
Definition load (db : Store.t) (start_ms end_ms : option Qc) (min_bytes : Z)
  : option (option (list FrameRow * Z)) :=
  let t0 := Origin.t0 db in
  where_ ← load_where t0 start_ms end_ms min_bytes;
  let rows := Correlator.E2E_QUERY db where_ in
  match rows with
  | [] => Some None
  | _ => t ← t0; Some (Some (frame_row t <$> rows, t))
  end.

End PlotE2E.

(* ===================================================================== *)
(** ** More concrete traces                                               *)
(* ===================================================================== *)

Module MoreTraces.

(** A kernel of 10 ns, one of 30 ns and one of 20 ns on stream 1, and a
    copy that starts before all of them. *)
Definition three_kernels : Store.t :=
  {| kernels :=
       [ {| k_start := 100; k_end := 110; k_deviceId := 0; k_streamId := 1;
            k_demangledName := 2 |};
         {| k_start := 200; k_end := 230; k_deviceId := 0; k_streamId := 1;
            k_demangledName := 2 |};
         {| k_start := 300; k_end := 320; k_deviceId := 0; k_streamId := 1;
            k_demangledName := 2 |} ];
     memcpys :=
       [ {| m_start := 50; m_end := 60; m_bytes := 4096; m_copyKind := 1;
            m_srcKind := 1; m_dstKind := 2; m_deviceId := 0; m_streamId := 1;
            m_correlationId := 7 |} ];
     runtime :=
       [ {| r_start := 45; r_end := 65; r_correlationId := 7; r_nameId := 1 |} ];
     StringIds := {[ 1 := "cudaMemcpyAsync"%string ]} |}.

(** The float 0.1, and frames of one kernel of stream 2 that starts at
    1.0 ms and at the float 0.3 ms. *)
Definition tenth : Qc := Binary64.round (Q2Qc (1 # 10)).

Definition starts_at_one : list Aggregator.Row :=
  [Traces.mk_row "gemm" 1 2 2].


End MoreTraces.

(* ===================================================================== *)
(** * Properties                                                          *)
(* ===================================================================== *)

(** ** Numbers and sorting *)

Lemma py_max_spec (a b : Z) : py_max a b = Z.max a b.
Proof. unfold py_max. case_decide; lia. Qed.

Lemma sql_min_None (l : list Z) : sql_min l = None ↔ l = [].
Proof.
  destruct l as [|x l]; simpl; [done|].
  destruct (sql_min l); split; done.
Qed.

(** [MIN] is attained and is a lower bound. *)
Lemma sql_min_Some (l : list Z) (t : Z) :
  sql_min l = Some t ↔ t ∈ l ∧ ∀ x, x ∈ l → t ≤ x.
Proof.
  revert t. induction l as [|x l IH]; intros t; simpl.
  - split; [done|]. by intros [?%elem_of_nil _].
  - destruct (sql_min l) as [y|] eqn:Hy.
    + destruct (proj1 (IH y) eq_refl) as [Hin Hle]. split.
      * intros [= <-]. split.
        -- destruct (Z.min_spec x y) as [[_ ->]|[_ ->]]; [left | by right].
        -- intros z [->|Hz]%elem_of_cons; [lia|].
           specialize (Hle z Hz). lia.
      * intros [Ht Hmin]. f_equal.
        assert (t ≤ x) by (apply Hmin; left).
        assert (t ≤ y) by (apply Hmin; by right).
        apply elem_of_cons in Ht as [->|Ht]; [lia|].
        specialize (Hle t Ht). lia.
    + apply sql_min_None in Hy as ->. split.
      * intros [= <-]. split; [left|].
        by intros z ->%list_elem_of_singleton.
      * intros [->%list_elem_of_singleton _]. done.
Qed.

Section SortFacts.
Context {A : Type} (key : A → Z).

Lemma insert_by_perm (x : A) (l : list A) : insert_by key x l ≡ₚ x :: l.
Proof.
  induction l as [|y l IH]; simpl; [done|].
  case_decide; [done|]. rewrite IH. apply Permutation_swap.
Qed.

Lemma sort_by_perm (l : list A) : sort_by key l ≡ₚ l.
Proof.
  induction l as [|x l IH]; simpl; [done|].
  by rewrite insert_by_perm, IH.
Qed.

Lemma elem_of_sort_by (x : A) (l : list A) : x ∈ sort_by key l ↔ x ∈ l.
Proof. by rewrite sort_by_perm. Qed.

Lemma insert_by_sorted (x : A) (l : list A) :
  StronglySorted (key_le key) l → StronglySorted (key_le key) (insert_by key x l).
Proof.
  induction 1 as [|y l Hs IH Hall]; simpl.
  - repeat constructor.
  - case_decide as Hxy.
    + constructor; [by constructor|].
      constructor; [done|].
      eapply Forall_impl; [exact Hall|]. unfold key_le. intros; simpl in *; lia.
    + constructor; [done|].
      rewrite insert_by_perm. constructor; [unfold key_le; lia | done].
Qed.

Lemma sort_by_sorted (l : list A) : StronglySorted (key_le key) (sort_by key l).
Proof.
  induction l; simpl; [constructor | by apply insert_by_sorted].
Qed.

End SortFacts.

Lemma f1e6_neq0 : f1e6 ≠ Q2Qc 0.
Proof. intros H. apply (f_equal this) in H. vm_compute in H. discriminate. Qed.

Lemma f1e6_pos : (Q2Qc 0 < f1e6)%Qc.
Proof. by vm_compute. Qed.

Lemma f1e9_neq0 : f1e9 ≠ Q2Qc 0.
Proof. intros H. apply (f_equal this) in H. vm_compute in H. discriminate. Qed.

Lemma of_int_le (a b : Z) : (of_int a ≤ of_int b)%Qc ↔ a ≤ b.
Proof.
  unfold Qcle, of_int. simpl. rewrite !Qred_correct. by rewrite <- Zle_Qle.
Qed.

Lemma of_int_lt (a b : Z) : (of_int a < of_int b)%Qc ↔ a < b.
Proof.
  unfold Qclt, of_int. simpl. rewrite !Qred_correct. by rewrite <- Zlt_Qlt.
Qed.

Lemma of_int_inj (a b : Z) : of_int a = of_int b → a = b.
Proof.
  intros H.
  assert (Ha : (of_int a ≤ of_int b)%Qc) by (rewrite H; apply Qcle_refl).
  assert (Hb : (of_int b ≤ of_int a)%Qc) by (rewrite H; apply Qcle_refl).
  rewrite of_int_le in Ha. rewrite of_int_le in Hb. lia.
Qed.

(** A millisecond value is the nanosecond value it was computed from, up to
    the factor 1e6: nothing is lost, and the sign is kept. *)
Lemma ms_to_ns (z : Z) : (of_int z / f1e6 * f1e6)%Qc = of_int z.
Proof. field. apply f1e6_neq0. Qed.

Lemma ms_negative (z : Z) : (of_int z / f1e6 < Q2Qc 0)%Qc ↔ z < 0.
Proof.
  rewrite (Qcmult_lt_mono_pos_r _ _ f1e6 f1e6_pos), ms_to_ns.
  replace (Q2Qc 0 * f1e6)%Qc with (of_int 0) by (apply Qc_is_canon; reflexivity).
  apply of_int_lt.
Qed.

Lemma ms_nonneg (z : Z) : (Q2Qc 0 ≤ of_int z / f1e6)%Qc ↔ 0 ≤ z.
Proof.
  rewrite Qcle_ngt, ms_negative. lia.
Qed.

(** The bandwidth expression is bytes per nanosecond. *)
Lemma gbps_ratio (b d : Z) : d ≠ 0 → gbps b d = (of_int b / of_int d)%Qc.
Proof.
  intros Hd. unfold gbps. field. split; [|apply f1e9_neq0].
  intros H. apply Hd, of_int_inj. rewrite H. apply Qc_is_canon. reflexivity.
Qed.

(** ** Correlator *)

Section CorrelatorFacts.
Import Correlator.

Lemma elem_of_join (ms : list MemcpyRow) (rs : list RuntimeRow) m r :
  (m, r) ∈ join_on_correlation ms rs ↔
  m ∈ ms ∧ r ∈ rs ∧ m_correlationId m = r_correlationId r.
Proof.
  unfold join_on_correlation. rewrite list_elem_of_bind. split.
  - intros (m' & Hin & Hm). apply list_elem_of_fmap in Hin as (r' & Heq & Hr).
    apply list_elem_of_filter in Hr as [Hc Hr]. by simplify_eq.
  - intros (Hm & Hr & Hc). exists m. split; [|done].
    apply list_elem_of_fmap. exists r. split; [done|].
    by apply list_elem_of_filter.
Qed.

(** A memcpy without a matching API call contributes no joined row. *)
Lemma join_unmatched ms1 m ms2 (rs : list RuntimeRow) :
  (∀ r, r ∈ rs → r_correlationId r ≠ m_correlationId m) →
  join_on_correlation (ms1 ++ m :: ms2) rs = join_on_correlation (ms1 ++ ms2) rs.
Proof.
  intros Hno. unfold join_on_correlation.
  rewrite !bind_app, bind_cons. f_equal.
  replace (filter (λ r, m_correlationId m = r_correlationId r) rs)
    with (@nil RuntimeRow); [done|].
  symmetry. induction rs as [|r rs IH]; [done|].
  rewrite filter_cons. case_decide as Hc.
  - exfalso. eapply Hno; [left|]. done.
  - apply IH. intros r' Hr'. apply Hno. by right.
Qed.

Lemma elem_of_E2E_QUERY db where_ row :
  row ∈ E2E_QUERY db where_ ↔
  ∃ m r, m ∈ memcpys db ∧ r ∈ runtime db ∧
         m_correlationId m = r_correlationId r ∧ where_ m = true ∧
         row = e2e_select (StringIds db) (m, r).
Proof.
  unfold E2E_QUERY. rewrite list_elem_of_fmap. split.
  - intros ([m r] & -> & Hin). apply elem_of_sort_by in Hin.
    apply list_elem_of_filter in Hin as [Hw Hin].
    apply elem_of_join in Hin as (? & ? & ?). simpl in Hw.
    exists m, r. tauto.
  - intros (m & r & Hm & Hr & Hc & Hw & ->). exists (m, r). split; [done|].
    apply elem_of_sort_by, list_elem_of_filter. split; [done|].
    by apply elem_of_join.
Qed.

Lemma elem_of_MEMCPY_E2E_SQL db lo hi row :
  row ∈ MEMCPY_E2E_SQL db lo hi ↔
  ∃ m r, m ∈ memcpys db ∧ r ∈ runtime db ∧
         m_correlationId m = r_correlationId r ∧
         lo ≤ m_end m ∧ m_start m ≤ hi ∧
         row = win_select (StringIds db) (m, r).
Proof.
  unfold MEMCPY_E2E_SQL. rewrite list_elem_of_fmap. split.
  - intros ([m r] & -> & Hin). apply elem_of_sort_by in Hin.
    apply list_elem_of_filter in Hin as [Hw Hin].
    apply elem_of_join in Hin as (? & ? & ?). simpl in Hw.
    exists m, r. tauto.
  - intros (m & r & Hm & Hr & Hc & Hlo & Hhi & ->). exists (m, r).
    split; [done|].
    apply elem_of_sort_by, list_elem_of_filter. split; [done|].
    by apply elem_of_join.
Qed.

(** The records analyze exports are the rows of its query. *)
Lemma elem_of_csv_of db start_ms end_ms c :
  c ∈ csv_of (analyze db start_ms end_ms) →
  ∃ where_ row, row ∈ E2E_QUERY db where_ ∧ c = csv_row row.
Proof.
  unfold analyze. destruct (analyze_where _ _ _) as [w|]; simpl.
  - destruct (E2E_QUERY db w) as [|r0 rows] eqn:Hq; simpl.
    + by intros ?%elem_of_nil.
    + rewrite <- fmap_cons, list_elem_of_fmap. intros (row & -> & Hin).
      exists w, row. by rewrite Hq.
  - by intros ?%elem_of_nil.
Qed.

Lemma elem_of_dump_e2e db t1 t2 outs o :
  dump_e2e db t1 t2 = Some outs → o ∈ outs →
  ∃ lo hi row, row ∈ MEMCPY_E2E_SQL db lo hi ∧ o = win_out row.
Proof.
  unfold dump_e2e. intros H Ho.
  destruct (Origin.bound _ t1) as [lo|]; [|done].
  destruct (Origin.bound _ t2) as [hi|]; [|done].
  simpl in H. simplify_eq. apply list_elem_of_fmap in Ho as (row & -> & Hin).
  by exists lo, hi, row.
Qed.

End CorrelatorFacts.

Section CorrelatedTransferFacts.
Import Correlator.

(** The derived fields of a record, in terms of the four timestamps. *)
Lemma csv_of_fields db start_ms end_ms c :
  c ∈ csv_of (analyze db start_ms end_ms) →
  cpu_wall_ns_ c = cpu_end_ns c - cpu_start_ns c ∧
  gpu_dma_ns_ c = gpu_end_ns c - gpu_start_ns c ∧
  launch_overhead_ns_ c = Z.max 0 (gpu_start_ns c - cpu_start_ns c) ∧
  sync_wait_ns_ c = Z.max 0 (cpu_end_ns c - gpu_end_ns c) ∧
  e2e_ns c = Z.max (cpu_wall_ns_ c) (gpu_end_ns c - cpu_start_ns c).
Proof.
  intros (w & row & Hrow & ->)%elem_of_csv_of.
  apply elem_of_E2E_QUERY in Hrow as (m & r & _ & _ & _ & _ & ->).
  simpl. unfold e2e_of. simpl. by rewrite !py_max_spec.
Qed.

Lemma dump_e2e_fields db t1 t2 outs o :
  dump_e2e db t1 t2 = Some outs → o ∈ outs →
  wo_cpu_wall o = w_cpu_end (wo_row o) - w_cpu_start (wo_row o) ∧
  wo_gpu_dma o = w_gpu_end (wo_row o) - w_gpu_start (wo_row o) ∧
  wo_launch_oh o =
    Z.max 0 (w_gpu_start (wo_row o) - w_cpu_start (wo_row o)) ∧
  wo_e2e o =
    Z.max (wo_cpu_wall o) (w_gpu_end (wo_row o) - w_cpu_start (wo_row o)).
Proof.
  intros Hd Ho. destruct (elem_of_dump_e2e _ _ _ _ _ Hd Ho) as (lo & hi & row & _ & ->).
  simpl. by rewrite !py_max_spec.
Qed.

(** C1, as stated, fails: in the trace [skewed] the copy [0, 11) is
    correlated with the API call [10, 12); the exported record has
    end-to-end time max(2, 11 - 10) = 2 and device-active time 11. *)
Lemma e2e_below_device_active :
  ¬ (∀ c, c ∈ csv_of (analyze Traces.skewed None None) →
          gpu_dma_ns_ c ≤ e2e_ns c ∧ cpu_wall_ns_ c ≤ e2e_ns c).
Proof.
  intros H.
  assert (∃ c, c ∈ csv_of (analyze Traces.skewed None None) ∧
               e2e_ns c = 2 ∧ gpu_dma_ns_ c = 11) as (c & Hc & He & Hd).
  { eexists. split; [vm_compute; apply list_elem_of_here|]. by split. }
  destruct (H c Hc) as [Hle _]. lia.
Qed.

(** C1, amended.  For every correlated transfer record that analyze exports
    and every line dump_window_csv computes: the end-to-end time is at least
    the CPU wall time, and it is at least the device-active time exactly when
    the transfer does not start before its API call or the CPU wall time is
    at least the device-active time. *)
Theorem e2e_lower_bounds db start_ms end_ms t1 t2 :
  (∀ c, c ∈ csv_of (analyze db start_ms end_ms) →
     cpu_wall_ns_ c ≤ e2e_ns c ∧
     (gpu_dma_ns_ c ≤ e2e_ns c ↔
        cpu_start_ns c ≤ gpu_start_ns c ∨ gpu_dma_ns_ c ≤ cpu_wall_ns_ c)) ∧
  (∀ outs o, dump_e2e db t1 t2 = Some outs → o ∈ outs →
     wo_cpu_wall o ≤ wo_e2e o ∧
     (wo_gpu_dma o ≤ wo_e2e o ↔
        w_cpu_start (wo_row o) ≤ w_gpu_start (wo_row o) ∨
        wo_gpu_dma o ≤ wo_cpu_wall o)).
Proof.
  split.
  - intros c Hc. apply csv_of_fields in Hc as (_ & Hd & _ & _ & He). lia.
  - intros outs o Hd Ho.
    destruct (dump_e2e_fields _ _ _ _ _ Hd Ho) as (_ & Hg & _ & He). lia.
Qed.

Lemma e2e_lower_bounds_witness :
  ∃ c o, c ∈ csv_of (analyze Traces.scenario None None) ∧
         dump_e2e Traces.scenario (of_int 0) (of_int 1) = Some [o] ∧
         cpu_wall_ns_ c ≤ e2e_ns c ∧ gpu_dma_ns_ c ≤ e2e_ns c ∧
         wo_cpu_wall o ≤ wo_e2e o ∧ wo_gpu_dma o ≤ wo_e2e o.
Proof.
  pose proof (e2e_lower_bounds Traces.scenario None None (of_int 0) (of_int 1))
    as [Ha Hw].
  eexists _, _. split; [vm_compute; apply list_elem_of_here|].
  split; [vm_compute; reflexivity|].
  match goal with |- context [cpu_wall_ns_ ?c] =>
    destruct (Ha c) as [H1 H2]; [vm_compute; apply list_elem_of_here|] end.
  match goal with |- context [wo_cpu_wall ?o] =>
    destruct (Hw [o] o) as [H3 H4];
      [vm_compute; reflexivity | apply list_elem_of_here |] end.
  split; [exact H1|]. split; [apply H2; left; vm_compute; discriminate|].
  split; [exact H3|]. apply H4; left; vm_compute; discriminate.
Defined.

End CorrelatedTransferFacts.

Section MissingCorrelationFacts.
Import Correlator.

Lemma E2E_QUERY_unmatched db ms1 m ms2 where_ :
  memcpys db = ms1 ++ m :: ms2 →
  (∀ r, r ∈ runtime db → r_correlationId r ≠ m_correlationId m) →
  E2E_QUERY db where_ = E2E_QUERY (set_memcpys db (ms1 ++ ms2)) where_.
Proof.
  intros Hms Hno. unfold E2E_QUERY. simpl. rewrite Hms.
  by rewrite (join_unmatched _ _ _ _ Hno).
Qed.

Lemma MEMCPY_E2E_SQL_unmatched db ms1 m ms2 lo hi :
  memcpys db = ms1 ++ m :: ms2 →
  (∀ r, r ∈ runtime db → r_correlationId r ≠ m_correlationId m) →
  MEMCPY_E2E_SQL db lo hi = MEMCPY_E2E_SQL (set_memcpys db (ms1 ++ ms2)) lo hi.
Proof.
  intros Hms Hno. unfold MEMCPY_E2E_SQL. simpl. rewrite Hms.
  by rewrite (join_unmatched _ _ _ _ Hno).
Qed.

(** C2, as stated, fails on the counter: the trace [with_unmatched] is
    [matched_only] plus one copy whose correlation id belongs to no API
    call.  analyze reports the same for both, so nothing that is computed
    from its report goes up by one. *)
Lemma no_unmatched_counter :
  ¬ ∃ counter : option (option Report) → Z,
      counter (analyze Traces.with_unmatched None None) =
      counter (analyze Traces.matched_only None None) + 1.
Proof.
  intros (counter & H).
  assert (analyze Traces.with_unmatched None None =
          analyze Traces.matched_only None None) as Heq
    by (vm_compute; reflexivity).
  rewrite Heq in H. lia.
Qed.

(** C2, amended.  A transfer whose correlation id matches no API call is
    left out of the correlator's output: both queries return what they
    return on the trace without that transfer, no returned row carries its
    correlation id, and analyze as a whole (report, early return or
    exception alike) is the one of the trace without it whenever the trace
    origin is the same.  No count of such transfers is kept. *)
Theorem unmatched_transfer_dropped db ms1 m ms2 :
  memcpys db = ms1 ++ m :: ms2 →
  (∀ r, r ∈ runtime db → r_correlationId r ≠ m_correlationId m) →
  (∀ where_,
     E2E_QUERY db where_ = E2E_QUERY (set_memcpys db (ms1 ++ ms2)) where_ ∧
     ∀ row, row ∈ E2E_QUERY db where_ →
            correlationId row ≠ m_correlationId m) ∧
  (∀ lo hi,
     MEMCPY_E2E_SQL db lo hi =
     MEMCPY_E2E_SQL (set_memcpys db (ms1 ++ ms2)) lo hi) ∧
  (∀ start_ms end_ms,
     Origin.t0 (set_memcpys db (ms1 ++ ms2)) = Origin.t0 db →
     analyze db start_ms end_ms =
     analyze (set_memcpys db (ms1 ++ ms2)) start_ms end_ms).
Proof.
  intros Hms Hno. split; [|split].
  - intros w. split; [by eapply E2E_QUERY_unmatched|].
    intros row (m' & r & _ & Hr & Hc & _ & ->)%elem_of_E2E_QUERY. simpl.
    rewrite Hc. by apply Hno.
  - intros lo hi. by eapply MEMCPY_E2E_SQL_unmatched.
  - intros s e Ht. unfold analyze. rewrite Ht.
    destruct (analyze_where _ s e) as [w|]; simpl; [|done].
    by rewrite <- (E2E_QUERY_unmatched db ms1 m ms2 w Hms Hno).
Qed.

Lemma unmatched_transfer_dropped_witness :
  analyze Traces.with_unmatched None None =
  analyze Traces.matched_only None None.
Proof.
  apply (unmatched_transfer_dropped Traces.with_unmatched
           [Traces.mk_memcpy 20 30 4096 1 7] (Traces.mk_memcpy 40 45 64 2 9) []).
  - reflexivity.
  - intros r Hr. apply list_elem_of_singleton in Hr as ->. vm_compute. discriminate.
  - reflexivity.
Defined.

End MissingCorrelationFacts.

(** ** Stream pairing *)

Section PairingFacts.
Import Pairing.

Lemma search_backward_Some events stream i j :
  (i ≤ length events)%nat →
  search_backward events stream i = Some j ↔
  (j < i)%nat ∧
  (∃ k, events !! j = Some k ∧ kernel_on stream k = true) ∧
  ∀ j' e', (j < j' < i)%nat → events !! j' = Some e' →
           kernel_on stream e' = false.
Proof.
  induction i as [|i IH]; intros Hi; simpl.
  - split; [done | intros [? _]; lia].
  - destruct (lookup_lt_is_Some_2 events i) as [e He]; [lia|]. rewrite He.
    destruct (kernel_on stream e) eqn:Hk.
    + split.
      * intros [= <-]. split; [lia|]. split; [eauto|]. intros; lia.
      * intros (Hlt & (k & Hj & Hkj) & Hno).
        destruct (decide (j = i)) as [->|Hne]; [done|].
        rewrite (Hno i e) in Hk; [done | lia | done].
    + rewrite IH by lia. split.
      * intros (Hlt & Hex & Hno). split; [lia|]. split; [done|].
        intros j' e' Hj' He'. destruct (decide (j' = i)) as [->|Hne].
        -- by simplify_eq.
        -- apply (Hno j' e'); [lia | done].
      * intros (Hlt & (k & Hj & Hkj) & Hno).
        assert (j ≠ i) by (intros ->; simplify_eq; congruence).
        split; [lia|]. split; [eauto|].
        intros j' e' Hj' He'. apply (Hno j' e'); [lia | done].
Qed.

Lemma search_backward_None events stream i :
  (i ≤ length events)%nat →
  search_backward events stream i = None ↔
  ∀ j e, (j < i)%nat → events !! j = Some e → kernel_on stream e = false.
Proof.
  induction i as [|i IH]; intros Hi; simpl.
  - split; [intros; lia | done].
  - destruct (lookup_lt_is_Some_2 events i) as [e He]; [lia|]. rewrite He.
    destruct (kernel_on stream e) eqn:Hk.
    + split; [done|]. intros H. rewrite (H i e) in Hk; [done | lia | done].
    + rewrite IH by lia. split.
      * intros H j e' Hj He'. destruct (decide (j = i)) as [->|Hne].
        -- by simplify_eq.
        -- apply (H j e'); [lia | done].
      * intros H j e' Hj He'. apply (H j e'); [lia | done].
Qed.

Lemma search_forward_Some events stream n j0 j :
  (j0 + n ≤ length events)%nat →
  search_forward events stream n j0 = Some j ↔
  (j0 ≤ j < j0 + n)%nat ∧
  (∃ k, events !! j = Some k ∧ kernel_on stream k = true) ∧
  ∀ j' e', (j0 ≤ j' < j)%nat → events !! j' = Some e' →
           kernel_on stream e' = false.
Proof.
  revert j0. induction n as [|n IH]; intros j0 Hn; simpl.
  - split; [done | intros [? _]; lia].
  - destruct (lookup_lt_is_Some_2 events j0) as [e He]; [lia|]. rewrite He.
    destruct (kernel_on stream e) eqn:Hk.
    + split.
      * intros [= <-]. split; [lia|]. split; [eauto|]. intros; lia.
      * intros (Hlt & (k & Hj & Hkj) & Hno).
        destruct (decide (j = j0)) as [->|Hne]; [done|].
        rewrite (Hno j0 e) in Hk; [done | lia | done].
    + rewrite IH by lia. split.
      * intros (Hlt & Hex & Hno). split; [lia|]. split; [done|].
        intros j' e' Hj' He'. destruct (decide (j' = j0)) as [->|Hne].
        -- by simplify_eq.
        -- apply (Hno j' e'); [lia | done].
      * intros (Hlt & (k & Hj & Hkj) & Hno).
        assert (j ≠ j0) by (intros ->; simplify_eq; congruence).
        split; [lia|]. split; [eauto|].
        intros j' e' Hj' He'. apply (Hno j' e'); [lia | done].
Qed.

Lemma search_forward_None events stream n j0 :
  (j0 + n ≤ length events)%nat →
  search_forward events stream n j0 = None ↔
  ∀ j e, (j0 ≤ j < j0 + n)%nat → events !! j = Some e →
         kernel_on stream e = false.
Proof.
  revert j0. induction n as [|n IH]; intros j0 Hn; simpl.
  - split; [intros; lia | done].
  - destruct (lookup_lt_is_Some_2 events j0) as [e He]; [lia|]. rewrite He.
    destruct (kernel_on stream e) eqn:Hk.
    + split; [done|]. intros H. rewrite (H j0 e) in Hk; [done | lia | done].
    + rewrite IH by lia. split.
      * intros H j e' Hj He'. destruct (decide (j = j0)) as [->|Hne].
        -- by simplify_eq.
        -- apply (H j e'); [lia | done].
      * intros H j e' Hj He'. apply (H j e'); [lia | done].
Qed.

Lemma prev_nearest events stream i :
  (i ≤ length events)%nat →
  nearest_before events stream i
    (j ← prev_index events stream i; events !! j).
Proof.
  intros Hi. unfold prev_index.
  destruct (search_backward events stream i) as [j|] eqn:Hs; simpl.
  - rewrite search_backward_Some in Hs by done.
    destruct Hs as (Hlt & (k & Hk & Hon) & Hno).
    rewrite Hk. simpl. by exists j.
  - by rewrite search_backward_None in Hs.
Qed.

Lemma next_nearest events stream i :
  (i < length events)%nat →
  nearest_after events stream i
    (j ← next_index events stream i; events !! j).
Proof.
  intros Hi. unfold next_index.
  destruct (search_forward events stream _ _) as [j|] eqn:Hs; simpl.
  - rewrite search_forward_Some in Hs by lia.
    destruct Hs as (Hlt & (k & Hk & Hon) & Hno).
    rewrite Hk. simpl. exists j. split; [lia|]. split; [done|]. split; [done|].
    intros j' e' Hj'. apply Hno. lia.
  - rewrite search_forward_None in Hs by lia.
    intros j e Hj He. apply (Hs j e); [|done].
    apply lookup_lt_Some in He. lia.
Qed.

Lemma elem_of_pairs events p :
  p ∈ pairs events ↔ ∃ i e, events !! i = Some e ∧ pair_at events i e = Some p.
Proof.
  unfold pairs. rewrite list_elem_of_omap. split.
  - intros (o & Ho & Hp). apply elem_of_lookup_imap in Ho as (i & e & -> & He).
    by exists i, e.
  - intros (i & e & He & Hp). exists (Some p). split; [|done].
    rewrite <- Hp. by apply elem_of_lookup_imap_2.
Qed.

(** A kernel lookup that starts beyond a stretch without kernels of the
    stream gives what it gives from the near end of the stretch. *)
Lemma search_backward_skip events stream i j :
  (i ≤ j ≤ length events)%nat →
  (∀ j' e', (i ≤ j' < j)%nat → events !! j' = Some e' →
            kernel_on stream e' = false) →
  search_backward events stream j = search_backward events stream i.
Proof.
  intros [Hij Hj]. induction j as [|j IH]; intros Hno.
  - by replace i with 0%nat by lia.
  - destruct (decide (i = S j)) as [->|Hne]; [done|]. simpl.
    destruct (lookup_lt_is_Some_2 events j) as [e He]; [lia|]. rewrite He.
    rewrite (Hno j e) by (done || lia).
    apply IH; [lia | lia |]. intros j' e' Hj'. apply Hno. lia.
Qed.

Lemma search_forward_skip events stream n j0 d :
  (j0 + d + n ≤ length events)%nat →
  (∀ j' e', (j0 ≤ j' < j0 + d)%nat → events !! j' = Some e' →
            kernel_on stream e' = false) →
  search_forward events stream (d + n) j0 =
  search_forward events stream n (j0 + d).
Proof.
  revert j0. induction d as [|d IH]; intros j0 Hlen Hno.
  - by rewrite Nat.add_0_r.
  - simpl. destruct (lookup_lt_is_Some_2 events j0) as [e He]; [lia|].
    rewrite He. rewrite (Hno j0 e) by (done || lia).
    rewrite IH; [f_equal; lia | lia |].
    intros j' e' Hj'. apply Hno. lia.
Qed.

(** The timeline is in start order and holds the events of the window. *)
Lemma timeline_sorted names ks ms :
  StronglySorted (key_le ev_start) (timeline names ks ms) ∧
  timeline names ks ms ≡ₚ (of_kernel names <$> ks) ++ (of_memcpy <$> ms).
Proof. split; [apply sort_by_sorted | apply sort_by_perm]. Qed.

(** main stops with an exception exactly on a trace without kernels, where
    the origin is None; otherwise its rows are the pairs of the timeline. *)
Lemma main_None db t1 t2 : main db t1 t2 = None ↔ kernels db = [].
Proof.
  unfold main, Origin.bound, Origin.t0_pairs.
  destruct (sql_min (k_start <$> kernels db)) eqn:Hm; simpl.
  - split; [done|]. intros Hk. rewrite Hk in Hm. done.
  - apply sql_min_None, fmap_nil_inv in Hm. done.
Qed.

Lemma pairs_no_memcpy events :
  (∀ e, e ∈ events → is_kernel e = true) → pairs events = [].
Proof.
  intros Hall. destruct (pairs events) as [|p ps] eqn:Hp; [done|].
  assert (p ∈ pairs events) as Hin by (rewrite Hp; left).
  apply elem_of_pairs in Hin as (i & e & He & Hpa).
  apply list_elem_of_lookup_2 in He. apply Hall in He.
  destruct e; simpl in *; done.
Qed.

Lemma main_Some db t1 t2 rows :
  main db t1 t2 = Some rows →
  ∃ lo hi,
    Origin.bound (Origin.t0_pairs db) t1 = Some lo ∧
    Origin.bound (Origin.t0_pairs db) t2 = Some hi ∧
    rows = pairs (timeline (StringIds db)
      (sort_by k_start
         (filter (λ k, lo ≤ k_end k ∧ k_start k ≤ hi) (kernels db)))
      (sort_by m_start
         (filter (λ m, lo ≤ m_end m ∧ m_start m ≤ hi) (memcpys db)))).
Proof.
  unfold main. intros H.
  destruct (Origin.bound _ t1) as [lo|]; [|done].
  destruct (Origin.bound _ t2) as [hi|]; [|done]. simpl in H.
  exists lo, hi. split; [done|]. split; [done|].
  destruct (sort_by m_start _) as [|m0 ms0] eqn:Hms; [|by simplify_eq].
  simplify_eq. symmetry. apply pairs_no_memcpy.
  intros e He. unfold timeline in He. rewrite elem_of_sort_by in He.
  apply elem_of_app in He as [He|He]; [|by apply elem_of_nil in He].
  apply list_elem_of_fmap in He as (k & -> & _). done.
Qed.

Lemma pair_at_fields events i e p :
  pair_at events i e = Some p →
  ev p = e ∧ is_kernel e = false ∧
  prev_kernel p = (j ← prev_index events (ev_stream e) i; events !! j) ∧
  next_kernel p = (j ← next_index events (ev_stream e) i; events !! j) ∧
  gap_before p =
    (λ k, (of_int (ev_start e - ev_end k) / f1e6)%Qc) <$> prev_kernel p ∧
  gap_after p =
    (λ k, (of_int (ev_start k - ev_end e) / f1e6)%Qc) <$> next_kernel p.
Proof.
  destruct e; simpl; [done|]. intros [= <-]. simpl. done.
Qed.

(** The pairing loop.  In the merged timeline, which is in start order,
    every memcpy gets a row; its previous kernel is the nearest kernel of
    its stream before it and its next kernel the nearest one after it,
    either side being empty when the stream has no kernel there; the gaps
    are start - prev.end and next.start - end (in milliseconds, that is
    over 1e6), empty with their side. *)
Theorem nearest_kernels_on_stream names ks ms i start end_ stream b ck sk dk :
  timeline names ks ms !! i = Some (Memcpy start end_ stream b ck sk dk) →
  StronglySorted (key_le ev_start) (timeline names ks ms) ∧
  ∃ p, p ∈ pairs (timeline names ks ms) ∧
       ev p = Memcpy start end_ stream b ck sk dk ∧
       nearest_before (timeline names ks ms) stream i (prev_kernel p) ∧
       nearest_after (timeline names ks ms) stream i (next_kernel p) ∧
       gap_before p =
         (λ k, (of_int (start - ev_end k) / f1e6)%Qc) <$> prev_kernel p ∧
       gap_after p =
         (λ k, (of_int (ev_start k - end_) / f1e6)%Qc) <$> next_kernel p.
Proof.
  intros Hi. split; [apply timeline_sorted|].
  pose proof (lookup_lt_Some _ _ _ Hi) as Hlt.
  destruct (pair_at (timeline names ks ms) i
              (Memcpy start end_ stream b ck sk dk)) as [p|] eqn:Hp; [|done].
  exists p. split; [apply elem_of_pairs; eauto|].
  apply pair_at_fields in Hp as (He & _ & Hprev & Hnext & Hgb & Hga).
  simpl in *. split; [done|].
  rewrite Hprev, Hnext in *.
  split; [apply prev_nearest; lia|]. split; [by apply next_nearest|]. done.
Qed.

Lemma nearest_kernels_on_stream_witness :
  ∃ p, p ∈ pairs (timeline (StringIds Traces.scenario)
                    (kernels Traces.scenario) (memcpys Traces.scenario)) ∧
       prev_kernel p = Some (Kernel 0 10 1 "unknown" "") ∧
       next_kernel p = Some (Kernel 50 60 1 "unknown" "") ∧
       gap_before p = Some (of_int 10 / f1e6)%Qc ∧
       gap_after p = Some (of_int 20 / f1e6)%Qc.
Proof.
  destruct (nearest_kernels_on_stream (StringIds Traces.scenario)
              (kernels Traces.scenario) (memcpys Traces.scenario)
              1 20 30 1 4096 1 1 2 eq_refl)
    as (_ & p & Hin & Hev & Hb & Ha & Hgb & Hga).
  exists p. split; [done|].
  apply elem_of_pairs in Hin as (i & e & He & Hp).
  destruct i as [|[|[|i]]]; vm_compute in He; simplify_eq;
    vm_compute in Hp; simplify_eq; simpl in *; done.
Defined.

(** C4.  On a trace with a transfer and no kernel the script does not
    write the row with two empty sides: it raises, whatever the window.
    Its origin is MIN(start) of the kernel table alone, which is None
    here, and the bound t0 + int(t1 * 1e6) fails before any row is
    written.  The pairing loop, run on the same transfer, gives the row
    with both sides and both gaps empty; and the origin the other scripts
    compute for this trace is the start of the transfer, 20. *)
Lemma pairing_raises_without_kernels :
  (∀ t1 t2, main Traces.matched_only t1 t2 = None) ∧
  Origin.t0_pairs Traces.matched_only = None ∧
  Origin.t0 Traces.matched_only = Some 20 ∧
  ∃ p, pairs (timeline (StringIds Traces.matched_only)
                (kernels Traces.matched_only)
                (memcpys Traces.matched_only)) = [p] ∧
       ev p = Memcpy 20 30 1 4096 1 1 2 ∧
       prev_kernel p = None ∧ next_kernel p = None ∧
       gap_before p = None ∧ gap_after p = None.
Proof.
  split; [intros t1 t2; by apply main_None|].
  split; [reflexivity|]. split; [reflexivity|].
  eexists. split; [vm_compute; reflexivity|]. by repeat split.
Qed.

(** C5, as stated, fails: in [two_copies_then_kernel] the copies [0, 10)
    and [20, 30) of stream 1 both get the kernel [40, 50) as their next
    kernel, so whatever is taken as that kernel's "prev on stream" cannot
    be both copies.  (The script computes neighbours of copies only.) *)
Lemma pairing_not_symmetric :
  ∃ rows,
    main Traces.two_copies_then_kernel (of_int (-1)) (of_int 1) = Some rows ∧
    ¬ ∃ prev_on_stream : Event → option Event,
        ∀ p B, p ∈ rows → next_kernel p = Some B →
               prev_on_stream B = Some (ev p).
Proof.
  eexists. split; [vm_compute; reflexivity|].
  intros (f & Hf).
  match type of Hf with
  | ∀ p B, p ∈ [?p1; ?p2] → _ =>
      pose proof (Hf p1 _ (list_elem_of_here _ _) eq_refl) as H1;
      pose proof (Hf p2 _ (list_elem_of_further _ _ _ (list_elem_of_here _ _))
                    eq_refl) as H2
  end.
  simpl in H1, H2. rewrite H1 in H2. discriminate.
Qed.

(** C5, amended.  For a transfer A at position [i] of the timeline: when
    the kernel at [j] is reported as A's next on a stream, it lies after A
    and the nearest kernel of that stream before it is the one before A
    (no kernel of the stream separates A from it); when the kernel at [h]
    is reported as A's prev, it lies before A and the nearest kernel of the
    stream after it is the one after A. *)
Theorem neighbours_enclose_transfer events i e stream :
  events !! i = Some e → is_kernel e = false →
  (∀ j, next_index events stream i = Some j →
        (i < j)%nat ∧
        prev_index events stream j = prev_index events stream i) ∧
  (∀ h, prev_index events stream i = Some h →
        (h < i)%nat ∧
        next_index events stream h = next_index events stream i).
Proof.
  intros He Hk. pose proof (lookup_lt_Some _ _ _ He) as Hlen.
  assert (kernel_on stream e = false) as Hke
    by (unfold kernel_on; by rewrite Hk).
  unfold next_index, prev_index. split.
  - intros j Hj. rewrite search_forward_Some in Hj by lia.
    destruct Hj as (Hr & _ & Hno). split; [lia|].
    apply search_backward_skip; [lia|].
    intros j' e' Hj' He'. destruct (decide (j' = i)) as [->|Hne].
    + by simplify_eq.
    + apply (Hno j' e'); [lia | done].
  - intros h Hh. rewrite search_backward_Some in Hh by lia.
    destruct Hh as (Hr & _ & Hno). split; [done|].
    replace (length events - (h + 1))%nat
      with ((i - h) + (length events - (i + 1)))%nat by lia.
    rewrite search_forward_skip.
    + f_equal. lia.
    + lia.
    + intros j' e' Hj' He'. destruct (decide (j' = i)) as [->|Hne].
      * by simplify_eq.
      * apply (Hno j' e'); [lia | done].
Qed.

Lemma neighbours_enclose_transfer_witness :
  next_index [Kernel 0 10 1 "a" "a"; Memcpy 20 30 1 64 1 1 2;
              Kernel 50 60 1 "b" "b"] 1 1 = Some 2%nat ∧
  prev_index [Kernel 0 10 1 "a" "a"; Memcpy 20 30 1 64 1 1 2;
              Kernel 50 60 1 "b" "b"] 1 2 = Some 0%nat ∧
  next_index [Kernel 0 10 1 "a" "a"; Memcpy 20 30 1 64 1 1 2;
              Kernel 50 60 1 "b" "b"] 1 0 = Some 2%nat.
Proof.
  destruct (neighbours_enclose_transfer
              [Kernel 0 10 1 "a" "a"; Memcpy 20 30 1 64 1 1 2;
               Kernel 50 60 1 "b" "b"] 1 (Memcpy 20 30 1 64 1 1 2) 1
              eq_refl eq_refl) as [Hn Hp].
  destruct (Hn 2%nat eq_refl) as [_ H1].
  destruct (Hp 0%nat eq_refl) as [_ H2].
  split; [reflexivity|]. split; [rewrite H1; reflexivity|].
  rewrite H2. reflexivity.
Defined.

End PairingFacts.

(** ** Negative intervals *)

Section NegativeIntervalFacts.
Import Correlator Pairing.

(** C8, as stated, fails for the launch overhead (and the sync wait): in
    [skewed] the copy starts 10 ns before its API call, and the exported
    launch overhead is 0, not -10. *)
Lemma launch_overhead_clamped :
  ¬ (∀ c, c ∈ csv_of (analyze Traces.skewed None None) →
          gpu_start_ns c - cpu_start_ns c < 0 →
          launch_overhead_ns_ c = gpu_start_ns c - cpu_start_ns c).
Proof.
  intros H.
  assert (∃ c, c ∈ csv_of (analyze Traces.skewed None None) ∧
               gpu_start_ns c - cpu_start_ns c = -10 ∧
               launch_overhead_ns_ c = 0) as (c & Hc & Hraw & Hout).
  { eexists. split; [vm_compute; apply list_elem_of_here|]. by split. }
  specialize (H c Hc). lia.
Qed.

(** C8, amended.  In every record analyze exports, the CPU wall time and
    the device-active time are the plain differences of the timestamps,
    whatever their sign, while the launch overhead and the sync wait are
    those differences clamped below at 0.  In every row of the pairing, a
    gap is the plain difference of the timestamps over 1e6: multiplied back
    it is that difference, and it is negative exactly when the difference
    is. *)
Theorem negative_intervals db start_ms end_ms names ks ms :
  (∀ c, c ∈ csv_of (analyze db start_ms end_ms) →
     cpu_wall_ns_ c = cpu_end_ns c - cpu_start_ns c ∧
     gpu_dma_ns_ c = gpu_end_ns c - gpu_start_ns c ∧
     launch_overhead_ns_ c = Z.max 0 (gpu_start_ns c - cpu_start_ns c) ∧
     sync_wait_ns_ c = Z.max 0 (cpu_end_ns c - gpu_end_ns c)) ∧
  (∀ p, p ∈ pairs (timeline names ks ms) →
     (∀ k, prev_kernel p = Some k →
        ∃ g, gap_before p = Some g ∧
             (g * f1e6)%Qc = of_int (ev_start (ev p) - ev_end k) ∧
             ((g < Q2Qc 0)%Qc ↔ ev_start (ev p) < ev_end k)) ∧
     (∀ k, next_kernel p = Some k →
        ∃ g, gap_after p = Some g ∧
             (g * f1e6)%Qc = of_int (ev_start k - ev_end (ev p)) ∧
             ((g < Q2Qc 0)%Qc ↔ ev_start k < ev_end (ev p)))).
Proof.
  split.
  - intros c Hc. apply csv_of_fields in Hc. tauto.
  - intros p (i & e & He & Hp)%elem_of_pairs.
    apply pair_at_fields in Hp as (-> & _ & _ & _ & Hgb & Hga).
    split; intros k Hk; rewrite Hk in *; simpl in *;
      (eexists; split; [done|]); rewrite ms_to_ns, ms_negative;
      (split; [done | lia]).
Qed.

Lemma negative_intervals_witness :
  ∃ c p, c ∈ csv_of (analyze Traces.skewed None None) ∧
         p ∈ pairs (timeline ∅ [Traces.mk_kernel 0 25 1]
                      [Traces.mk_memcpy 20 30 64 1 7]) ∧
         launch_overhead_ns_ c = 0 ∧
         ∃ g, gap_before p = Some g ∧ (g < Q2Qc 0)%Qc.
Proof.
  destruct (negative_intervals Traces.skewed None None ∅
              [Traces.mk_kernel 0 25 1] [Traces.mk_memcpy 20 30 64 1 7])
    as [Hc Hp].
  eexists _, _. split; [vm_compute; apply list_elem_of_here|].
  split; [vm_compute; apply list_elem_of_here|].
  match goal with |- launch_overhead_ns_ ?c = _ ∧ _ =>
    destruct (Hc c) as (_ & _ & Hl & _); [vm_compute; apply list_elem_of_here|]
  end.
  split; [rewrite Hl; reflexivity|].
  match goal with |- context [gap_before ?p] =>
    destruct (Hp p) as [Hb _]; [vm_compute; apply list_elem_of_here|]
  end.
  destruct (Hb _ eq_refl) as (g & Hg & _ & Hneg).
  exists g. split; [exact Hg|]. apply Hneg. vm_compute. reflexivity.
Defined.

End NegativeIntervalFacts.

(** ** Summary rollups *)

Section SummaryFacts.
Import Correlator.

Lemma zsum_snoc (l : list Z) (x : Z) : zsum (l ++ [x]) = zsum l + x.
Proof. unfold zsum. by rewrite foldl_app. Qed.

Lemma zsum_app_l (l1 l2 : list Z) : zsum (l1 ++ l2) = zsum l1 + zsum l2.
Proof.
  induction l2 as [|x l2 IH] using rev_ind.
  - rewrite app_nil_r. unfold zsum at 3. simpl. lia.
  - rewrite app_assoc, !zsum_snoc, IH. lia.
Qed.

(** The samples of a group: one per transfer with positive bytes and
    positive device-active time. *)
Lemma accumulate_all (G : list E2ERow) :
  let s := foldl accumulate stats_default G in
  count s = Z.of_nat (length G) ∧
  bytes_total s = zsum (bytes <$> G) ∧
  cpu_wall s = zsum (cpu_wall_ns <$> G) ∧
  gpu_dma s = zsum (gpu_dma_ns <$> G) ∧
  launch_oh s = zsum ((λ r, Z.max 0 (launch_overhead_ns r)) <$> G) ∧
  sync_wait s = zsum ((λ r, Z.max 0 (sync_wait_ns r)) <$> G) ∧
  e2e_list s = e2e_of <$> G ∧
  bw_list s =
    (λ r, gbps (bytes r) (gpu_dma_ns r)) <$>
      filter (λ r, 0 < gpu_dma_ns r ∧ 0 < bytes r) G.
Proof.
  induction G as [|r G IH] using rev_ind; [done|].
  cbv zeta in *. rewrite foldl_app.
  destruct IH as (Hc & Hb & Hw & Hd & Hl & Hs & He & Hbw).
  rewrite !fmap_app, length_app, filter_app.
  cbn [foldl accumulate count bytes_total cpu_wall gpu_dma launch_oh
         sync_wait e2e_list bw_list fmap list_fmap length].
  rewrite !zsum_snoc, !py_max_spec, Hc, Hb, Hw, Hd, Hl, Hs, He, Hbw.
  repeat split; try done; try lia.
  rewrite filter_cons, filter_nil.
  case_decide; [by rewrite fmap_app | by rewrite app_nil_r].
Qed.

Lemma direction_stats_lookup (rows : list E2ERow) (kind : string) :
  direction_stats rows !! kind =
  match filter (λ r, copy_kind (copyKind r) = kind) rows with
  | [] => None
  | G => Some (foldl accumulate stats_default G)
  end.
Proof.
  unfold direction_stats.
  induction rows as [|r rows IH] using rev_ind; [done|].
  rewrite foldl_app, filter_app. simpl. unfold stats_step at 1.
  rewrite filter_cons, filter_nil.
  destruct (decide (copy_kind (copyKind r) = kind)) as [->|Hne].
  - rewrite lookup_insert_eq, IH.
    destruct (filter _ rows) as [|r0 G] eqn:HG; simpl; [done|].
    by rewrite foldl_app.
  - rewrite lookup_insert_ne by done. by rewrite IH, app_nil_r.
Qed.

(** Every printed line is the rollup of the rows of its direction. *)
Lemma direction_summary_line (rows : list E2ERow) (line : DirSummary) :
  line ∈ direction_summary rows →
  ∃ G, G = filter (λ r, copy_kind (copyKind r) = ds_kind line) rows ∧
       G ≠ [] ∧ ds_kind line ∈ summary_kinds ∧
       ds_count line = count (foldl accumulate stats_default G) ∧
       ds_bytes line = bytes_total (foldl accumulate stats_default G) ∧
       ds_cpu_wall line = cpu_wall (foldl accumulate stats_default G) ∧
       ds_gpu_dma line = gpu_dma (foldl accumulate stats_default G) ∧
       ds_launch_oh line = launch_oh (foldl accumulate stats_default G) ∧
       ds_sync_wait line = sync_wait (foldl accumulate stats_default G) ∧
       ds_bw line = mean_bw (bw_list (foldl accumulate stats_default G)).
Proof.
  unfold direction_summary. rewrite list_elem_of_bind.
  intros (kind & Hline & Hkind). rewrite direction_stats_lookup in Hline.
  destruct (filter _ rows) as [|r0 G] eqn:HG; [by apply elem_of_nil in Hline|].
  case_decide; [by apply elem_of_nil in Hline|].
  apply list_elem_of_singleton in Hline as ->. simpl.
  exists (r0 :: G). rewrite HG. done.
Qed.

Lemma analyze_report db start_ms end_ms rep :
  analyze db start_ms end_ms = Some (Some rep) →
  ∃ where_,
    analyze_where (Origin.t0 db) start_ms end_ms = Some where_ ∧
    summary rep = direction_summary (E2E_QUERY db where_) ∧
    breakdown rep = mem_breakdown (E2E_QUERY db where_) ∧
    csv rep = csv_row <$> E2E_QUERY db where_.
Proof.
  unfold analyze. destruct (analyze_where _ _ _) as [w|]; simpl; [|done].
  destruct (E2E_QUERY db w) as [|r0 rows] eqn:Hq; [done|].
  intros [= <-]. exists w. by rewrite Hq.
Qed.

Lemma zsum_nonneg (l : list Z) :
  (∀ x, x ∈ l → 0 ≤ x) →
  0 ≤ zsum l ∧ (zsum l = 0 → ∀ x, x ∈ l → x = 0).
Proof.
  induction l as [|x l IH] using rev_ind; intros Hl.
  - split; [done|]. by intros _ x ?%elem_of_nil.
  - rewrite zsum_snoc.
    destruct IH as [Hs Hz]; [intros y Hy; apply Hl, elem_of_app; by left|].
    assert (0 ≤ x) by (apply Hl, elem_of_app; right; left).
    split; [lia|]. intros H0 y [Hy|Hy%list_elem_of_singleton]%elem_of_app.
    + apply Hz; [lia | done].
    + lia.
Qed.

(** C10.  A line of the per-direction summary rolls up every joined
    transfer of its direction, those with zero bytes or zero device time
    included, in its count and its totals; its bandwidth is the arithmetic
    mean of bytes / device-time over the transfers of the direction with
    positive bytes and positive device time, and 0 when there is none. *)
Theorem per_direction_rollup db start_ms end_ms line :
  line ∈ summary_of (analyze db start_ms end_ms) →
  ∃ where_ G S,
    analyze_where (Origin.t0 db) start_ms end_ms = Some where_ ∧
    G = filter (λ r, copy_kind (copyKind r) = ds_kind line)
               (E2E_QUERY db where_) ∧
    S = filter (λ r, 0 < gpu_dma_ns r ∧ 0 < bytes r) G ∧
    ds_count line = Z.of_nat (length G) ∧
    ds_bytes line = zsum (bytes <$> G) ∧
    ds_cpu_wall line = zsum (cpu_wall_ns <$> G) ∧
    ds_gpu_dma line = zsum (gpu_dma_ns <$> G) ∧
    ds_launch_oh line = zsum ((λ r, Z.max 0 (launch_overhead_ns r)) <$> G) ∧
    ds_sync_wait line = zsum ((λ r, Z.max 0 (sync_wait_ns r)) <$> G) ∧
    (S = [] → ds_bw line = Q2Qc 0) ∧
    (S ≠ [] →
       ds_bw line =
         (fsum ((λ r, (of_int (bytes r) / of_int (gpu_dma_ns r))%Qc) <$> S)
          / of_int (Z.of_nat (length S)))%Qc).
Proof.
  destruct (analyze db start_ms end_ms) as [[rep|]|] eqn:Ha; simpl;
    [|by intros ?%elem_of_nil..].
  apply analyze_report in Ha as (w & Hwhere & Hsum & _ & _). rewrite Hsum.
  intros (G & HG & Hne & _ & Hc & Hb & Hw & Hd & Hl & Hs & Hbw)%direction_summary_line.
  destruct (accumulate_all G) as (Ac & Ab & Aw & Ad & Al & As & _ & Abw).
  exists w, G, (filter (λ r, 0 < gpu_dma_ns r ∧ 0 < bytes r) G).
  rewrite Hc, Hb, Hw, Hd, Hl, Hs, Hbw, Abw.
  repeat split; try done.
  - intros ->. done.
  - intros Hne'. unfold mean_bw.
    destruct (filter _ G) as [|r0 S] eqn:HS; [done|].
    rewrite length_fmap. do 2 f_equal.
    apply Forall_fmap_ext_1, Forall_forall. intros r Hr.
    apply gbps_ratio. rewrite <- HS in Hr.
    apply list_elem_of_filter in Hr. lia.
Qed.

Lemma per_direction_rollup_witness :
  ∃ line, line ∈ summary_of (analyze Traces.with_instant_copy None None) ∧
          ds_count line = 3 ∧ ds_bytes line = 16 ∧ ds_gpu_dma line = 5 ∧
          ds_bw line = (of_int 5 / of_int 2)%Qc.
Proof.
  eexists. split; [vm_compute; apply list_elem_of_here|].
  match goal with |- ds_count ?l = _ ∧ _ =>
    destruct (per_direction_rollup Traces.with_instant_copy None None l)
      as (w & G & S & Hw & HG & HS & Hc & Hb & _ & Hd & _ & _ & _ & _);
      [vm_compute; apply list_elem_of_here|]
  end.
  injection Hw as <-. subst G.
  split; [rewrite Hc; reflexivity|]. split; [rewrite Hb; reflexivity|].
  split; [rewrite Hd; reflexivity|]. reflexivity.
Defined.

(** *** The memory type breakdown *)

Lemma mem_stats_add_keys key r d :
  (mem_stats_add key r d).*1 =
  if decide (key ∈ d.*1) then d.*1 else d.*1 ++ [key].
Proof.
  induction d as [|[k m] d IH].
  - by rewrite decide_False by apply not_elem_of_nil.
  - cbn [mem_stats_add]. rewrite !fmap_cons. cbn [fst].
    destruct (decide (k = key)) as [->|Hne].
    + rewrite decide_True by left. done.
    + rewrite fmap_cons, IH. cbn [fst].
      destruct (decide (key ∈ d.*1)) as [Hin|Hnin].
      * rewrite decide_True by (by right). done.
      * rewrite decide_False; [done|].
        intros [?|?]%elem_of_cons; [congruence | done].
Qed.

Lemma mem_stats_add_NoDup key r d :
  NoDup d.*1 → NoDup (mem_stats_add key r d).*1.
Proof.
  intros Hd. rewrite mem_stats_add_keys. case_decide as Hin; [done|].
  apply NoDup_app. split; [done|]. split; [|apply NoDup_singleton].
  intros k Hk ->%list_elem_of_singleton. done.
Qed.

Lemma mem_stats_add_elem key r d k m' :
  NoDup d.*1 →
  (k, m') ∈ mem_stats_add key r d →
  (k ≠ key ∧ (k, m') ∈ d) ∨
  (k = key ∧
   ∃ m, ((key, m) ∈ d ∨
         ((key ∉ d.*1) ∧
          m = {| ms_count := 0; ms_bytes := 0; ms_gpu_dma := 0 |}))
        ∧ ms_count m' = ms_count m + 1
        ∧ ms_bytes m' = ms_bytes m + bytes r
        ∧ ms_gpu_dma m' = ms_gpu_dma m + gpu_dma_ns r).
Proof.
  induction d as [|[k0 m0] d IH]; simpl; intros Hd Hin.
  - apply list_elem_of_singleton in Hin. simplify_eq. right. split; [done|].
    eexists. split; [right; split; [apply not_elem_of_nil | done]|]. done.
  - apply NoDup_cons in Hd as [Hk0 Hd].
    destruct (decide (k0 = key)) as [->|Hne].
    + apply elem_of_cons in Hin as [Heq|Hin].
      * simplify_eq. right. split; [done|]. exists m0. split; [left; left|]. done.
      * left. split; [|by right]. intros ->. apply Hk0.
        apply list_elem_of_fmap. by exists (key, m').
    + apply elem_of_cons in Hin as [Heq|Hin].
      * simplify_eq. left. split; [done | left].
      * destruct (IH Hd Hin) as [[Hk Hin']|(-> & m & Hm & Heqs)].
        -- left. split; [done | by right].
        -- right. split; [done|]. exists m. split; [|done].
           destruct Hm as [Hm|[Hm ->]]; [left; by right|].
           right. split; [|done]. intros [?|?]%elem_of_cons; [congruence|done].
Qed.

(** An entry of [mem_stats] holds the totals of the rows of its key. *)
Lemma mem_stats_spec (rows : list E2ERow) :
  NoDup (mem_stats rows).*1 ∧
  (∀ k, k ∈ (mem_stats rows).*1 ↔ ∃ r, r ∈ rows ∧ mem_key r = k) ∧
  ∀ k m, (k, m) ∈ mem_stats rows →
    ms_count m = Z.of_nat (length (filter (λ r, mem_key r = k) rows)) ∧
    ms_bytes m = zsum (bytes <$> filter (λ r, mem_key r = k) rows) ∧
    ms_gpu_dma m = zsum (gpu_dma_ns <$> filter (λ r, mem_key r = k) rows).
Proof.
  unfold mem_stats.
  induction rows as [|r rows (IHn & IHk & IH)] using rev_ind.
  - split; [constructor|]. split.
    + intros k. split; [by intros ?%elem_of_nil|].
      by intros (r & ?%elem_of_nil & _).
    + by intros k m ?%elem_of_nil.
  - rewrite foldl_app. simpl.
    set (d := foldl (λ d r, mem_stats_add (mem_key r) r d) [] rows) in *.
    split; [by apply mem_stats_add_NoDup|]. split.
    + intros k. rewrite mem_stats_add_keys. split.
      * intros Hk.
        assert (k ∈ d.*1 ∨ k = mem_key r) as [Hin| ->].
        { case_decide; [by left|].
          apply elem_of_app in Hk as [?|?%list_elem_of_singleton]; auto. }
        -- apply IHk in Hin as (r' & Hr' & Hkey). exists r'.
           split; [apply elem_of_app; by left | done].
        -- exists r. split; [apply elem_of_app; right; left | done].
      * intros (r' & [Hr'| ->%list_elem_of_singleton]%elem_of_app & <-).
        -- assert (mem_key r' ∈ d.*1) by (apply IHk; eauto).
           case_decide; [done | apply elem_of_app; by left].
        -- case_decide; [done | apply elem_of_app; right; left].
    + intros k m' Hin. rewrite filter_app, !fmap_app, length_app, !zsum_app_l.
      rewrite filter_cons, filter_nil.
      apply mem_stats_add_elem in Hin as [[Hne Hin]|(-> & m & Hm & Hc & Hb & Hd)];
        [| |done].
      * rewrite decide_False by congruence. simpl.
        destruct (IH k m' Hin) as (-> & -> & ->). unfold zsum. simpl. lia.
      * rewrite decide_True by done. simpl. rewrite Hc, Hb, Hd.
        destruct Hm as [Hm|[Hnin ->]].
        -- destruct (IH _ m Hm) as (-> & -> & ->). unfold zsum. simpl. lia.
        -- assert (filter (λ r0, mem_key r0 = mem_key r) rows = []) as ->.
           { destruct (filter _ rows) as [|r0 G] eqn:HG; [done|]. exfalso.
             apply Hnin, IHk. exists r0.
             assert (r0 ∈ filter (λ r0, mem_key r0 = mem_key r) rows) as Hr0
               by (rewrite HG; left).
             by apply list_elem_of_filter in Hr0 as [? ?]. }
           done.
Qed.

Lemma filter_none {A} (P : A → Prop) `{∀ x, Decision (P x)} (l : list A) :
  (∀ x, x ∈ l → ¬ P x) → filter P l = [].
Proof.
  intros Hl. destruct (filter P l) as [|x l'] eqn:Hf; [done|]. exfalso.
  assert (x ∈ filter P l) as Hx by (rewrite Hf; left).
  apply list_elem_of_filter in Hx as [HP Hx]. by apply (Hl x).
Qed.

(** C3, as stated, fails for the per-direction summary: in [two_rates]
    the direction HtoD moves 8 bytes in 5 ns of device time, and the line
    reports (4/1 + 4/4) / 2 = 5/2, which is neither 8 bytes over 5e-9
    seconds nor that value in GB/s (8/5). *)
Lemma direction_bw_is_not_bytes_over_time :
  ¬ (∀ line, line ∈ summary_of (analyze Traces.two_rates None None) →
       ds_bw line =
         (of_int (ds_bytes line) / (of_int (ds_gpu_dma line) / f1e9))%Qc ∨
       ds_bw line = gbps (ds_bytes line) (ds_gpu_dma line)).
Proof.
  intros H.
  assert (∃ line, line ∈ summary_of (analyze Traces.two_rates None None) ∧
                  ds_bytes line = 8 ∧ ds_gpu_dma line = 5 ∧
                  this (ds_bw line) = (5 # 2)%Q) as (l & Hl & Hb & Hd & Hbw).
  { eexists. split; [vm_compute; apply list_elem_of_here|]. by repeat split. }
  destruct (H l Hl) as [He|He]; rewrite Hb, Hd in He;
    apply (f_equal this) in He; rewrite Hbw in He; vm_compute in He;
    discriminate.
Qed.

(** C3, amended.  In the memory type breakdown, a group's bandwidth is its
    total bytes over its total device-active time (bytes per nanosecond,
    that is GB/s) when that time is positive, and 0 otherwise.  In the
    per-direction summary (whose bandwidth is the mean of C10), the
    bandwidth is 0 whenever the group's device-active time is 0, for a
    trace whose copies end no earlier than they start.  The bandwidth of a
    single record is 0 when its device-active time is 0. *)
Theorem rollup_bandwidth db start_ms end_ms :
  (∀ key m v, (key, m, v) ∈ breakdown_of (analyze db start_ms end_ms) →
     ∃ where_ G,
       analyze_where (Origin.t0 db) start_ms end_ms = Some where_ ∧
       G = filter (λ r, mem_key r = key) (E2E_QUERY db where_) ∧
       ms_bytes m = zsum (bytes <$> G) ∧
       ms_gpu_dma m = zsum (gpu_dma_ns <$> G) ∧
       (0 < ms_gpu_dma m →
          v = (of_int (ms_bytes m) / of_int (ms_gpu_dma m))%Qc) ∧
       (ms_gpu_dma m ≤ 0 → v = Q2Qc 0)) ∧
  ((∀ m, m ∈ memcpys db → m_start m ≤ m_end m) →
   ∀ line, line ∈ summary_of (analyze db start_ms end_ms) →
           ds_gpu_dma line = 0 → ds_bw line = Q2Qc 0) ∧
  (∀ c, c ∈ csv_of (analyze db start_ms end_ms) →
        gpu_dma_ns_ c = 0 → dma_bw_gbps c = Q2Qc 0).
Proof.
  destruct (analyze db start_ms end_ms) as [[rep|]|] eqn:Ha; simpl;
    [|split; [by intros ??? ?%elem_of_nil |
              split; [by intros ?? ?%elem_of_nil | by intros ? ?%elem_of_nil]]..].
  apply analyze_report in Ha as (w & Hwhere & Hsum & Hbr & Hcsv).
  rewrite Hsum, Hbr, Hcsv. split; [|split].
  - intros key m v Hin. unfold mem_breakdown in Hin.
    apply list_elem_of_fmap in Hin as ([k' m'] & [= <- <- ->] & Hin).
    unfold sort_by_desc in Hin. rewrite elem_of_sort_by in Hin.
    destruct (mem_stats_spec (E2E_QUERY db w)) as (_ & _ & Hspec).
    destruct (Hspec _ _ Hin) as (_ & Hb & Hd).
    exists w, (filter (λ r, mem_key r = key) (E2E_QUERY db w)).
    repeat split; try done; unfold mem_bw; simpl; intros Hpos.
    + rewrite decide_True by done. apply gbps_ratio. lia.
    + rewrite decide_False by lia. done.
  - intros Hwf line Hline Hzero.
    apply direction_summary_line in Hline
      as (G & HG & _ & _ & _ & _ & _ & Hd & _ & _ & Hbw).
    destruct (accumulate_all G) as (_ & _ & _ & Ad & _ & _ & _ & Abw).
    rewrite Hbw, Abw. rewrite Hd, Ad in Hzero.
    assert (∀ r, r ∈ G → 0 ≤ gpu_dma_ns r) as Hnn.
    { intros r Hr. rewrite HG in Hr. apply list_elem_of_filter in Hr as [_ Hr].
      apply elem_of_E2E_QUERY in Hr as (m & r' & Hm & _ & _ & _ & ->).
      simpl. specialize (Hwf m Hm). lia. }
    destruct (zsum_nonneg (gpu_dma_ns <$> G)) as [_ Hall].
    { intros x (r & -> & Hr)%list_elem_of_fmap. by apply Hnn. }
    rewrite filter_none; [done|].
    intros r Hr [Hpos _].
    assert (gpu_dma_ns r = 0); [|lia].
    apply Hall; [done|]. apply list_elem_of_fmap. by exists r.
  - intros c (row & -> & _)%list_elem_of_fmap. simpl. intros Hz.
    unfold dma_bw. rewrite decide_False by lia. done.
Qed.

Lemma rollup_bandwidth_witness :
  (∃ key m v,
     (key, m, v) ∈ breakdown_of (analyze Traces.two_rates None None) ∧
     ms_bytes m = 8 ∧ ms_gpu_dma m = 5 ∧ v = (of_int 8 / of_int 5)%Qc) ∧
  (∃ line, line ∈ summary_of (analyze Traces.instant_copy None None) ∧
           ds_gpu_dma line = 0 ∧ ds_bw line = Q2Qc 0).
Proof.
  split.
  - destruct (rollup_bandwidth Traces.two_rates None None) as (Ha & _ & _).
    eexists _, _, _. split; [vm_compute; apply list_elem_of_here|].
    match goal with |- ms_bytes ?m = _ ∧ _ ∧ ?v = _ =>
      destruct (Ha _ m v (list_elem_of_here _ _))
        as (rows & G & _ & _ & _ & _ & Hv & _)
    end.
    split; [reflexivity|]. split; [reflexivity|]. apply Hv. reflexivity.
  - destruct (rollup_bandwidth Traces.instant_copy None None) as (_ & Hb & _).
    eexists. split; [vm_compute; apply list_elem_of_here|].
    split; [reflexivity|]. apply Hb.
    + intros m Hm. apply list_elem_of_singleton in Hm as ->. vm_compute.
      discriminate.
    + vm_compute. apply list_elem_of_here.
    + reflexivity.
Defined.

End SummaryFacts.

(** ** Trace origin *)

Section OriginFacts.

Lemma sql_min_cons_Some (x : Z) (l : list Z) : ∃ t, sql_min (x :: l) = Some t.
Proof. simpl. destruct (sql_min l); eauto. Qed.

(** C9, as stated, fails for analyze_memcpy and dump_window_csv: in
    [copy_first] the first kernel starts at 100 and a copy at 50; the
    origin is 100, above the start of that copy (and of its API call). *)
Lemma origin_above_first_copy :
  ¬ (∀ t, Origin.t0 Traces.copy_first = Some t →
          t ∈ Origin.all_starts Traces.copy_first ∧
          ∀ x, x ∈ Origin.all_starts Traces.copy_first → t ≤ x).
Proof.
  intros H. destruct (H 100 eq_refl) as [_ Hmin].
  assert (50 ∈ Origin.all_starts Traces.copy_first) as H50
    by (vm_compute; right; left).
  specialize (Hmin 50 H50). lia.
Qed.

(** C9, amended.  In analyze_memcpy, dump_window_csv and the plot scripts
    the origin is the minimum start over the kernels when the trace has a
    kernel, otherwise the minimum start over the memcpys, otherwise None;
    a window of analyze is placed from that one value.  In
    visualize_nsys_trace the origin is the minimum start over the kernels
    and memcpys together.  The two are the same value when no memcpy
    starts before the first kernel. *)
Theorem trace_origin db :
  (kernels db ≠ [] →
     ∃ t, Origin.t0 db = Some t ∧ t ∈ k_start <$> kernels db ∧
          ∀ x, x ∈ k_start <$> kernels db → t ≤ x) ∧
  (kernels db = [] → memcpys db ≠ [] →
     ∃ t, Origin.t0 db = Some t ∧ t ∈ m_start <$> memcpys db ∧
          ∀ x, x ∈ m_start <$> memcpys db → t ≤ x) ∧
  (kernels db = [] → memcpys db = [] → Origin.t0 db = None) ∧
  (∀ s e w, Correlator.analyze_where (Origin.t0 db) (Some s) (Some e) = Some w →
     ∃ t, Origin.t0 db = Some t ∧
          ∀ m, w m = true ↔
               t + py_int (s * f1e6)%Qc ≤ m_start m ≤ t + py_int (e * f1e6)%Qc) ∧
  (Origin.device_starts db ≠ [] →
     Origin.t0_query_events db ∈ Origin.device_starts db ∧
     ∀ x, x ∈ Origin.device_starts db → Origin.t0_query_events db ≤ x) ∧
  (∀ t, Origin.t0 db = Some t →
        (∀ m, m ∈ memcpys db → t ≤ m_start m) →
        Origin.t0_query_events db = t).
Proof.
  assert (Hq : Origin.device_starts db ≠ [] →
          sql_min (Origin.device_starts db) = Some (Origin.t0_query_events db)).
  { intros Hne.
    assert (Origin.t0_query_events db =
            default 0 (sql_min (Origin.device_starts db))) as ->.
    { unfold Origin.t0_query_events, Origin.device_starts, Origin.py_min.
      destruct (kernels db), (memcpys db); done. }
    destruct (sql_min (Origin.device_starts db)) eqn:E; [done|].
    by apply sql_min_None in E. }
  unfold Origin.t0. repeat split.
  - intros Hk. destruct (kernels db) as [|k ks] eqn:Hks; [done|].
    destruct (sql_min_cons_Some (k_start k) (k_start <$> ks)) as [t Ht].
    rewrite fmap_cons, Ht. exists t. split; [done|]. by apply sql_min_Some.
  - intros -> Hm. simpl. destruct (memcpys db) as [|m ms] eqn:Hms; [done|].
    destruct (sql_min_cons_Some (m_start m) (m_start <$> ms)) as [t Ht].
    rewrite fmap_cons, Ht. exists t. split; [done|]. by apply sql_min_Some.
  - intros -> ->. done.
  - intros s e w Hw. unfold Correlator.analyze_where, Origin.bound in Hw.
    destruct (match sql_min (k_start <$> kernels db) with
              | Some t => Some t
              | None => sql_min (m_start <$> memcpys db)
              end) as [t|]; [|done].
    simpl in Hw. simplify_eq. exists t. split; [done|]. intros m.
    rewrite andb_true_iff, !bool_decide_eq_true. done.
  - apply sql_min_Some. auto.
  - intros x Hx. specialize (Hq H). apply sql_min_Some in Hq as [_ Hq]. auto.
  - intros t Ht Hle.
    assert (t ∈ Origin.device_starts db ∧
            ∀ x, x ∈ Origin.device_starts db → t ≤ x) as Hmin.
    { unfold Origin.device_starts.
      destruct (sql_min (k_start <$> kernels db)) as [tk|] eqn:Hk.
      - simplify_eq. apply sql_min_Some in Hk as [Hin Hlb]. split.
        + apply elem_of_app. by left.
        + intros x [Hx|Hx]%elem_of_app; [by apply Hlb|].
          apply list_elem_of_fmap in Hx as (m & -> & Hm). by apply Hle.
      - apply sql_min_None in Hk. rewrite Hk. simpl.
        by apply sql_min_Some. }
    apply sql_min_Some in Hmin.
    assert (Origin.device_starts db ≠ []) as Hne
      by (intros Hnil; rewrite Hnil in Hmin; done).
    rewrite (Hq Hne) in Hmin. by simplify_eq.
Qed.

Lemma trace_origin_witness :
  Origin.t0 Traces.scenario = Some 0 ∧
  Origin.t0_query_events Traces.scenario = 0.
Proof.
  destruct (trace_origin Traces.scenario) as (Hk & _ & _ & _ & _ & Hagree).
  destruct Hk as (t & Ht & _); [discriminate|].
  split; [reflexivity|]. apply Hagree; [reflexivity|].
  intros m Hm. apply list_elem_of_singleton in Hm as ->. vm_compute.
  discriminate.
Defined.

End OriginFacts.

(** ** Aggregator *)

Section GroupbyFacts.
Import Aggregator.

Lemma key_lt_irrefl (a : Key) : ¬ key_lt a a.
Proof. unfold key_lt. lia. Qed.

Lemma key_lt_trans (a b c : Key) : key_lt a b → key_lt b c → key_lt a c.
Proof. unfold key_lt. lia. Qed.

Lemma key_lt_total (a b : Key) : a ≠ b → ¬ key_lt a b → key_lt b a.
Proof.
  destruct a as [a1 a2], b as [b1 b2]. unfold key_lt. simpl. intros Hne Hn.
  assert (a1 ≠ b1 ∨ a2 ≠ b2) by (destruct (decide (a1 = b1)); [right|left]; congruence).
  lia.
Qed.

(** Two strictly ascending key lists with the same elements are equal. *)
Lemma sorted_keys_eq (k1 k2 : list Key) :
  StronglySorted key_lt k1 → StronglySorted key_lt k2 →
  (∀ x, x ∈ k1 ↔ x ∈ k2) → k1 = k2.
Proof.
  intros H1. revert k2. induction H1 as [|a k1 Hs1 IH Ha]; intros k2 H2 Heq.
  - destruct k2 as [|b k2]; [done|]. exfalso.
    eapply not_elem_of_nil, Heq. left.
  - destruct H2 as [|b k2 Hs2 Hb].
    + exfalso. eapply not_elem_of_nil, Heq. left.
    + rewrite Forall_forall in Ha, Hb.
      assert (a = b) as ->.
      { assert (a ∈ b :: k2) as [->|Hin]%elem_of_cons by (apply Heq; left); [done|].
        assert (b ∈ a :: k1) as [->|Hin']%elem_of_cons by (apply Heq; left); [done|].
        exfalso. apply (key_lt_irrefl a).
        eapply key_lt_trans; [by apply Ha | by apply Hb]. }
      f_equal. apply IH; [done|]. intros x. split; intros Hx.
      * assert (x ∈ b :: k2) as [->|?]%elem_of_cons by (apply Heq; by right);
          [|done].
        exfalso. by apply (key_lt_irrefl b), Ha.
      * assert (x ∈ b :: k1) as [->|?]%elem_of_cons by (apply Heq; by right);
          [|done].
        exfalso. by apply (key_lt_irrefl b), Hb.
Qed.


Lemma group_insert_keys k r gs x :
  x ∈ (group_insert k r gs).*1 ↔ x = k ∨ x ∈ gs.*1.
Proof.
  induction gs as [|[k' ms] gs IH]; cbn [group_insert].
  - rewrite fmap_cons. cbn. rewrite list_elem_of_singleton, elem_of_nil. tauto.
  - destruct (decide (k = k')) as [->|Hne]; [|destruct (decide (key_lt k k'))];
      rewrite !fmap_cons; cbn [fst]; rewrite !elem_of_cons.
    + tauto.
    + tauto.
    + rewrite IH. tauto.
Qed.

Lemma group_insert_sorted k r gs :
  StronglySorted key_lt gs.*1 → StronglySorted key_lt (group_insert k r gs).*1.
Proof.
  induction gs as [|[k' ms] gs IH]; cbn [group_insert]; intros Hs.
  - repeat constructor.
  - rewrite fmap_cons in Hs. cbn [fst] in Hs.
    apply StronglySorted_inv in Hs as [Hs Hall].
    destruct (decide (k = k')) as [->|Hne]; [|destruct (decide (key_lt k k'))];
      rewrite !fmap_cons; cbn [fst].
    + by constructor.
    + constructor; [by constructor|]. constructor; [done|].
      eapply Forall_impl; [exact Hall|]. intros y Hy. by eapply key_lt_trans.
    + constructor; [by apply IH|]. apply Forall_forall. intros y Hy.
      apply group_insert_keys in Hy as [->|Hy].
      * by apply key_lt_total.
      * rewrite Forall_forall in Hall. by apply Hall.
Qed.

Lemma group_insert_elem k r gs k' ms' :
  StronglySorted key_lt gs.*1 →
  (k', ms') ∈ group_insert k r gs →
  (k' ≠ k ∧ (k', ms') ∈ gs) ∨
  (k' = k ∧ ((∃ ms, (k, ms) ∈ gs ∧ ms' = ms ++ [r]) ∨
             ((k ∉ gs.*1) ∧ ms' = [r]))).
Proof.
  induction gs as [|[k0 ms0] gs IH]; cbn [group_insert]; intros Hs Hin.
  - apply list_elem_of_singleton in Hin. simplify_eq. right. split; [done|].
    right. split; [apply not_elem_of_nil | done].
  - rewrite fmap_cons in Hs. cbn [fst] in Hs.
    apply StronglySorted_inv in Hs as [Hs Hall].
    rewrite Forall_forall in Hall.
    destruct (decide (k = k0)) as [->|Hne]; [|destruct (decide (key_lt k k0)) as [Hlt|Hnlt]].
    + apply elem_of_cons in Hin as [Heq|Hin].
      * simplify_eq. right. split; [done|]. left. exists ms0. split; [left|done].
      * left. split; [|by right]. intros ->. apply (key_lt_irrefl k0), Hall.
        apply list_elem_of_fmap. by exists (k0, ms').
    + apply elem_of_cons in Hin as [Heq|Hin].
      * simplify_eq. right. split; [done|]. right. split; [|done].
        rewrite fmap_cons. cbn [fst].
        intros [->|Hk]%elem_of_cons; [done|].
        apply (key_lt_irrefl k). eapply key_lt_trans; [exact Hlt|]. by apply Hall.
      * left. split; [|done]. intros ->.
        apply elem_of_cons in Hin as [Heq|Hin]; [by simplify_eq|].
        apply (key_lt_irrefl k). eapply key_lt_trans; [exact Hlt|]. apply Hall.
        apply list_elem_of_fmap. by exists (k, ms').
    + apply elem_of_cons in Hin as [Heq|Hin].
      * simplify_eq. left. split; [done | left].
      * destruct (IH Hs Hin) as [[Hk Hin']|(-> & Hcase)].
        -- left. split; [done | by right].
        -- right. split; [done|]. destruct Hcase as [(ms & Hms & ->)|[Hnin ->]].
           ++ left. exists ms. split; [by right | done].
           ++ right. split; [|done]. rewrite fmap_cons. cbn [fst].
              intros [?|?]%elem_of_cons; [congruence | done].
Qed.

(** [groupby]: the groups are in strictly ascending key order, there is
    one for each key that occurs, and it holds the rows of that key in
    their order. *)
Lemma groupby_spec (keyf : Row → Key) (rows : list Row) :
  StronglySorted key_lt (groupby keyf rows).*1 ∧
  (∀ k, k ∈ (groupby keyf rows).*1 ↔ ∃ r, r ∈ rows ∧ keyf r = k) ∧
  ∀ k ms, (k, ms) ∈ groupby keyf rows →
          ms = filter (λ r, keyf r = k) rows ∧ ms ≠ [].
Proof.
  unfold groupby.
  induction rows as [|r rows (IHs & IHk & IH)] using rev_ind.
  - split; [constructor|]. split.
    + intros k. split; [by intros ?%elem_of_nil|].
      by intros (r & ?%elem_of_nil & _).
    + by intros k m ?%elem_of_nil.
  - rewrite foldl_app. cbn [foldl].
    set (gs := foldl (λ gs r, group_insert (keyf r) r gs) [] rows) in *.
    split; [by apply group_insert_sorted|]. split.
    + intros k. rewrite group_insert_keys, IHk. split.
      * intros [->|(r' & Hr' & <-)].
        -- exists r. split; [apply elem_of_app; right; left | done].
        -- exists r'. split; [apply elem_of_app; by left | done].
      * intros (r' & [Hr'| ->%list_elem_of_singleton]%elem_of_app & <-); eauto.
    + intros k ms' Hin. rewrite filter_app, filter_cons, filter_nil.
      apply group_insert_elem in Hin as [[Hne Hin]|(-> & Hcase)]; [| |done].
      * rewrite decide_False by congruence. rewrite app_nil_r. by apply IH.
      * rewrite decide_True by done.
        destruct Hcase as [(ms & Hms & ->)|[Hnin ->]].
        -- destruct (IH _ _ Hms) as [<- _]. split; [done|].
           intros [_ ?]%app_eq_nil. done.
        -- rewrite filter_none; [done|].
           intros r' Hr' Hkey. apply Hnin, IHk. eauto.
Qed.

End GroupbyFacts.

Section ColumnFacts.
Import Aggregator.

Lemma foldl_fmin_spec (l : list Qc) (x : Qc) :
  foldl fmin x l ∈ x :: l ∧ ∀ y, y ∈ x :: l → (foldl fmin x l ≤ y)%Qc.
Proof.
  revert x. induction l as [|z l IH]; intros x; simpl.
  - split; [left|]. intros y ->%list_elem_of_singleton. apply Qcle_refl.
  - destruct (IH (fmin x z)) as [Hin Hle]. unfold fmin in *.
    case_decide as Hxz.
    + split.
      * apply elem_of_cons in Hin as [->|Hin]; [left | right; by right].
      * intros y [->|[->|Hy]%elem_of_cons]%elem_of_cons.
        -- apply Hle. left.
        -- eapply Qcle_trans; [apply Hle; left | done].
        -- apply Hle. by right.
    + split; [by right|].
      intros y [->|Hy]%elem_of_cons; [|by apply Hle].
      eapply Qcle_trans; [apply Hle; left|].
      apply Qclt_le_weak. by apply Qcnot_le_lt.
Qed.

Lemma foldl_fmax_spec (l : list Qc) (x : Qc) :
  foldl fmax x l ∈ x :: l ∧ ∀ y, y ∈ x :: l → (y ≤ foldl fmax x l)%Qc.
Proof.
  revert x. induction l as [|z l IH]; intros x; simpl.
  - split; [left|]. intros y ->%list_elem_of_singleton. apply Qcle_refl.
  - destruct (IH (fmax x z)) as [Hin Hle]. unfold fmax in *.
    case_decide as Hxz.
    + split; [by right|].
      intros y [->|Hy]%elem_of_cons; [|by apply Hle].
      eapply Qcle_trans; [exact Hxz | apply Hle; left].
    + split.
      * apply elem_of_cons in Hin as [->|Hin]; [left | right; by right].
      * intros y [->|[->|Hy]%elem_of_cons]%elem_of_cons.
        -- apply Hle. left.
        -- eapply Qcle_trans; [|apply Hle; left].
           apply Qclt_le_weak. by apply Qcnot_le_lt.
        -- apply Hle. by right.
Qed.

(** ["min"] and ["max"] of a column: attained, and a bound. *)
Lemma col_min_spec (l : list Qc) (m : Qc) :
  col_min l = Some m ↔ m ∈ l ∧ ∀ y, y ∈ l → (m ≤ y)%Qc.
Proof.
  destruct l as [|x l]; simpl.
  - split; [done | by intros [?%elem_of_nil _]].
  - destruct (foldl_fmin_spec l x) as [Hin Hle]. split.
    + by intros [= <-].
    + intros [Hm Hmin]. f_equal. apply Qcle_antisym; auto.
Qed.

Lemma col_max_spec (l : list Qc) (m : Qc) :
  col_max l = Some m ↔ m ∈ l ∧ ∀ y, y ∈ l → (y ≤ m)%Qc.
Proof.
  destruct l as [|x l]; simpl.
  - split; [done | by intros [?%elem_of_nil _]].
  - destruct (foldl_fmax_spec l x) as [Hin Hle]. split.
    + by intros [= <-].
    + intros [Hm Hmax]. f_equal. apply Qcle_antisym; auto.
Qed.

Lemma col_min_is_Some (l : list Qc) : l ≠ [] → is_Some (col_min l).
Proof. destruct l; [done | by eexists]. Qed.

Lemma col_max_is_Some (l : list Qc) : l ≠ [] → is_Some (col_max l).
Proof. destruct l; [done | by eexists]. Qed.

(** A column and a permutation of it have the same minimum and maximum. *)
Lemma col_min_perm (l l' : list Qc) : l ≡ₚ l' → col_min l = col_min l'.
Proof.
  intros Hp. destruct (col_min l) as [m|] eqn:Hm.
  - symmetry. apply col_min_spec. apply col_min_spec in Hm as [Hin Hle].
    split; [by rewrite <- Hp|]. intros y Hy. apply Hle. by rewrite Hp.
  - destruct l; [|done]. by apply Permutation_nil in Hp as ->.
Qed.

Lemma col_max_perm (l l' : list Qc) : l ≡ₚ l' → col_max l = col_max l'.
Proof.
  intros Hp. destruct (col_max l) as [m|] eqn:Hm.
  - symmetry. apply col_max_spec. apply col_max_spec in Hm as [Hin Hle].
    split; [by rewrite <- Hp|]. intros y Hy. apply Hle. by rewrite Hp.
  - destruct l; [|done]. by apply Permutation_nil in Hp as ->.
Qed.

End ColumnFacts.

Section SortHeadFacts.
Context {A : Type} (key : A → Z).

Lemma insert_by_head (x : A) (l : list A) :
  head (insert_by key x l) =
  match head l with
  | None => Some x
  | Some p => if decide (key x ≤ key p) then Some x else Some p
  end.
Proof. destruct l as [|y l]; simpl; [done|]. by case_decide. Qed.

(** The head of a stable sort: the first element of the least key. *)
Lemma sort_by_head (l : list A) (p : A) :
  head (sort_by key l) = Some p →
  ∃ l1 l2, l = l1 ++ p :: l2 ∧
           (∀ q, q ∈ l1 → key p < key q) ∧ (∀ q, q ∈ l2 → key p ≤ key q).
Proof.
  revert p. induction l as [|x l IH]; intros p; simpl; [done|].
  rewrite insert_by_head. destruct (head (sort_by key l)) as [p'|] eqn:Hh.
  - destruct (IH p' eq_refl) as (l1 & l2 & -> & H1 & H2).
    case_decide as Hle; intros [= <-].
    + exists [], (l1 ++ p' :: l2). split; [done|].
      split; [by intros q ?%elem_of_nil|].
      intros q [Hq|[->|Hq]%elem_of_cons]%elem_of_app.
      * specialize (H1 q Hq). lia.
      * done.
      * specialize (H2 q Hq). lia.
    + exists (x :: l1), l2. split; [done|]. split; [|done].
      intros q [->|Hq]%elem_of_cons; [lia | by apply H1].
  - intros [= <-]. destruct l as [|y l].
    + exists [], []. split; [done|]. split; by intros q ?%elem_of_nil.
    + exfalso. simpl in Hh. rewrite insert_by_head in Hh.
      destruct (head (sort_by key l)); [case_decide|]; done.
Qed.

Lemma sort_by_head_is_Some (l : list A) : l ≠ [] → is_Some (head (sort_by key l)).
Proof.
  destruct l as [|x l]; [done|]. intros _. simpl. rewrite insert_by_head.
  destruct (head (sort_by key l)); [case_decide|]; by eexists.
Qed.

End SortHeadFacts.

Section ValueCountsFacts.
Import Aggregator.

Lemma occurrences_app y s1 s2 :
  occurrences y (s1 ++ s2) = (occurrences y s1 + occurrences y s2)%nat.
Proof. unfold occurrences. by rewrite filter_app, length_app. Qed.

Lemma occurrences_perm y s s' : s ≡ₚ s' → occurrences y s = occurrences y s'.
Proof. intros Hp. unfold occurrences. by rewrite Hp. Qed.

Lemma occurrences_pos y s : y ∈ s → (0 < occurrences y s)%nat.
Proof.
  intros Hy. unfold occurrences.
  destruct (filter (λ z, z = y) s) as [|z l] eqn:Hf; [|simpl; lia].
  assert (y ∈ filter (λ z, z = y) s) as Hin by (by apply list_elem_of_filter).
  rewrite Hf in Hin. by apply elem_of_nil in Hin.
Qed.

Lemma occurrences_zero y s : y ∉ s → occurrences y s = 0%nat.
Proof.
  intros Hy. unfold occurrences. rewrite filter_none; [done|].
  intros x Hx ->. done.
Qed.

Lemma count_add_keys x c :
  (count_add x c).*1 = if decide (x ∈ c.*1) then c.*1 else c.*1 ++ [x].
Proof.
  induction c as [|[y n] c IH].
  - by rewrite decide_False by apply not_elem_of_nil.
  - cbn [count_add]. rewrite !fmap_cons. cbn [fst].
    destruct (decide (x = y)) as [->|Hne].
    + rewrite decide_True by left. done.
    + rewrite fmap_cons, IH. cbn [fst].
      destruct (decide (x ∈ c.*1)) as [Hin|Hnin].
      * rewrite decide_True by (by right). done.
      * rewrite decide_False; [done|].
        intros [?|?]%elem_of_cons; [congruence | done].
Qed.

Lemma count_add_elem x c y n' :
  NoDup c.*1 →
  (y, n') ∈ count_add x c →
  (y ≠ x ∧ (y, n') ∈ c) ∨
  (y = x ∧ ((∃ n, (x, n) ∈ c ∧ n' = S n) ∨ ((x ∉ c.*1) ∧ n' = 1%nat))).
Proof.
  induction c as [|[y0 n0] c IH]; cbn [count_add]; intros Hd Hin.
  - apply list_elem_of_singleton in Hin. simplify_eq. right. split; [done|].
    right. split; [apply not_elem_of_nil | done].
  - rewrite fmap_cons in Hd. cbn [fst] in Hd. apply NoDup_cons in Hd as [Hy0 Hd].
    destruct (decide (x = y0)) as [->|Hne].
    + apply elem_of_cons in Hin as [Heq|Hin].
      * simplify_eq. right. split; [done|]. left. exists n0. split; [left|done].
      * left. split; [|by right]. intros ->. apply Hy0.
        apply list_elem_of_fmap. by exists (y0, n').
    + apply elem_of_cons in Hin as [Heq|Hin].
      * simplify_eq. left. split; [done | left].
      * destruct (IH Hd Hin) as [[Hk Hin']|(-> & Hcase)].
        -- left. split; [done | by right].
        -- right. split; [done|]. destruct Hcase as [(n & Hn & ->)|[Hnin ->]].
           ++ left. exists n. split; [by right | done].
           ++ right. split; [|done]. rewrite fmap_cons. cbn [fst].
              intros [?|?]%elem_of_cons; [congruence | done].
Qed.

Lemma first_seen_counts_snoc s x :
  first_seen_counts (s ++ [x]) = count_add x (first_seen_counts s).
Proof. unfold first_seen_counts. by rewrite foldl_app. Qed.

(** The counts table has one entry per distinct label, with the number of
    its occurrences. *)
Lemma first_seen_counts_spec (s : list string) :
  NoDup (first_seen_counts s).*1 ∧
  (∀ x, x ∈ (first_seen_counts s).*1 ↔ x ∈ s) ∧
  ∀ y n, (y, n) ∈ first_seen_counts s → n = occurrences y s.
Proof.
  induction s as [|x s (IHn & IHk & IH)] using rev_ind.
  - split; [constructor|]. split; [done|]. by intros y n ?%elem_of_nil.
  - rewrite first_seen_counts_snoc. split; [|split].
    + rewrite count_add_keys. case_decide as Hin; [done|].
      apply NoDup_app. split; [done|]. split; [|apply NoDup_singleton].
      intros k Hk ->%list_elem_of_singleton. done.
    + intros y. rewrite count_add_keys, elem_of_app, list_elem_of_singleton.
      case_decide as Hin; [|rewrite elem_of_app, list_elem_of_singleton];
        rewrite IHk; [|tauto].
      split; [tauto|]. intros [?| ->]; [done|]. by apply IHk.
    + intros y n' Hin. rewrite occurrences_app.
      apply count_add_elem in Hin as [[Hne Hin]|(-> & Hcase)]; [| |done].
      * rewrite (IH _ _ Hin). unfold occurrences at 3.
        rewrite filter_cons, filter_nil, decide_False by done. simpl. lia.
      * unfold occurrences at 2.
        rewrite filter_cons, filter_nil, decide_True by done. simpl.
        destruct Hcase as [(n & Hn & ->)|[Hnin ->]].
        -- rewrite (IH _ _ Hn). lia.
        -- rewrite occurrences_zero; [done|]. by rewrite <- IHk.
Qed.

(** The entries are in the order in which the labels are first seen. *)
Lemma first_seen_order (s : list string) k1 top k2 :
  (first_seen_counts s).*1 = k1 ++ top :: k2 →
  ∃ pre post, s = pre ++ top :: post ∧ (top ∉ pre) ∧ ∀ y, y ∈ pre → y ∈ k1.
Proof.
  revert k2. induction s as [|x s IH] using rev_ind; intros k2 Hk.
  - by destruct k1.
  - rewrite first_seen_counts_snoc, count_add_keys in Hk.
    case_decide as Hin.
    + destruct (IH _ Hk) as (pre & post & -> & Hpre & Hall).
      exists pre, (post ++ [x]). by rewrite <- app_assoc.
    + destruct k2 as [|z k2 _] using rev_ind.
      * apply app_inj_tail in Hk as [Hk ->].
        destruct (first_seen_counts_spec s) as (_ & Hkeys & _).
        exists s, []. split; [done|]. split; [by rewrite <- Hkeys|].
        intros y Hy. rewrite <- Hk. by apply Hkeys.
      * replace (k1 ++ top :: k2 ++ [z]) with ((k1 ++ top :: k2) ++ [z]) in Hk
          by (by rewrite <- app_assoc).
        apply app_inj_tail in Hk as [Hk ->].
        destruct (IH _ Hk) as (pre & post & -> & Hpre & Hall).
        exists pre, (post ++ [z]). by rewrite <- app_assoc.
Qed.

(** [value_counts().index[0]]: the most frequent label, the first seen
    among the most frequent ones. *)
Lemma top_of_spec (s : list string) (top : string) :
  top_of s = Some top → most_frequent_first_seen top s.
Proof.
  unfold top_of, value_counts, sort_by_desc.
  destruct (head _) as [[t n]|] eqn:Hh; [|done]. intros [= <-].
  apply sort_by_head in Hh as (c1 & c2 & Hc & H1 & H2).
  destruct (first_seen_counts_spec s) as (Hnd & Hkeys & Hcnt).
  assert (n = occurrences t s) as Hn
    by (apply Hcnt; rewrite Hc; apply elem_of_app; right; left).
  destruct (first_seen_order s (c1.*1) t (c2.*1)) as (pre & post & Hs & Hpre & Hall).
  { by rewrite Hc, fmap_app, fmap_cons. }
  exists pre, post. split; [done|]. split; [done|]. split.
  - intros y. destruct (decide (y ∈ s)) as [Hy|Hy];
      [|rewrite (occurrences_zero y s Hy); lia].
    apply Hkeys, list_elem_of_fmap in Hy as ([y' m] & -> & Hin).
    pose proof (Hcnt _ _ Hin) as Hm. simpl in *. rewrite Hc in Hin.
    apply elem_of_app in Hin as [Hin|[Heq|Hin]%elem_of_cons].
    + specialize (H1 _ Hin). simpl in H1. lia.
    + simplify_eq. lia.
    + specialize (H2 _ Hin). simpl in H2. lia.
  - intros y Hy. apply Hall, list_elem_of_fmap in Hy as ([y' m] & -> & Hin).
    assert ((y', m) ∈ first_seen_counts s) as Hin'
      by (rewrite Hc; apply elem_of_app; by left).
    pose proof (Hcnt _ _ Hin') as Hm. specialize (H1 _ Hin). simpl in *. lia.
Qed.

Lemma top_of_is_Some (s : list string) : s ≠ [] → is_Some (top_of s).
Proof.
  intros Hs. unfold top_of, value_counts, sort_by_desc.
  destruct (sort_by_head_is_Some (λ p : string * nat, - Z.of_nat p.2)
              (first_seen_counts s)) as [p Hp].
  - destruct (first_seen_counts_spec s) as (_ & Hkeys & _).
    destruct s as [|x s]; [done|]. intros Hnil.
    assert (x ∈ (first_seen_counts (x :: s)).*1) as Hx by (apply Hkeys; left).
    rewrite Hnil in Hx. by apply elem_of_nil in Hx.
  - rewrite Hp. by eexists.
Qed.

(** With a single most frequent label, the order of the column does not
    matter. *)
Lemma top_of_perm_unique (s s' : list string) (top : string) :
  s ≡ₚ s' → top_of s = Some top →
  (∀ y, y ≠ top → (occurrences y s < occurrences top s)%nat) →
  top_of s' = Some top.
Proof.
  intros Hp Ht Huniq.
  destruct (top_of_is_Some s') as [top' Ht'].
  { intros ->. apply Permutation_nil_r in Hp as ->. done. }
  rewrite Ht'. f_equal.
  apply top_of_spec in Ht' as (_ & _ & _ & _ & Hmax & _).
  destruct (decide (top' = top)) as [|Hne]; [done|]. exfalso.
  specialize (Huniq top' Hne). specialize (Hmax top).
  rewrite <- !(occurrences_perm _ s s' Hp) in Hmax. lia.
Qed.

End ValueCountsFacts.

(** ** Binary64 rounding *)

Section Bridge.

Lemma this_plus (x y : Qc) : (this (x + y)%Qc == this x + this y)%Q.
Proof. unfold Qcplus. simpl. apply Qred_correct. Qed.
Lemma this_mult (x y : Qc) : (this (x * y)%Qc == this x * this y)%Q.
Proof. unfold Qcmult. simpl. apply Qred_correct. Qed.
Lemma this_opp (x : Qc) : (this (- x)%Qc == - this x)%Q.
Proof. unfold Qcopp. simpl. apply Qred_correct. Qed.
Lemma this_minus (x y : Qc) : (this (x - y)%Qc == this x - this y)%Q.
Proof. unfold Qcminus. rewrite this_plus, this_opp. reflexivity. Qed.
Lemma this_inv (x : Qc) : (this (/ x)%Qc == / this x)%Q.
Proof. unfold Qcinv. simpl. apply Qred_correct. Qed.
Lemma this_div (x y : Qc) : (this (x / y)%Qc == this x / this y)%Q.
Proof. unfold Qcdiv. rewrite this_mult, this_inv. reflexivity. Qed.
Lemma this_of_int (z : Z) : (this (of_int z) == inject_Z z)%Q.
Proof. unfold of_int. simpl. apply Qred_correct. Qed.
Lemma this_Q2Qc (q : Q) : (this (Q2Qc q) == q)%Q.
Proof. simpl. apply Qred_correct. Qed.
Lemma this_pow2 (e : Z) : (this (Binary64.pow2 e) == 2 ^ e)%Q.
Proof. unfold Binary64.pow2. apply this_Q2Qc. Qed.

End Bridge.

Ltac qc :=
  repeat match goal with
  | |- @eq Qc _ _ => apply Qc_is_canon
  | H : @eq Qc ?x ?y |- _ =>
      assert (this x == this y)%Q by (rewrite H; reflexivity); clear H
  end;
  unfold Qcle, Qclt in *;
  repeat first
    [ rewrite this_plus | rewrite this_mult | rewrite this_opp
    | rewrite this_minus | rewrite this_inv | rewrite this_div
    | rewrite this_of_int | rewrite this_pow2 | rewrite this_Q2Qc ];
  repeat match goal with
  | H : _ |- _ =>
      first
        [ rewrite this_plus in H | rewrite this_mult in H
        | rewrite this_opp in H | rewrite this_minus in H
        | rewrite this_inv in H | rewrite this_div in H
        | rewrite this_of_int in H | rewrite this_pow2 in H
        | rewrite this_Q2Qc in H ]
  end;
  change (inject_Z 1) with 1%Q in *; change (inject_Z 0) with 0%Q in *;
  change (this (Q2Qc 0)) with 0%Q in *.

Section Pow2.
Import Binary64.

Lemma Qpow2_pos (e : Z) : (0 < 2 ^ e)%Q.
Proof. apply Qpower_0_lt. reflexivity. Qed.

Lemma Qpow2_succ (e : Z) : (2 ^ (e + 1) == 2 * 2 ^ e)%Q.
Proof. rewrite Qpower_plus by discriminate. simpl (2 ^ 1)%Q. ring. Qed.

Lemma Qpow2_le (a b : Z) : a ≤ b → (2 ^ a <= 2 ^ b)%Q.
Proof. intros H. apply Qpower_le_compat_l; [done|]. discriminate. Qed.

Lemma Qpow2_lt (a b : Z) : a < b → (2 ^ a < 2 ^ b)%Q.
Proof.
  intros H. apply Qlt_le_trans with (2 ^ (a + 1))%Q.
  - rewrite Qpow2_succ. pose proof (Qpow2_pos a). lra.
  - apply Qpow2_le. lia.
Qed.

Lemma Qpow2_lt_inv (a b : Z) : (2 ^ a < 2 ^ b)%Q → a < b.
Proof.
  intros H. destruct (Z_lt_le_dec a b) as [?|Hle]; [done|].
  apply Qpow2_le in Hle. lra.
Qed.

Lemma Qpow2_Z (n : Z) : 0 ≤ n → (inject_Z (2 ^ n) == 2 ^ n)%Q.
Proof. intros H. by rewrite Zpower_Qpower. Qed.

End Pow2.

Section Ilog2.
Import Binary64.

Lemma Z_log2_Q (a : Z) :
  0 < a → (2 ^ Z.log2 a <= inject_Z a)%Q ∧ (inject_Z a < 2 * 2 ^ Z.log2 a)%Q.
Proof.
  intros Ha. destruct (Z.log2_spec a Ha) as [Hlo Hhi].
  pose proof (Z.log2_nonneg a) as Hnn.
  rewrite <- Qpow2_succ, <- !Qpow2_Z by lia.
  rewrite <- Zle_Qle, <- Zlt_Qlt. replace (Z.log2 a + 1) with (Z.succ (Z.log2 a)) by lia.
  done.
Qed.

Lemma ilog2_spec (q : Qc) :
  (Q2Qc 0 < q)%Qc → (pow2 (ilog2 q) ≤ q)%Qc ∧ (q < pow2 (ilog2 q + 1))%Qc.
Proof.
  intros Hq. unfold ilog2.
  set (k := Z.log2 (Qnum q) - Z.log2 (Z.pos (Qden q))).
  assert (Hk : (2 ^ (k - 1) < this q)%Q ∧ (this q < 2 ^ (k + 1))%Q).
  { assert (0 < Qnum q) as Hn.
    { unfold Qclt in Hq. simpl in Hq. unfold Qlt in Hq. simpl in Hq. lia. }
    destruct (Z_log2_Q _ Hn) as [Ha1 Ha2].
    destruct (Z_log2_Q (Z.pos (Qden q)) ltac:(done)) as [Hd1 Hd2].
    assert (Hqd : (this q * inject_Z (Z.pos (Qden q)) == inject_Z (Qnum q))%Q).
    { destruct (this q) as [a d]. unfold Qeq, Qmult, inject_Z. simpl. lia. }
    set (A := inject_Z (Qnum q)) in *. set (D := inject_Z (Z.pos (Qden q))) in *.
    assert (HK : (2 ^ k * 2 ^ Z.log2 (Z.pos (Qden q)) == 2 ^ Z.log2 (Qnum q))%Q).
    { rewrite <- Qpower_plus by discriminate. unfold k.
      replace (Z.log2 (Qnum q) - Z.log2 (Z.pos (Qden q)) +
               Z.log2 (Z.pos (Qden q))) with (Z.log2 (Qnum q)) by lia.
      reflexivity. }
    pose proof (Qpow2_pos k) as HKp.
    pose proof (Qpow2_pos (Z.log2 (Z.pos (Qden q)))) as HDp.
    assert (Hs : (2 ^ (k + 1) == 2 * 2 ^ k)%Q) by apply Qpow2_succ.
    assert (Hp : (2 * 2 ^ (k - 1) == 2 ^ k)%Q).
    { rewrite <- Qpow2_succ. by replace (k - 1 + 1) with k by lia. }
    set (K := (2 ^ k)%Q) in *. set (K1 := (2 ^ (k - 1))%Q) in *.
    set (K2 := (2 ^ (k + 1))%Q) in *.
    set (PD := (2 ^ Z.log2 (Z.pos (Qden q)))%Q) in *.
    set (PA := (2 ^ Z.log2 (Qnum q))%Q) in *. set (x := this q) in *.
    split.
    - destruct (Qlt_le_dec K1 x) as [?|Hle]; [done|]. exfalso.
      assert (x * D <= K1 * D)%Q by (apply Qmult_le_compat_r; lra).
      assert (K1 * D < K1 * (2 * PD))%Q by (apply Qmult_lt_l; lra).
      nra.
    - destruct (Qlt_le_dec x K2) as [?|Hle]; [done|]. exfalso.
      assert (K2 * D <= x * D)%Q by (apply Qmult_le_compat_r; lra).
      assert (K2 * PD <= K2 * D)%Q by (apply Qmult_le_l; lra).
      nra. }
  destruct Hk as [Hk1 Hk2]. case_decide as Hd.
  - split; [done|]. qc. done.
  - split.
    + qc. lra.
    + replace (k - 1 + 1) with k by lia. qc. lra.
Qed.

Lemma pow2_pos (e : Z) : (Q2Qc 0 < pow2 e)%Qc.
Proof. qc. apply Qpow2_pos. Qed.

Lemma pow2_le (a b : Z) : a ≤ b → (pow2 a ≤ pow2 b)%Qc.
Proof. intros H. qc. by apply Qpow2_le. Qed.

Lemma pow2_lt_inv (a b : Z) : (pow2 a < pow2 b)%Qc → a < b.
Proof. intros H. qc. by apply Qpow2_lt_inv. Qed.

Lemma pow2_add (a b : Z) : pow2 (a + b) = (pow2 a * pow2 b)%Qc.
Proof. qc. apply Qpower_plus. discriminate. Qed.

Lemma pow2_nonneg_Z (n : Z) : 0 ≤ n → pow2 n = of_int (2 ^ n).
Proof. intros H. qc. by rewrite Qpow2_Z. Qed.

Lemma ilog2_unique (q : Qc) (k : Z) :
  (pow2 k ≤ q)%Qc → (q < pow2 (k + 1))%Qc → ilog2 q = k.
Proof.
  intros Hlo Hhi.
  assert (Q2Qc 0 < q)%Qc as Hq
    by (eapply Qclt_le_trans; [apply pow2_pos | exact Hlo]).
  destruct (ilog2_spec q Hq) as [Hlo' Hhi'].
  assert (ilog2 q < k + 1).
  { apply pow2_lt_inv. eapply Qcle_lt_trans; [exact Hlo' | exact Hhi]. }
  assert (k < ilog2 q + 1).
  { apply pow2_lt_inv. eapply Qcle_lt_trans; [exact Hlo | exact Hhi']. }
  lia.
Qed.

Lemma ilog2_mono (x y : Qc) :
  (Q2Qc 0 < x)%Qc → (x ≤ y)%Qc → ilog2 x ≤ ilog2 y.
Proof.
  intros Hx Hxy.
  assert (Q2Qc 0 < y)%Qc as Hy by (eapply Qclt_le_trans; eauto).
  destruct (ilog2_spec x Hx) as [Hlo _]. destruct (ilog2_spec y Hy) as [_ Hhi].
  assert (ilog2 x < ilog2 y + 1); [|lia].
  apply pow2_lt_inv. eapply Qcle_lt_trans; [exact Hlo|].
  eapply Qcle_lt_trans; [exact Hxy | exact Hhi].
Qed.

End Ilog2.

Section Rne.
Import Binary64.

Lemma Qfloor_bounds (q : Qc) :
  (inject_Z (Qfloor q) <= this q)%Q ∧ (this q < inject_Z (Qfloor q) + 1)%Q.
Proof.
  split; [apply Qfloor_le|].
  pose proof (Qlt_floor q) as H. rewrite inject_Z_plus in H. exact H.
Qed.

(** [rne q] is the floor of [q] or the next integer, at distance at most
    one half of [q]. *)
Lemma rne_cases (q : Qc) :
  let f := Qfloor q in
  let r := (this q - inject_Z f)%Q in
  (rne q = f ∧ (r + r <= 1)%Q ∧ ((r + r == 1)%Q → Z.even f = true)) ∨
  (rne q = f + 1 ∧ (1 <= r + r)%Q ∧ ((r + r == 1)%Q → Z.even f = false)).
Proof.
  intros f r. unfold rne. fold f. subst r.
  destruct (decide (q - of_int f + (q - of_int f) < of_int 1)%Qc) as [H|H].
  - left. qc. split; [done|]. split; [lra|]. intros; lra.
  - destruct (decide (of_int 1 < q - of_int f + (q - of_int f))%Qc) as [H'|H'].
    + right. qc. split; [done|]. split; [lra|]. intros; lra.
    + qc. destruct (Z.even f) eqn:He.
      * left. split; [done|]. split; [lra | done].
      * right. split; [done|]. split; [lra | done].
Qed.

Lemma rne_error (q : Qc) :
  (2 * inject_Z (rne q) - 1 <= 2 * this q)%Q ∧
  (2 * this q <= 2 * inject_Z (rne q) + 1)%Q.
Proof.
  destruct (Qfloor_bounds q) as [Hlo Hhi].
  destruct (rne_cases q) as [(-> & H & _)|(-> & H & _)];
    rewrite ?inject_Z_plus; change (inject_Z 1) with 1%Q; simpl in *;
    split; lra.
Qed.

Lemma rne_int (n : Z) : rne (of_int n) = n.
Proof.
  assert (Qfloor (of_int n) = n) as Hf.
  { rewrite <- (Qfloor_Z n) at 2. apply Z.le_antisymm;
      apply Qfloor_resp_le; rewrite this_of_int; lra. }
  destruct (rne_cases (of_int n)) as [(-> & _)|(_ & H & _)]; [done|].
  rewrite Hf, this_of_int in H. lra.
Qed.

Lemma rne_mono (x y : Qc) : (x ≤ y)%Qc → rne x ≤ rne y.
Proof.
  intros Hxy. unfold Qcle in Hxy.
  pose proof (Qfloor_resp_le _ _ Hxy) as Hf.
  destruct (Qfloor_bounds x) as [Hx1 Hx2]. destruct (Qfloor_bounds y) as [Hy1 Hy2].
  destruct (rne_cases x) as [(-> & Hx & Hxe)|(-> & Hx & Hxe)];
    destruct (rne_cases y) as [(-> & Hy & Hye)|(-> & Hy & Hye)];
    simpl in *; try lia.
  destruct (Z.eq_dec (Qfloor x) (Qfloor y)) as [He|Hne]; [|lia].
  exfalso. rewrite He in *.
  assert (this x - inject_Z (Qfloor y) + (this x - inject_Z (Qfloor y)) == 1)%Q
    as H1 by lra.
  assert (this y - inject_Z (Qfloor y) + (this y - inject_Z (Qfloor y)) == 1)%Q
    as H2 by lra.
  specialize (Hxe H1). specialize (Hye H2). congruence.
Qed.

End Rne.

Section Round.
Import Binary64.

Lemma abs_pos (x : Qc) : (Q2Qc 0 ≤ x)%Qc → abs x = x.
Proof.
  intros H. unfold abs. rewrite decide_False; [done|].
  by apply Qcle_not_lt.
Qed.

Lemma round_0 : round (Q2Qc 0) = Q2Qc 0.
Proof. apply Qc_is_canon. by vm_compute. Qed.

Lemma round_nonneg (x : Qc) : (Q2Qc 0 ≤ x)%Qc → (Q2Qc 0 ≤ round x)%Qc.
Proof.
  intros Hx. unfold round.
  pose proof (pow2_pos (ulp_exp x)) as Hp.
  assert (0 ≤ rne (x / pow2 (ulp_exp x))) as Hr.
  { rewrite <- (rne_int 0). apply rne_mono. qc.
    apply Qle_shift_div_l; [lra|]. lra. }
  qc. apply Qmult_le_0_compat; [|lra]. rewrite Zle_Qle in Hr. done.
Qed.

(** A value that is a whole number of units in its last place is a
    binary64 number. *)
Lemma round_exact (x : Qc) (m : Z) :
  x = (of_int m * pow2 (ulp_exp x))%Qc → round x = x.
Proof.
  intros Hx. unfold round.
  assert (x / pow2 (ulp_exp x) = of_int m)%Qc as ->.
  { rewrite Hx at 1. pose proof (pow2_pos (ulp_exp x)) as Hp.
    qc. field. lra. }
  by rewrite rne_int.
Qed.

Lemma ulp_exp_small (x : Qc) :
  (Q2Qc 0 < x)%Qc → (x < pow2 53)%Qc → ulp_exp x ≤ 0.
Proof.
  intros H0 H. unfold ulp_exp. rewrite abs_pos by (by apply Qclt_le_weak).
  destruct (ilog2_spec x H0) as [Hlo _].
  assert (ilog2 x < 53); [|lia].
  apply pow2_lt_inv. eapply Qcle_lt_trans; eauto.
Qed.

(** The whole numbers up to 2^53 are binary64 numbers. *)
Lemma round_int (n : Z) : 0 ≤ n ≤ 2 ^ 53 → round (of_int n) = of_int n.
Proof.
  intros [H0 H53].
  destruct (Z.eq_dec n 0) as [->|Hn0]; [apply Qc_is_canon; by vm_compute|].
  destruct (Z.eq_dec n (2 ^ 53)) as [->|Hn53];
    [apply Qc_is_canon; by vm_compute|].
  assert (ulp_exp (of_int n) ≤ 0) as He.
  { apply ulp_exp_small.
    - qc. change 0%Q with (inject_Z 0). rewrite <- Zlt_Qlt. lia.
    - rewrite pow2_nonneg_Z by lia. qc. rewrite <- Zlt_Qlt. lia. }
  apply (round_exact _ (n * 2 ^ (- ulp_exp (of_int n)))).
  set (e := ulp_exp (of_int n)) in *.
  assert (pow2 e * pow2 (- e) = of_int 1)%Qc as Hinv.
  { rewrite <- pow2_add. replace (e + - e) with 0 by lia.
    apply Qc_is_canon. by vm_compute. }
  rewrite (pow2_nonneg_Z (- e)) in Hinv by lia.
  qc. rewrite inject_Z_mult. rewrite <- Qmult_assoc.
  rewrite (Qmult_comm (inject_Z (2 ^ (- e)))). rewrite H. ring.
Qed.

Lemma ulp_exp_mono (x y : Qc) :
  (Q2Qc 0 < x)%Qc → (x ≤ y)%Qc → ulp_exp x ≤ ulp_exp y.
Proof.
  intros Hx Hxy. unfold ulp_exp.
  assert (Q2Qc 0 < y)%Qc as Hy by (eapply Qclt_le_trans; eauto).
  rewrite !abs_pos by (by apply Qclt_le_weak).
  pose proof (ilog2_mono x y Hx Hxy). lia.
Qed.

(** Rounding is monotone. *)
Lemma round_mono (x y : Qc) :
  (Q2Qc 0 ≤ x)%Qc → (x ≤ y)%Qc → (round x ≤ round y)%Qc.
Proof.
  intros Hx Hxy.
  assert (Q2Qc 0 ≤ y)%Qc as Hy by (eapply Qcle_trans; eauto).
  destruct (Qcle_lt_or_eq _ _ Hx) as [Hx0|<-];
    [|rewrite round_0; by apply round_nonneg].
  assert (Q2Qc 0 < y)%Qc as Hy0 by (eapply Qclt_le_trans; eauto).
  pose proof (ulp_exp_mono x y Hx0 Hxy) as He.
  pose proof (pow2_pos (ulp_exp x)) as Hpx.
  pose proof (pow2_pos (ulp_exp y)) as Hpy.
  destruct (Z.eq_dec (ulp_exp x) (ulp_exp y)) as [Heq|Hne].
  - unfold round. rewrite <- Heq.
    assert (rne (x / pow2 (ulp_exp x)) ≤ rne (y / pow2 (ulp_exp x))) as Hr.
    { apply rne_mono. qc. apply Qmult_le_compat_r; [done|].
      apply Qlt_le_weak, Qinv_lt_0_compat. lra. }
    qc. apply Qmult_le_compat_r; [|lra]. by rewrite <- Zle_Qle.
  - assert (ulp_exp x + 1 ≤ ulp_exp y) as Hlt by lia.
    apply Qcle_trans with (pow2 (ulp_exp x + 53)).
    + (* round x ≤ 2^(ex+53) *)
      destruct (ilog2_spec x Hx0) as [_ Hhi].
      assert (ilog2 x + 1 ≤ ulp_exp x + 53) as Hle.
      { unfold ulp_exp. rewrite abs_pos by done. lia. }
      apply pow2_le in Hle.
      assert (x / pow2 (ulp_exp x) ≤ of_int (2 ^ 53))%Qc as Hq.
      { rewrite <- pow2_nonneg_Z by lia.
        assert (x ≤ pow2 53 * pow2 (ulp_exp x))%Qc as Hxp.
        { rewrite <- pow2_add, (Z.add_comm 53). apply Qclt_le_weak.
          eapply Qclt_le_trans; eauto. }
        qc. apply Qle_shift_div_r; [lra | exact Hxp]. }
      apply rne_mono in Hq. rewrite rne_int in Hq.
      unfold round.
      rewrite (Z.add_comm (ulp_exp x) 53), pow2_add, (pow2_nonneg_Z 53) by lia.
      qc. apply Qmult_le_compat_r; [|lra]. by rewrite <- Zle_Qle.
    + (* 2^(ex+53) ≤ 2^(ey+52) ≤ round y *)
      apply Qcle_trans with (pow2 (ulp_exp y + 52)); [apply pow2_le; lia|].
      assert (ulp_exp y = ilog2 y - 52) as Hey.
      { unfold ulp_exp in *. rewrite (abs_pos y) in * by done. lia. }
      destruct (ilog2_spec y Hy0) as [Hlo _].
      assert (of_int (2 ^ 52) ≤ y / pow2 (ulp_exp y))%Qc as Hq.
      { rewrite <- pow2_nonneg_Z by lia.
        assert (pow2 52 * pow2 (ulp_exp y) ≤ y)%Qc as Hyp.
        { rewrite <- pow2_add, (Z.add_comm 52).
          replace (ulp_exp y + 52) with (ilog2 y) by lia. done. }
        qc. apply Qle_shift_div_l; [lra | exact Hyp]. }
      apply rne_mono in Hq. rewrite rne_int in Hq.
      unfold round.
      rewrite (Z.add_comm (ulp_exp y) 52), pow2_add, (pow2_nonneg_Z 52) by lia.
      qc. apply Qmult_le_compat_r; [|lra]. by rewrite <- Zle_Qle.
Qed.

End Round.

Section RoundError.
Import Binary64.

(** In the normal range the relative error of rounding is at most 2^-53. *)
Lemma round_error (x : Qc) :
  (pow2 (-1022) ≤ x)%Qc →
  (x * (of_int 1 - pow2 (-53)) ≤ round x)%Qc ∧
  (round x ≤ x * (of_int 1 + pow2 (-53)))%Qc.
Proof.
  intros Hx.
  assert (Q2Qc 0 < x)%Qc as Hx0
    by (eapply Qclt_le_trans; [apply pow2_pos | exact Hx]).
  destruct (ilog2_spec x Hx0) as [Hlo Hhi].
  assert (-1022 ≤ ilog2 x) as Hl.
  { assert (-1022 < ilog2 x + 1); [|lia].
    apply pow2_lt_inv. eapply Qcle_lt_trans; eauto. }
  assert (ulp_exp x = ilog2 x - 52) as He.
  { unfold ulp_exp. rewrite abs_pos by (by apply Qclt_le_weak). lia. }
  unfold round. rewrite He.
  pose proof (pow2_pos (ilog2 x - 52)) as Hp.
  assert (pow2 (ilog2 x - 52) * of_int 2 ≤ x * (pow2 (-53) * of_int 4))%Qc
    as Hulp.
  { assert (pow2 (ilog2 x) = pow2 (ilog2 x - 52) * pow2 52)%Qc as Hsplit
      by (rewrite <- pow2_add; f_equal; lia).
    assert (pow2 52 * pow2 (-53) * of_int 2 = of_int 1)%Qc as Hc
      by (apply Qc_is_canon; by vm_compute).
    rewrite Hsplit in Hlo. clear Hsplit Hhi.
    qc. change (inject_Z 2) with 2%Q in *. change (inject_Z 4) with 4%Q in *.
    set (P := (2 ^ (ilog2 x - 52))%Q) in *. set (X := this x) in *.
    set (A := (2 ^ 52)%Q) in *. set (C := (2 ^ (-53))%Q) in *.
    assert (0 < C)%Q by apply Qpow2_pos.
    assert (P * A * (C * 2) <= X * (C * 2))%Q
      by (apply Qmult_le_compat_r; lra).
    assert (P * A * (C * 2) == P)%Q as HP.
    { transitivity (P * (A * C * 2))%Q; [ring|]. rewrite H. ring. }
    lra. }
  destruct (rne_error (x / pow2 (ilog2 x - 52))) as [Hr1 Hr2].
  set (R := inject_Z (rne (x / pow2 (ilog2 x - 52)))) in *.
  assert (this (x / pow2 (ilog2 x - 52)) * 2 ^ (ilog2 x - 52) == this x)%Q as HT.
  { rewrite this_div, this_pow2. field. qc. lra. }
  set (T := this (x / pow2 (ilog2 x - 52))) in *.
  qc. change (inject_Z 2) with 2%Q in *. change (inject_Z 4) with 4%Q in *.
  fold R. set (P := (2 ^ (ilog2 x - 52))%Q) in *. set (X := this x) in *.
  set (C := (2 ^ (-53))%Q) in *.
  assert ((2 * R - 1) * P <= 2 * T * P)%Q by (apply Qmult_le_compat_r; lra).
  assert (2 * T * P <= (2 * R + 1) * P)%Q by (apply Qmult_le_compat_r; lra).
  split; nra.
Qed.

End RoundError.

(** [Binary64.div] gives what the Standard Library's specification of
    IEEE 754 division gives in binary64 (53 bits, emax 1024), here on
    0.3 / 0.1, 1.0 / 0.1, 5.0 / 10.0 and 1.0 / 3.0. *)
Lemma div_agrees_with_SFdiv :
  let f (m : positive) (e : Z) := S754_finite false m e in
  this <$> Binary64.of_spec_float (f 7205759403792794%positive (-56)) =
    Some (this (Binary64.round (Q2Qc (1 # 10)))) ∧
  this <$> Binary64.of_spec_float
    (SFdiv 53 1024 (f 5404319552844595%positive (-54))
                   (f 7205759403792794%positive (-56))) =
    Some (this (Binary64.div (Q2Qc (3 # 10)) (Q2Qc (1 # 10)))) ∧
  this <$> Binary64.of_spec_float
    (SFdiv 53 1024 (f 4503599627370496%positive (-52))
                   (f 7205759403792794%positive (-56))) =
    Some (this (Binary64.div (of_int 1) (Q2Qc (1 # 10)))) ∧
  this <$> Binary64.of_spec_float
    (SFdiv 53 1024 (f 5629499534213120%positive (-50))
                   (f 5629499534213120%positive (-49))) =
    Some (this (Binary64.div (of_int 5) (of_int 10))) ∧
  this <$> Binary64.of_spec_float
    (SFdiv 53 1024 (f 4503599627370496%positive (-52))
                   (f 6755399441055744%positive (-51))) =
    Some (this (Binary64.div (of_int 1) (of_int 3))).
Proof. cbv zeta. repeat split; by vm_compute. Qed.

(** [Binary64.mul] against the specification's multiplication on
    1.001 * 1e6 (which gives 1000999.9999999999) and 2.5 * 1e6. *)
Lemma mul_agrees_with_SFmul :
  let f (m : positive) (e : Z) := S754_finite false m e in
  this <$> Binary64.of_spec_float
    (SFmul 53 1024 (f 4508103226997866%positive (-52))
                   (f 8589934592000000%positive (-33))) =
    Some (this (Binary64.mul (Q2Qc (1001 # 1000)) f1e6)) ∧
  this <$> Binary64.of_spec_float
    (SFmul 53 1024 (f 5629499534213120%positive (-51))
                   (f 8589934592000000%positive (-33))) =
    Some (this (Binary64.mul (Q2Qc (5 # 2)) f1e6)) ∧
  py_int (Binary64.mul (Q2Qc (1001 # 1000)) f1e6) = 1000999.
Proof. cbv zeta. repeat split; by vm_compute. Qed.

Section BinFacts.
Import Aggregator.

Lemma py_int_floor (q : Qc) : (Q2Qc 0 ≤ q)%Qc → py_int q = Qfloor q.
Proof.
  destruct q as [[n d] Hc]. unfold Qcle, py_int, Qfloor, Qle. simpl.
  intros Hn. apply Z.quot_div_nonneg; lia.
Qed.

Lemma Qcdiv_nonneg (a b : Qc) :
  (Q2Qc 0 ≤ a)%Qc → (Q2Qc 0 < b)%Qc → (Q2Qc 0 ≤ a / b)%Qc.
Proof.
  intros Ha Hb. unfold Qcdiv.
  replace (Q2Qc 0) with (Q2Qc 0 * / b)%Qc by ring.
  apply Qcmult_le_mono_pos_r; [by apply Qcinv_pos | done].
Qed.

Lemma Qfloor_of_int (n : Z) : Qfloor (of_int n) = n.
Proof.
  rewrite <- (Qfloor_Z n) at 2.
  apply Z.le_antisymm; apply Qfloor_resp_le; rewrite this_of_int; lra.
Qed.

Lemma Qfloor_nonneg (q : Qc) : (Q2Qc 0 ≤ q)%Qc → 0 ≤ Qfloor q.
Proof.
  intros H. rewrite <- (Qfloor_Z 0). apply Qfloor_resp_le. exact H.
Qed.

Lemma div_float (x y : Qc) :
  Binary64.is_float x → Binary64.is_float y →
  Binary64.div x y = Binary64.round (x / y).
Proof. unfold Binary64.is_float, Binary64.div. by intros -> ->. Qed.

(** [int] of a rounded value: for 0 <= q < 2^53 it is ⌊q⌋, or ⌊q⌋ + 1
    when [q] rounds up to that whole number; [q] is below the result plus
    one, and not below the result by more than one part in 2^53. *)
Lemma int_round_bounds (q : Qc) :
  (Q2Qc 0 ≤ q)%Qc → (q < of_int (2 ^ 53))%Qc →
  Qfloor q ≤ py_int (Binary64.round q) ≤ Qfloor q + 1 ∧
  (py_int (Binary64.round q) = Qfloor q + 1 →
   Binary64.round q = of_int (Qfloor q + 1)) ∧
  (q < of_int (py_int (Binary64.round q) + 1))%Qc ∧
  (of_int (py_int (Binary64.round q)) ≤
   q * (of_int 1 + Binary64.pow2 (-53)))%Qc.
Proof.
  intros Hq0 Hq.
  pose proof (Qfloor_nonneg q Hq0) as HF0.
  destruct (Qfloor_bounds q) as [HF1 HF2].
  set (F := Qfloor q) in *.
  assert (F + 1 ≤ 2 ^ 53) as HF53.
  { assert (F < 2 ^ 53); [|lia]. rewrite Zlt_Qlt.
    eapply Qle_lt_trans; [exact HF1|]. qc. exact Hq. }
  rewrite (py_int_floor _ (round_nonneg q Hq0)).
  assert (of_int F ≤ Binary64.round q)%Qc as Hlo.
  { rewrite <- (round_int F) by lia. apply round_mono.
    - qc. change 0%Q with (inject_Z 0). by rewrite <- Zle_Qle.
    - qc. exact HF1. }
  assert (Binary64.round q ≤ of_int (F + 1))%Qc as Hhi.
  { rewrite <- (round_int (F + 1)) by lia. apply round_mono; [done|].
    qc. rewrite inject_Z_plus. change (inject_Z 1) with 1%Q. lra. }
  set (B := Qfloor (Binary64.round q)) in *.
  assert (F ≤ B) as HFB.
  { rewrite <- (Qfloor_of_int F). by apply Qfloor_resp_le. }
  assert (B ≤ F + 1) as HBF.
  { rewrite <- (Qfloor_of_int (F + 1)). by apply Qfloor_resp_le. }
  destruct (Qfloor_bounds (Binary64.round q)) as [HB1 HB2]. fold B in HB1, HB2.
  split; [done|]. split; [|split].
  - intros HB. apply Qcle_antisym; [done|]. rewrite <- HB. qc. exact HB1.
  - qc. rewrite inject_Z_plus. change (inject_Z 1) with 1%Q.
    assert (inject_Z F <= inject_Z B)%Q by (by rewrite <- Zle_Qle). lra.
  - destruct (Z.eq_dec B 0) as [->|HB0].
    + pose proof (pow2_pos (-53)) as Hc.
      qc. change (inject_Z 0) with 0%Q.
      assert (0 <= this q * 2 ^ (-53))%Q by (apply Qmult_le_0_compat; lra).
      lra.
    + assert (1 ≤ B) as HB1' by lia.
      assert (Binary64.pow2 (-1022) ≤ q)%Qc as Hnormal.
      { destruct (Qclt_le_dec q (Binary64.pow2 (-1022))) as [Hsub|?]; [|done].
        exfalso.
        assert (Binary64.round q ≤ Binary64.pow2 (-1022))%Qc as Hr.
        { rewrite <- (round_exact (Binary64.pow2 (-1022)) (2 ^ 52))
            by (apply Qc_is_canon; by vm_compute).
          apply round_mono; [done|]. by apply Qclt_le_weak. }
        assert (Binary64.pow2 (-1022) < of_int 1)%Qc as Hone
          by (by vm_compute).
        rewrite Zle_Qle in HB1'. qc. lra. }
      destruct (round_error q Hnormal) as [_ Herr].
      eapply Qcle_trans; [|exact Herr]. qc. exact HB1.
Qed.

(** The bin index is the floor of the quotient of the two floats, or the
    next integer when the quotient rounds up to it: a start is always below
    the end of the window of its index, and not below the start of that
    window by more than one part in 2^53. *)
Lemma bin_of_bounds (bin_ms : Qc) (r : Row) :
  Binary64.is_float bin_ms → (Q2Qc 0 < bin_ms)%Qc →
  Binary64.is_float (start_ms r) → (Q2Qc 0 ≤ start_ms r)%Qc →
  (start_ms r / bin_ms < of_int (2 ^ 53))%Qc →
  Qfloor (start_ms r / bin_ms)%Qc ≤ bin_of bin_ms r ≤
    Qfloor (start_ms r / bin_ms)%Qc + 1 ∧
  (bin_of bin_ms r = Qfloor (start_ms r / bin_ms)%Qc + 1 →
   Binary64.div (start_ms r) bin_ms =
     of_int (Qfloor (start_ms r / bin_ms)%Qc + 1)) ∧
  (start_ms r < of_int (bin_of bin_ms r + 1) * bin_ms)%Qc ∧
  (of_int (bin_of bin_ms r) * bin_ms ≤
   start_ms r * (of_int 1 + Binary64.pow2 (-53)))%Qc.
Proof.
  intros HfW HW Hfs Hs Hq. unfold bin_of. rewrite (div_float _ _ Hfs HfW).
  set (q := (start_ms r / bin_ms)%Qc) in *.
  assert (Q2Qc 0 ≤ q)%Qc as Hq0 by (by apply Qcdiv_nonneg).
  assert (start_ms r = q * bin_ms)%Qc as Hsq.
  { unfold q. field. intros ->. by apply (Qclt_not_le _ _ HW), Qcle_refl. }
  destruct (int_round_bounds q Hq0 Hq) as (Hb & Hup & Hhi & Hlo).
  split; [done|]. split; [done|]. split.
  - rewrite Hsq. by apply Qcmult_lt_mono_pos_r.
  - rewrite Hsq.
    replace (q * bin_ms * (of_int 1 + Binary64.pow2 (-53)))%Qc
      with (q * (of_int 1 + Binary64.pow2 (-53)) * bin_ms)%Qc by ring.
    by apply Qcmult_le_mono_pos_r.
Qed.

(** load_events gives a kernel a start that is not negative: the origin is
    the least kernel start. *)
Lemma kernel_record_start_nonneg db t0 names detail r :
  Origin.t0 db = Some t0 → r ∈ kernels db →
  (Q2Qc 0 ≤ start_ms (kernel_record t0 names detail r))%Qc.
Proof.
  unfold Origin.t0. intros Ht Hr. simpl. apply ms_nonneg.
  destruct (sql_min (k_start <$> kernels db)) as [t|] eqn:Hk.
  - simplify_eq. apply sql_min_Some in Hk as [_ Hmin].
    assert (t0 ≤ k_start r); [|lia].
    apply Hmin, list_elem_of_fmap. by exists r.
  - apply sql_min_None, fmap_nil_inv in Hk. rewrite Hk in Hr.
    by apply elem_of_nil in Hr.
Qed.

Lemma filter_ext_elem {A} (P Q : A → Prop) `{∀ x, Decision (P x)}
    `{∀ x, Decision (Q x)} (l : list A) :
  (∀ x, x ∈ l → P x ↔ Q x) → filter P l = filter Q l.
Proof.
  induction l as [|x l IH]; intros Hl; [done|].
  rewrite !filter_cons.
  assert (P x ↔ Q x) as Hx by (apply Hl; left).
  rewrite IH by (intros y Hy; apply Hl; by right).
  destruct (decide (P x)), (decide (Q x)); tauto.
Qed.


Lemma agg_group_fields k ms b :
  agg_group (k, ms) = Some b →
  bin_key b = k ∧
  b_count b = Z.of_nat (length ms) ∧
  col_min (start_ms <$> ms) = Some (b_start_ms b) ∧
  col_max (end_ms <$> ms) = Some (b_end_ms b) ∧
  b_total_dur b = fsum (duration_ms <$> ms) ∧
  top_of (op_name <$> ms) = Some (b_top_kernel b) ∧
  head (device_id <$> ms) = Some (b_device_id b) ∧
  b_duration_ms b = (b_end_ms b - b_start_ms b)%Qc.
Proof.
  unfold agg_group. cbn [fst snd].
  destruct (col_min _) as [lo|]; [|done].
  destruct (col_max _) as [hi|]; [|done].
  destruct (top_of _) as [top|]; [|done].
  destruct (head _) as [first|]; [|done].
  cbn. intros [= <-]. cbn. by destruct k.
Qed.

Lemma agg_group_is_Some k ms : ms ≠ [] → is_Some (agg_group (k, ms)).
Proof.
  intros Hms. unfold agg_group. cbn [fst snd].
  destruct (col_min_is_Some (start_ms <$> ms)) as [lo ->];
    [by destruct ms|].
  destruct (col_max_is_Some (end_ms <$> ms)) as [hi ->]; [by destruct ms|].
  destruct (top_of_is_Some (op_name <$> ms)) as [top ->]; [by destruct ms|].
  destruct ms as [|r ms]; [done|]. cbn. by eexists.
Qed.

Lemma elem_of_agg kernels bin_ms b :
  b ∈ agg kernels bin_ms ↔
  ∃ ms, ms = filter (λ r, key_of bin_ms r = bin_key b) kernels ∧ ms ≠ [] ∧
        agg_group (bin_key b, ms) = Some b.
Proof.
  unfold agg. rewrite list_elem_of_omap.
  destruct (groupby_spec (key_of bin_ms) kernels) as (Hs & Hk & Hg). split.
  - intros ([k ms] & Hin & Hb).
    pose proof (agg_group_fields _ _ _ Hb) as (Hkey & _).
    destruct (Hg _ _ Hin) as [Hms Hne]. exists ms. by rewrite Hkey.
  - intros (ms & Hms & Hne & Hb).
    assert (bin_key b ∈ (groupby (key_of bin_ms) kernels).*1) as Hin.
    { apply Hk. destruct ms as [|r ms']; [done|]. exists r.
      assert (r ∈ r :: ms') as Hr by left. rewrite Hms in Hr.
      by apply list_elem_of_filter in Hr as [? ?]. }
    apply list_elem_of_fmap in Hin as ([k ms'] & Hkey & Hin). simpl in Hkey.
    subst k. destruct (Hg _ _ Hin) as [Hms' _]. exists (bin_key b, ms').
    split; [done|]. by rewrite Hms', <- Hms.
Qed.

Lemma agg_keys kernels bin_ms :
  bin_key <$> agg kernels bin_ms = (groupby (key_of bin_ms) kernels).*1.
Proof.
  unfold agg.
  destruct (groupby_spec (key_of bin_ms) kernels) as (_ & _ & Hg).
  induction (groupby (key_of bin_ms) kernels) as [|[k ms] gs IH]; [done|].
  destruct (Hg k ms) as [_ Hne]; [left|].
  destruct (agg_group_is_Some k ms Hne) as [b Hb].
  cbn [omap list_omap]. rewrite Hb. rewrite !fmap_cons. cbn [fst].
  apply agg_group_fields in Hb as (-> & _). f_equal.
  apply IH. intros k' ms' Hin. apply Hg. by right.
Qed.

End BinFacts.

Section BinningFacts.
Import Aggregator.

Lemma bin_events_bins df bin_ms :
  (bin_events df bin_ms).1 = agg (of_type kernel df) bin_ms ∧
  (bin_events df bin_ms).2 = of_type memcpy df.
Proof. unfold bin_events. by destruct (of_type kernel df). Qed.

Lemma agg_group_extent_perm k ms ms' b b' :
  ms ≡ₚ ms' → agg_group (k, ms) = Some b → agg_group (k, ms') = Some b' →
  bin_extent b = bin_extent b'.
Proof.
  intros Hp (Hk & Hc & Hlo & Hhi & _)%agg_group_fields
            (Hk' & Hc' & Hlo' & Hhi' & _)%agg_group_fields.
  unfold bin_extent. unfold bin_key in Hk, Hk'.
  rewrite (col_min_perm _ (start_ms <$> ms')) in Hlo by (by rewrite Hp).
  rewrite (col_max_perm _ (end_ms <$> ms')) in Hhi by (by rewrite Hp).
  rewrite Hc, Hc', Hp. rewrite Hlo in Hlo'. rewrite Hhi in Hhi'.
  rewrite <- Hk in Hk'. congruence.
Qed.

Lemma omap_agg_extent (gs gs' : list (Key * list Row)) :
  gs.*1 = gs'.*1 →
  (∀ k ms ms', (k, ms) ∈ gs → (k, ms') ∈ gs' → ms ≡ₚ ms' ∧ ms ≠ []) →
  bin_extent <$> omap agg_group gs = bin_extent <$> omap agg_group gs'.
Proof.
  revert gs'. induction gs as [|[k ms] gs IH]; intros [|[k' ms'] gs'] Hk Hg;
    try done.
  rewrite !fmap_cons in Hk. cbn [fst] in Hk. simplify_eq.
  destruct (Hg k' ms ms') as [Hp Hne]; [left..|].
  destruct (agg_group_is_Some k' ms Hne) as [b Hb].
  destruct (agg_group_is_Some k' ms') as [b' Hb'].
  { intros ->. by apply Permutation_nil_r in Hp. }
  cbn [omap list_omap]. rewrite Hb, Hb', !fmap_cons.
  rewrite (agg_group_extent_perm _ _ _ _ _ Hp Hb Hb'). f_equal.
  apply IH; [done|]. intros k ms0 ms0' Hin0 Hin0'. apply (Hg k); by right.
Qed.

Lemma groupby_keys_perm (keyf : Row → Key) (l l' : list Row) :
  l ≡ₚ l' → (groupby keyf l).*1 = (groupby keyf l').*1.
Proof.
  intros Hp.
  destruct (groupby_spec keyf l) as (Hs & Hk & _).
  destruct (groupby_spec keyf l') as (Hs' & Hk' & _).
  apply sorted_keys_eq; [done..|]. intros k. rewrite Hk, Hk'.
  by setoid_rewrite Hp.
Qed.

Lemma agg_extent_perm (l l' : list Row) (bin_ms : Qc) :
  l ≡ₚ l' → bin_extent <$> agg l bin_ms = bin_extent <$> agg l' bin_ms.
Proof.
  intros Hp. unfold agg. apply omap_agg_extent.
  - by apply groupby_keys_perm.
  - intros k ms ms' Hin Hin'.
    destruct (groupby_spec (key_of bin_ms) l) as (_ & _ & Hg).
    destruct (groupby_spec (key_of bin_ms) l') as (_ & _ & Hg').
    destruct (Hg _ _ Hin) as [-> Hne]. destruct (Hg' _ _ Hin') as [-> _].
    split; [by rewrite Hp | done].
Qed.

(** C7, as stated, fails on tied labels: the two kernels of [two_names]
    fall in one bin with one occurrence of each name; the bin is labelled
    "gemm", and "relu" when the two rows are swapped. *)
Lemma tied_label_follows_input_order :
  Traces.two_names ≡ₚ Traces.two_names_swapped ∧
  b_top_kernel <$> (bin_events Traces.two_names (of_int 10)).1 ≠
  b_top_kernel <$> (bin_events Traces.two_names_swapped (of_int 10)).1.
Proof.
  split; [apply Permutation_swap|]. vm_compute. discriminate.
Qed.

(** C7, amended.  Binning a frame and a permutation of it with the same
    width gives the same bins in the same order, with the same stream, bin
    index, boundaries and count; the representative label of a bin is the
    same whenever one label of that bin is strictly more frequent than
    every other. *)
Theorem binning_order_independent df df' bin_ms :
  df ≡ₚ df' →
  bin_extent <$> (bin_events df bin_ms).1 =
  bin_extent <$> (bin_events df' bin_ms).1 ∧
  ∀ b b', b ∈ (bin_events df bin_ms).1 → b' ∈ (bin_events df' bin_ms).1 →
          bin_key b = bin_key b' →
          (∀ y, y ≠ b_top_kernel b →
             (occurrences y
                (op_name <$> filter (λ r, key_of bin_ms r = bin_key b)
                                    (of_type kernel df))
              < occurrences (b_top_kernel b)
                (op_name <$> filter (λ r, key_of bin_ms r = bin_key b)
                                    (of_type kernel df)))%nat) →
          b_top_kernel b' = b_top_kernel b.
Proof.
  intros Hp.
  assert (of_type kernel df ≡ₚ of_type kernel df') as Hk
    by (unfold of_type; by rewrite Hp).
  destruct (bin_events_bins df bin_ms) as [-> _].
  destruct (bin_events_bins df' bin_ms) as [-> _].
  split; [by apply agg_extent_perm|].
  intros b b' (ms & Hms & _ & Hb)%elem_of_agg (ms' & Hms' & _ & Hb')%elem_of_agg
         Hkey Huniq.
  apply agg_group_fields in Hb as (_ & _ & _ & _ & _ & Htop & _).
  apply agg_group_fields in Hb' as (_ & _ & _ & _ & _ & Htop' & _).
  rewrite <- Hms in Huniq.
  assert (op_name <$> ms ≡ₚ op_name <$> ms') as Hperm.
  { rewrite Hms, Hms', <- Hkey. by rewrite Hk. }
  pose proof (top_of_perm_unique _ _ _ Hperm Htop Huniq) as Ht.
  rewrite Htop' in Ht. by simplify_eq.
Qed.

Lemma binning_order_independent_witness :
  bin_extent <$> (bin_events Traces.two_names (of_int 10)).1 =
  bin_extent <$> (bin_events Traces.two_names_swapped (of_int 10)).1.
Proof.
  apply (binning_order_independent Traces.two_names Traces.two_names_swapped).
  apply Permutation_swap.
Defined.

End BinningFacts.

Section AggregationFacts.
Import Aggregator.




End AggregationFacts.

(* ===================================================================== *)
(** * Further properties of the scripts                                   *)
(* ===================================================================== *)

(** ** Lists and sorting *)

Lemma StronglySorted_weaken {A} (R R' : relation A) (l : list A) :
  (∀ a b, R a b → R' a b) → StronglySorted R l → StronglySorted R' l.
Proof.
  intros HR. induction 1 as [|x l Hs IH Hall]; constructor; [done|].
  eapply Forall_impl; [exact Hall | auto].
Qed.

Lemma sort_by_desc_sorted {A} (key : A → Z) (l : list A) :
  StronglySorted (λ a b, key b ≤ key a) (sort_by_desc key l).
Proof.
  unfold sort_by_desc. eapply StronglySorted_weaken; [|apply sort_by_sorted].
  unfold key_le. intros a b Hab. simpl in Hab. lia.
Qed.

Lemma sort_by_length {A} (key : A → Z) (l : list A) :
  length (sort_by key l) = length l.
Proof. by rewrite sort_by_perm. Qed.

(** Sorting a sorted list changes nothing. *)
Lemma insert_by_below {A} (key : A → Z) (x : A) (l : list A) :
  Forall (λ y, key x ≤ key y) l → insert_by key x l = x :: l.
Proof.
  destruct l as [|y l]; [done|]. intros Hall. simpl.
  apply Forall_cons in Hall as [Hy _]. by rewrite decide_True.
Qed.

Lemma sort_by_sorted_id {A} (key : A → Z) (l : list A) :
  StronglySorted (key_le key) l → sort_by key l = l.
Proof.
  induction 1 as [|x l Hs IH Hall]; [done|]. simpl. rewrite IH.
  by apply insert_by_below.
Qed.

(** A stable sort and a filter commute. *)
Lemma filter_insert_by {A} (key : A → Z) (P : A → Prop)
    `{∀ x, Decision (P x)} (x : A) (l : list A) :
  StronglySorted (key_le key) l →
  filter P (insert_by key x l) =
  if decide (P x) then insert_by key x (filter P l) else filter P l.
Proof.
  induction 1 as [|y l Hs IH Hall]; simpl.
  - rewrite filter_cons, filter_nil. by case_decide.
  - destruct (decide (key x ≤ key y)) as [Hle|Hgt].
    + rewrite !filter_cons. destruct (decide (P x)) as [Hx|Hx]; [|done].
      destruct (decide (P y)) as [Hy|Hy].
      * simpl. by rewrite decide_True.
      * symmetry. apply insert_by_below. apply Forall_forall.
        intros z Hz. apply list_elem_of_filter in Hz as [_ Hz].
        rewrite Forall_forall in Hall. specialize (Hall z Hz).
        unfold key_le in Hall. lia.
    + rewrite !filter_cons, IH.
      destruct (decide (P y)) as [Hy|Hy]; destruct (decide (P x)); try done.
      simpl. by rewrite decide_False.
Qed.

Lemma filter_sort_by {A} (key : A → Z) (P : A → Prop)
    `{∀ x, Decision (P x)} (l : list A) :
  filter P (sort_by key l) = sort_by key (filter P l).
Proof.
  induction l as [|x l IH]; [done|]. simpl.
  rewrite filter_insert_by by apply sort_by_sorted.
  rewrite filter_cons, IH. by case_decide.
Qed.

(** A sort commutes with a map that keeps the key. *)
Lemma sort_by_fmap {A B} (f : A → B) (key : B → Z) (l : list A) :
  sort_by key (f <$> l) = f <$> sort_by (key ∘ f) l.
Proof.
  induction l as [|x l IH]; [done|].
  rewrite fmap_cons. cbn [sort_by]. rewrite IH.
  generalize (sort_by (key ∘ f) l). intros l'.
  induction l' as [|y l' IH']; [done|].
  rewrite fmap_cons. cbn [insert_by]. unfold compose at 1 2.
  destruct (decide (key (f x) ≤ key (f y))); [done|].
  by rewrite fmap_cons, IH'.
Qed.

Lemma length_filter_unique {A} (f : A → Z) (c : Z) (l : list A) :
  NoDup (f <$> l) →
  length (filter (λ r, c = f r) l) = if decide (c ∈ f <$> l) then 1%nat else 0%nat.
Proof.
  induction l as [|x l IH]; intros Hnd.
  - by rewrite decide_False by apply not_elem_of_nil.
  - rewrite fmap_cons in Hnd. apply NoDup_cons in Hnd as [Hx Hnd].
    rewrite filter_cons, fmap_cons. destruct (decide (c = f x)) as [->|Hne].
    + rewrite decide_True by left. simpl. rewrite IH by done.
      by rewrite decide_False.
    + rewrite IH by done. destruct (decide (c ∈ f <$> l)) as [Hin|Hnin].
      * rewrite decide_True by (by right). done.
      * rewrite decide_False; [done|].
        intros [?|?]%elem_of_cons; [congruence | done].
Qed.

(** ** The correlator's report *)

Section ReportFacts.
Import Correlator.

Lemma length_join_unique (ms : list MemcpyRow) (rs : list RuntimeRow)
    (w : MemcpyRow → bool) :
  NoDup (r_correlationId <$> rs) →
  length (filter (λ mr, w mr.1 = true) (join_on_correlation ms rs)) =
  length (filter (λ m, w m = true ∧
                       m_correlationId m ∈ r_correlationId <$> rs) ms).
Proof.
  intros Hnd. unfold join_on_correlation.
  induction ms as [|m ms IH]; [done|].
  rewrite bind_cons, filter_app, length_app, IH, filter_cons.
  assert (length (filter (λ mr : MemcpyRow * RuntimeRow, w mr.1 = true)
            ((λ r, (m, r)) <$>
               filter (λ r, m_correlationId m = r_correlationId r) rs)) =
          if decide (w m = true ∧ m_correlationId m ∈ r_correlationId <$> rs)
          then 1%nat else 0%nat) as ->.
  { generalize (length_filter_unique r_correlationId (m_correlationId m) rs Hnd).
    generalize (filter (λ r, m_correlationId m = r_correlationId r) rs).
    intros X HX.
    assert (filter (λ mr : MemcpyRow * RuntimeRow, w mr.1 = true)
              ((λ r, (m, r)) <$> X) =
            if decide (w m = true) then (λ r, (m, r)) <$> X else []) as ->.
    { clear HX.
      induction X as [|r X IHX]; [by destruct (decide (w m = true))|].
      rewrite fmap_cons, filter_cons. simpl. rewrite IHX.
      by destruct (decide (w m = true)). }
    destruct (decide (w m = true)) as [Hw|Hw].
    - rewrite length_fmap, HX.
      destruct (decide (m_correlationId m ∈ r_correlationId <$> rs)).
      + by rewrite decide_True.
      + rewrite decide_False; [done | tauto].
    - rewrite decide_False; [done | tauto]. }
  by case_decide.
Qed.

Lemma analyze_report_top db start_ms end_ms rep :
  analyze db start_ms end_ms = Some (Some rep) →
  ∃ where_,
    analyze_where (Origin.t0 db) start_ms end_ms = Some where_ ∧
    E2E_QUERY db where_ ≠ [] ∧
    n_rows rep = length (E2E_QUERY db where_) ∧
    top15 rep = take 15 (sort_by_desc e2e_of (E2E_QUERY db where_)) ∧
    csv rep = csv_row <$> E2E_QUERY db where_.
Proof.
  unfold analyze. destruct (analyze_where _ _ _) as [w|]; simpl; [|done].
  destruct (E2E_QUERY db w) as [|r0 rows] eqn:Hq; [done|].
  intros [= <-]. exists w. by rewrite Hq.
Qed.

Lemma csv_of_rows db start_ms end_ms where_ :
  analyze_where (Origin.t0 db) start_ms end_ms = Some where_ →
  csv_of (analyze db start_ms end_ms) = csv_row <$> E2E_QUERY db where_ ∧
  summary_of (analyze db start_ms end_ms) =
    direction_summary (E2E_QUERY db where_) ∧
  breakdown_of (analyze db start_ms end_ms) =
    mem_breakdown (E2E_QUERY db where_).
Proof.
  intros Hw. unfold analyze. rewrite Hw. simpl.
  by destruct (E2E_QUERY db where_).
Qed.

Lemma filter_pairs_with (m : MemcpyRow) (w : MemcpyRow → bool)
    (X : list RuntimeRow) :
  filter (λ mr : MemcpyRow * RuntimeRow, w mr.1 = true) ((λ r, (m, r)) <$> X) =
  if decide (w m = true) then (λ r, (m, r)) <$> X else [].
Proof.
  induction X as [|r X IHX]; [by destruct (decide (w m = true))|].
  rewrite fmap_cons, filter_cons. simpl. rewrite IHX.
  by destruct (decide (w m = true)).
Qed.

(** With distinct correlation ids, the memcpys behind the joined rows are
    the matched memcpys, each once. *)
Lemma fst_join_unique (ms : list MemcpyRow) (rs : list RuntimeRow)
    (w : MemcpyRow → bool) :
  NoDup (r_correlationId <$> rs) →
  (filter (λ mr, w mr.1 = true) (join_on_correlation ms rs)).*1 =
  filter (λ m, w m = true ∧ m_correlationId m ∈ r_correlationId <$> rs) ms.
Proof.
  intros Hnd. unfold join_on_correlation.
  induction ms as [|m ms IH]; [done|].
  rewrite bind_cons, filter_app, fmap_app, IH, filter_cons, filter_pairs_with.
  pose proof (length_filter_unique r_correlationId (m_correlationId m) rs Hnd)
    as Hlen.
  destruct (decide (w m = true)) as [Hw|Hw].
  - destruct (decide (m_correlationId m ∈ r_correlationId <$> rs)) as [Hin|Hin].
    + rewrite decide_True by done.
      destruct (filter (λ r, m_correlationId m = r_correlationId r) rs)
        as [|r [|r' X]]; simpl in Hlen; try done.
    + rewrite decide_False by tauto.
      destruct (filter (λ r, m_correlationId m = r_correlationId r) rs)
        as [|r X]; simpl in Hlen; done.
  - rewrite decide_False by tauto. done.
Qed.

(** When the API calls have distinct correlation ids, analyze exports one
    record for each transfer of the window that has an API call, and none
    for the others: the records are, in that order, those of the matched
    transfers of the window sorted by start, each joined with an API call
    of its correlation id. *)
Theorem one_record_per_matched_transfer db start_ms end_ms where_ :
  NoDup (r_correlationId <$> runtime db) →
  analyze_where (Origin.t0 db) start_ms end_ms = Some where_ →
  ∃ mrs : list (MemcpyRow * RuntimeRow),
    csv_of (analyze db start_ms end_ms) =
      (λ mr, csv_row (e2e_select (StringIds db) mr)) <$> mrs ∧
    mrs.*1 =
      sort_by m_start
        (filter (λ m, where_ m = true ∧
                      m_correlationId m ∈ r_correlationId <$> runtime db)
                (memcpys db)) ∧
    (∀ m r, (m, r) ∈ mrs →
            r ∈ runtime db ∧ m_correlationId m = r_correlationId r) ∧
    length (csv_of (analyze db start_ms end_ms)) =
      length (filter (λ m, where_ m = true ∧
                           m_correlationId m ∈ r_correlationId <$> runtime db)
                     (memcpys db)) ∧
    (length (csv_of (analyze db start_ms end_ms)) ≤ length (memcpys db))%nat.
Proof.
  intros Hnd Hw. destruct (csv_of_rows _ _ _ _ Hw) as (-> & _ & _).
  set (joined := filter (λ mr : MemcpyRow * RuntimeRow, where_ mr.1 = true)
                   (join_on_correlation (memcpys db) (runtime db))).
  exists (sort_by (λ mr, m_start mr.1) joined).
  assert (Hfst : (sort_by (λ mr : MemcpyRow * RuntimeRow, m_start mr.1)
                    joined).*1 =
                 sort_by m_start
                   (filter (λ m, where_ m = true ∧
                      m_correlationId m ∈ r_correlationId <$> runtime db)
                      (memcpys db))).
  { rewrite <- (fst_join_unique _ _ _ Hnd). fold joined.
    by rewrite (sort_by_fmap fst m_start). }
  assert (Hlen : length (csv_row <$> E2E_QUERY db where_) =
          length (filter (λ m, where_ m = true ∧
                    m_correlationId m ∈ r_correlationId <$> runtime db)
                    (memcpys db))).
  { unfold E2E_QUERY. rewrite !length_fmap, sort_by_length.
    by apply length_join_unique. }
  split; [|split; [done|split; [|split; [done|]]]].
  - unfold E2E_QUERY. fold joined. by rewrite <- list_fmap_compose.
  - intros m r Hin. apply elem_of_sort_by in Hin.
    apply list_elem_of_filter in Hin as [_ Hin].
    apply elem_of_join in Hin as (_ & ? & ?). done.
  - rewrite Hlen. apply length_filter.
Qed.

Lemma one_record_per_matched_transfer_witness :
  ∃ mrs : list (MemcpyRow * RuntimeRow),
    csv_of (analyze Traces.with_unmatched None None) =
      (λ mr, csv_row (e2e_select (StringIds Traces.with_unmatched) mr))
        <$> mrs ∧
    mrs.*1 = [Traces.mk_memcpy 20 30 4096 1 7] ∧
    length (csv_of (analyze Traces.with_unmatched None None)) = 1%nat.
Proof.
  destruct (one_record_per_matched_transfer Traces.with_unmatched None None
              (λ _, true)) as (mrs & Hcsv & Hfst & _ & Hlen & _).
  - vm_compute. repeat constructor; set_solver.
  - reflexivity.
  - exists mrs. split; [done|]. split; [|by rewrite Hlen].
    rewrite Hfst. reflexivity.
Defined.

(** The "top 15" section lists min(15, number of rows) rows in descending
    order of end-to-end time, and no row left out has a longer end-to-end
    time than a listed one. *)
Theorem top15_longest db start_ms end_ms rep :
  analyze db start_ms end_ms = Some (Some rep) →
  length (top15 rep) = (15 `min` n_rows rep)%nat ∧
  StronglySorted (λ a b, e2e_of b ≤ e2e_of a) (top15 rep) ∧
  ∃ rest, csv rep ≡ₚ csv_row <$> (top15 rep ++ rest) ∧
          ∀ a b, a ∈ top15 rep → b ∈ rest → e2e_of b ≤ e2e_of a.
Proof.
  intros (w & _ & _ & Hn & Htop & Hcsv)%analyze_report_top.
  rewrite Hn, Htop, Hcsv.
  pose proof (sort_by_desc_sorted e2e_of (E2E_QUERY db w)) as Hs.
  rewrite <- (take_drop 15 (sort_by_desc e2e_of (E2E_QUERY db w))) in Hs.
  split; [|split].
  - rewrite length_take. unfold sort_by_desc. by rewrite sort_by_length.
  - by eapply StronglySorted_app_1_l.
  - exists (drop 15 (sort_by_desc e2e_of (E2E_QUERY db w))). split.
    + rewrite take_drop. unfold sort_by_desc. by rewrite sort_by_perm.
    + intros a b Ha Hb.
      by apply (StronglySorted_app_1_elem_of _ _ _ _ _ Hs Ha Hb).
Qed.

Lemma top15_longest_witness :
  ∃ rep, analyze Traces.with_instant_copy None None = Some (Some rep) ∧
         length (top15 rep) = 3%nat.
Proof.
  eexists. split; [vm_compute; reflexivity|].
  match goal with |- length (top15 ?r) = _ =>
    destruct (top15_longest Traces.with_instant_copy None None r) as [H _];
      [vm_compute; reflexivity|]
  end.
  rewrite H. reflexivity.
Defined.

(** The decomposition of the module's diagram.  For a record whose
    transfer starts no earlier than its API call: when the transfer ends
    before the call returns, the CPU wall time is launch overhead +
    device time + sync wait and is the end-to-end time; when the call
    returns first, the sync wait is 0 and the end-to-end time is launch
    overhead + device time. *)
Theorem cpu_wall_decomposition db start_ms end_ms c :
  c ∈ csv_of (analyze db start_ms end_ms) →
  cpu_start_ns c ≤ gpu_start_ns c →
  (gpu_end_ns c ≤ cpu_end_ns c →
     cpu_wall_ns_ c =
       launch_overhead_ns_ c + gpu_dma_ns_ c + sync_wait_ns_ c ∧
     e2e_ns c = cpu_wall_ns_ c) ∧
  (cpu_end_ns c ≤ gpu_end_ns c →
     sync_wait_ns_ c = 0 ∧
     e2e_ns c = launch_overhead_ns_ c + gpu_dma_ns_ c).
Proof.
  intros (Hw & Hd & Hl & Hs & He)%csv_of_fields Hstart. lia.
Qed.

Lemma cpu_wall_decomposition_witness :
  ∃ c, c ∈ csv_of (analyze Traces.scenario None None) ∧
       cpu_wall_ns_ c = 20 ∧ launch_overhead_ns_ c = 5 ∧
       gpu_dma_ns_ c = 10 ∧ sync_wait_ns_ c = 5 ∧ e2e_ns c = 20.
Proof.
  eexists. split; [vm_compute; apply list_elem_of_here|].
  match goal with |- cpu_wall_ns_ ?c = _ ∧ _ =>
    destruct (cpu_wall_decomposition Traces.scenario None None c)
      as [Hsync _];
      [vm_compute; apply list_elem_of_here | vm_compute; discriminate |]
  end.
  destruct Hsync as [Hsum He]; [vm_compute; discriminate|].
  split; [reflexivity|]. split; [reflexivity|]. split; [reflexivity|].
  split; [reflexivity|]. rewrite He. reflexivity.
Defined.

End ReportFacts.

Section SummaryStructureFacts.
Import Correlator.

Lemma zsum_cons (x : Z) (l : list Z) : zsum (x :: l) = x + zsum l.
Proof.
  change (x :: l) with ([x] ++ l). rewrite zsum_app_l. unfold zsum at 1.
  simpl. lia.
Qed.

Lemma zsum_perm (l l' : list Z) : l ≡ₚ l' → zsum l = zsum l'.
Proof.
  induction 1 as [|x l l' _ IH|x y l|l l' l'' _ IH1 _ IH2];
    rewrite ?zsum_cons; try done; lia.
Qed.

Lemma zsum_ge0 (l : list Z) : (∀ x, x ∈ l → 0 ≤ x) → 0 ≤ zsum l.
Proof. intros H. by apply zsum_nonneg. Qed.

(** The launch overhead and the sync wait are never negative, in the
    records, in the lines of dump_window_csv and in the totals of the
    per-direction summary, whose groups are never empty. *)
Theorem overheads_nonnegative db start_ms end_ms t1 t2 :
  (∀ c, c ∈ csv_of (analyze db start_ms end_ms) →
        0 ≤ launch_overhead_ns_ c ∧ 0 ≤ sync_wait_ns_ c) ∧
  (∀ line, line ∈ summary_of (analyze db start_ms end_ms) →
        1 ≤ ds_count line ∧ 0 ≤ ds_launch_oh line ∧ 0 ≤ ds_sync_wait line) ∧
  (∀ outs o, dump_e2e db t1 t2 = Some outs → o ∈ outs → 0 ≤ wo_launch_oh o).
Proof.
  split; [|split].
  - intros c (_ & _ & -> & -> & _)%csv_of_fields. lia.
  - destruct (analyze db start_ms end_ms) as [[rep|]|] eqn:Ha; simpl;
      [|by intros ? ?%elem_of_nil..].
    apply analyze_report in Ha as (w & _ & -> & _ & _).
    intros line (G & HG & Hne & _ & -> & _ & _ & _ & -> & -> & _)%direction_summary_line.
    destruct (accumulate_all G) as (-> & _ & _ & _ & -> & -> & _).
    split; [destruct G; [done | simpl; lia]|].
    split; apply zsum_ge0; intros x (r & -> & _)%list_elem_of_fmap; lia.
  - intros outs o Hd Ho.
    destruct (dump_e2e_fields _ _ _ _ _ Hd Ho) as (_ & _ & -> & _). lia.
Qed.

Lemma overheads_nonnegative_witness :
  ∃ c, c ∈ csv_of (analyze Traces.skewed None None) ∧
       0 ≤ launch_overhead_ns_ c ∧ 0 ≤ sync_wait_ns_ c.
Proof.
  destruct (overheads_nonnegative Traces.skewed None None (of_int 0) (of_int 1))
    as (Hc & _ & _).
  eexists. split; [vm_compute; apply list_elem_of_here|].
  apply Hc. vm_compute. apply list_elem_of_here.
Defined.

Lemma direction_summary_kinds (rows : list E2ERow) (kinds : list string) :
  ds_kind <$>
    (kind ← kinds;
     match direction_stats rows !! kind with
     | None => []
     | Some s =>
         if decide (count s = 0) then []
         else [ {| ds_kind := kind; ds_count := count s;
                   ds_bytes := bytes_total s;
                   ds_cpu_wall := cpu_wall s; ds_gpu_dma := gpu_dma s;
                   ds_launch_oh := launch_oh s; ds_sync_wait := sync_wait s;
                   ds_bw := mean_bw (bw_list s) |} ]
     end) =
  filter (λ k, k ∈ (λ r, copy_kind (copyKind r)) <$> rows) kinds.
Proof.
  induction kinds as [|k kinds IH]; [done|].
  rewrite bind_cons, fmap_app, IH, filter_cons, direction_stats_lookup.
  destruct (filter (λ r, copy_kind (copyKind r) = k) rows) as [|r0 G] eqn:HG.
  - rewrite decide_False; [done|].
    intros (r & Hk & Hr)%list_elem_of_fmap.
    assert (r ∈ filter (λ r, copy_kind (copyKind r) = k) rows) as Hin
      by (by apply list_elem_of_filter).
    rewrite HG in Hin. by apply elem_of_nil in Hin.
  - destruct (accumulate_all (r0 :: G)) as (Hc & _).
    rewrite decide_False by (rewrite Hc; simpl; lia).
    rewrite decide_True; [done|].
    assert (r0 ∈ filter (λ r, copy_kind (copyKind r) = k) rows) as Hin
      by (rewrite HG; left).
    apply list_elem_of_filter in Hin as [<- Hin].
    apply list_elem_of_fmap. by exists r0.
Qed.

(** The per-direction summary has one line for each of HtoD, DtoH, DtoD,
    Peer, HtoH, Unknown that occurs among the joined transfers, in that
    order; a transfer whose copy kind is not in COPY_KIND is in no line. *)
Theorem summary_directions db start_ms end_ms where_ :
  analyze_where (Origin.t0 db) start_ms end_ms = Some where_ →
  ds_kind <$> summary_of (analyze db start_ms end_ms) =
    filter (λ k, k ∈ (λ r, copy_kind (copyKind r)) <$> E2E_QUERY db where_)
           summary_kinds ∧
  ∀ row line, row ∈ E2E_QUERY db where_ →
              COPY_KIND !! copyKind row = None →
              line ∈ summary_of (analyze db start_ms end_ms) →
              ds_kind line ≠ copy_kind (copyKind row).
Proof.
  intros Hw. destruct (csv_of_rows _ _ _ _ Hw) as (_ & -> & _).
  assert (ds_kind <$> direction_summary (E2E_QUERY db where_) =
          filter (λ k, k ∈ (λ r, copy_kind (copyKind r)) <$> E2E_QUERY db where_)
                 summary_kinds) as Heq
    by apply direction_summary_kinds.
  split; [done|]. intros row line _ Hnone Hline Hk.
  assert (ds_kind line ∈ ds_kind <$> direction_summary (E2E_QUERY db where_))
    as Hin by (apply list_elem_of_fmap; eauto).
  rewrite Heq in Hin. apply list_elem_of_filter in Hin as [_ Hin].
  rewrite Hk in Hin. unfold copy_kind in Hin. rewrite Hnone in Hin.
  simpl in Hin. vm_compute in Hin.
  repeat (apply elem_of_cons in Hin as [Hin|Hin]; [discriminate|]).
  by apply elem_of_nil in Hin.
Qed.

Lemma summary_directions_witness :
  ds_kind <$> summary_of (analyze Traces.with_unmatched None None) =
  ["HtoD"]%string.
Proof.
  destruct (summary_directions Traces.with_unmatched None None (λ _, true))
    as [H _]; [reflexivity|].
  rewrite H. vm_compute. reflexivity.
Defined.

End SummaryStructureFacts.

Section BreakdownFacts.
Import Correlator.

Lemma mem_stats_add_sums key r d :
  zsum (ms_count ∘ snd <$> mem_stats_add key r d) =
    zsum (ms_count ∘ snd <$> d) + 1 ∧
  zsum (ms_bytes ∘ snd <$> mem_stats_add key r d) =
    zsum (ms_bytes ∘ snd <$> d) + bytes r ∧
  zsum (ms_gpu_dma ∘ snd <$> mem_stats_add key r d) =
    zsum (ms_gpu_dma ∘ snd <$> d) + gpu_dma_ns r.
Proof.
  induction d as [|[k m] d (IH1 & IH2 & IH3)]; [done|].
  cbn [mem_stats_add]. destruct (decide (k = key)).
  - rewrite !fmap_cons, !zsum_cons. simpl. lia.
  - rewrite !fmap_cons, !zsum_cons, IH1, IH2, IH3. lia.
Qed.

Lemma mem_stats_sums (rows : list E2ERow) :
  zsum (ms_count ∘ snd <$> mem_stats rows) = Z.of_nat (length rows) ∧
  zsum (ms_bytes ∘ snd <$> mem_stats rows) = zsum (bytes <$> rows) ∧
  zsum (ms_gpu_dma ∘ snd <$> mem_stats rows) = zsum (gpu_dma_ns <$> rows).
Proof.
  unfold mem_stats. induction rows as [|r rows (IH1 & IH2 & IH3)] using rev_ind;
    [done|].
  rewrite foldl_app. cbn [foldl].
  destruct (mem_stats_add_sums (mem_key r) r
    (foldl (λ d r, mem_stats_add (mem_key r) r d) [] rows)) as (-> & -> & ->).
  rewrite IH1, IH2, IH3, !fmap_app, length_app, !zsum_app_l.
  cbn [fmap list_fmap length]. rewrite !(zsum_cons _ []).
  change (zsum []) with 0. lia.
Qed.

(** The memory type breakdown has one line per pair of memory kinds that
    occurs, in descending order of total bytes; every joined transfer is
    counted in exactly one line: the counts add up to the number of rows,
    the bytes and the device times to their totals over the rows. *)
Theorem breakdown_partitions_rows db start_ms end_ms where_ :
  analyze_where (Origin.t0 db) start_ms end_ms = Some where_ →
  NoDup ((λ l, l.1.1) <$> breakdown_of (analyze db start_ms end_ms)) ∧
  (∀ k, k ∈ (λ l, l.1.1) <$> breakdown_of (analyze db start_ms end_ms) ↔
        ∃ r, r ∈ E2E_QUERY db where_ ∧ mem_key r = k) ∧
  StronglySorted (λ a b, ms_bytes b.1.2 ≤ ms_bytes a.1.2)
    (breakdown_of (analyze db start_ms end_ms)) ∧
  zsum ((λ l, ms_count l.1.2) <$> breakdown_of (analyze db start_ms end_ms)) =
    Z.of_nat (length (E2E_QUERY db where_)) ∧
  zsum ((λ l, ms_bytes l.1.2) <$> breakdown_of (analyze db start_ms end_ms)) =
    zsum (bytes <$> E2E_QUERY db where_) ∧
  zsum ((λ l, ms_gpu_dma l.1.2) <$> breakdown_of (analyze db start_ms end_ms)) =
    zsum (gpu_dma_ns <$> E2E_QUERY db where_).
Proof.
  intros Hw. destruct (csv_of_rows _ _ _ _ Hw) as (_ & _ & ->).
  unfold mem_breakdown. set (rows := E2E_QUERY db where_).
  destruct (mem_stats_spec rows) as (Hnd & Hkeys & _).
  destruct (mem_stats_sums rows) as (Hc & Hb & Hd).
  assert (sort_by_desc (λ km : string * MemStats, ms_bytes km.2) (mem_stats rows)
          ≡ₚ mem_stats rows) as Hp
    by (unfold sort_by_desc; apply sort_by_perm).
  rewrite <- !list_fmap_compose.
  split; [|split; [|split; [|split; [|split]]]].
  - change ((λ l : string * MemStats * Qc, l.1.1) ∘
            (λ km : string * MemStats, (km, mem_bw km.2))) with
      (fst : string * MemStats → string).
    by rewrite Hp.
  - intros k.
    change ((λ l : string * MemStats * Qc, l.1.1) ∘
            (λ km : string * MemStats, (km, mem_bw km.2))) with
      (fst : string * MemStats → string).
    by rewrite Hp.
  - apply (StronglySorted_fmap _ (λ a b : string * MemStats,
             ms_bytes b.2 ≤ ms_bytes a.2)); [done|].
    apply sort_by_desc_sorted.
  - rewrite <- Hc. apply zsum_perm. by rewrite Hp.
  - rewrite <- Hb. apply zsum_perm. by rewrite Hp.
  - rewrite <- Hd. apply zsum_perm. by rewrite Hp.
Qed.

Lemma breakdown_partitions_rows_witness :
  zsum ((λ l, ms_count l.1.2) <$>
          breakdown_of (analyze Traces.with_instant_copy None None)) = 3.
Proof.
  destruct (breakdown_partitions_rows Traces.with_instant_copy None None
              (λ _, true)) as (_ & _ & _ & H & _); [reflexivity|].
  rewrite H. reflexivity.
Defined.

(** analyze raises only when a window is asked for on a trace that has
    neither kernels nor memcpys (no origin); otherwise it returns early
    exactly when no transfer of the window has an API call, and reports
    one record per joined row when it does not. *)
Theorem analyze_outcomes db start_ms end_ms :
  (analyze db start_ms end_ms = None ↔
     (is_Some start_ms ∨ is_Some end_ms) ∧
     kernels db = [] ∧ memcpys db = []) ∧
  (∀ where_, analyze_where (Origin.t0 db) start_ms end_ms = Some where_ →
     (analyze db start_ms end_ms = Some None ↔
        ∀ m r, m ∈ memcpys db → r ∈ runtime db →
               m_correlationId m = r_correlationId r → where_ m = false) ∧
     (∀ rep, analyze db start_ms end_ms = Some (Some rep) →
             n_rows rep = length (csv rep) ∧ (0 < n_rows rep)%nat)).
Proof.
  assert (Ht : Origin.t0 db = None ↔ kernels db = [] ∧ memcpys db = []).
  { unfold Origin.t0.
    destruct (sql_min (k_start <$> kernels db)) as [t|] eqn:Hk.
    - split; [done|]. intros [Hnil _]. rewrite Hnil in Hk. done.
    - apply sql_min_None, fmap_nil_inv in Hk. rewrite Hk.
      rewrite sql_min_None. split.
      + by intros ?%fmap_nil_inv.
      + by intros [_ ->]. }
  split.
  - unfold analyze, analyze_where, Origin.bound.
    destruct (Origin.t0 db) as [t|] eqn:Ht0.
    + split; [|intros (_ & Hnil); apply Ht in Hnil; done].
      destruct start_ms, end_ms; simpl; done.
    + rewrite <- Ht. destruct start_ms, end_ms; simpl; split; try done;
        try (intros _; split; [eauto | done]).
      intros [[[? ?]|[? ?]] _]; done.
  - intros w Hw. unfold analyze. rewrite Hw. simpl. split.
    + destruct (E2E_QUERY db w) as [|r0 rows] eqn:Hq.
      * split; [|done]. intros _ m r Hm Hr Hc.
        destruct (w m) eqn:Hwm; [|done]. exfalso.
        assert (e2e_select (StringIds db) (m, r) ∈ E2E_QUERY db w) as Hin
          by (apply elem_of_E2E_QUERY; eauto 10).
        rewrite Hq in Hin. by apply elem_of_nil in Hin.
      * split; [done|]. intros Hall. exfalso.
        assert (r0 ∈ E2E_QUERY db w) as Hin by (rewrite Hq; left).
        apply elem_of_E2E_QUERY in Hin as (m & r & Hm & Hr & Hc & Hwm & _).
        rewrite (Hall m r Hm Hr Hc) in Hwm. done.
    + intros rep. destruct (E2E_QUERY db w) as [|r0 rows]; [done|].
      intros [= <-]. simpl. rewrite length_fmap. split; [done | lia].
Qed.

Lemma analyze_outcomes_witness :
  analyze (Traces.mk_db [] [] []) (Some (of_int 0)) None = None ∧
  analyze (Traces.mk_db [] [] []) None None = Some None.
Proof.
  destruct (analyze_outcomes (Traces.mk_db [] [] []) (Some (of_int 0)) None)
    as [Hnone _].
  destruct (analyze_outcomes (Traces.mk_db [] [] []) None None) as [_ Hsome].
  split.
  - apply Hnone. split; [left; by eexists | done].
  - destruct (Hsome (λ _, true) eq_refl) as [He _]. apply He.
    intros m r Hm. by apply elem_of_nil in Hm.
Defined.

End BreakdownFacts.

(** ** Window bounds *)

Section WindowFacts.

Lemma py_int_ceiling (q : Qc) : (q ≤ Q2Qc 0)%Qc → py_int q = Qceiling q.
Proof.
  destruct q as [[n d] Hc]. unfold Qcle, py_int, Qceiling, Qfloor, Qle. simpl.
  intros Hn. rewrite <- (Z.opp_involutive n) at 1.
  rewrite Z.quot_opp_l by lia. f_equal. apply Z.quot_div_nonneg; lia.
Qed.

(** [int()] is monotone. *)
Lemma py_int_mono (x y : Qc) : (x ≤ y)%Qc → py_int x ≤ py_int y.
Proof.
  intros Hxy.
  destruct (Qclt_le_dec x (Q2Qc 0)) as [Hx|Hx];
    destruct (Qclt_le_dec y (Q2Qc 0)) as [Hy|Hy].
  - rewrite !py_int_ceiling by (by apply Qclt_le_weak).
    by apply Qceiling_resp_le.
  - rewrite py_int_ceiling by (by apply Qclt_le_weak).
    rewrite py_int_floor by done.
    transitivity 0.
    + change 0 with (Qceiling 0). apply Qceiling_resp_le.
      exact (Qclt_le_weak _ _ Hx).
    + change 0 with (Qfloor 0). apply Qfloor_resp_le. exact Hy.
  - exfalso. apply (Qclt_not_le _ _ Hy). by eapply Qcle_trans.
  - rewrite !py_int_floor by done. by apply Qfloor_resp_le.
Qed.

Lemma py_int_of_int (z : Z) : py_int (of_int z) = z.
Proof.
  destruct (Z_lt_le_dec z 0) as [Hz|Hz].
  - rewrite py_int_ceiling.
    + unfold of_int. simpl. rewrite (Qceiling_comp _ _ (Qred_correct _)).
      apply Qceiling_Z.
    + change (Q2Qc 0) with (of_int 0). apply of_int_le. lia.
  - rewrite py_int_floor.
    + unfold of_int. simpl. rewrite (Qfloor_comp _ _ (Qred_correct _)).
      apply Qfloor_Z.
    + change (Q2Qc 0) with (of_int 0). by apply of_int_le.
Qed.

Lemma of_int_mul (a b : Z) : (of_int a * of_int b)%Qc = of_int (a * b).
Proof.
  apply Qc_is_canon. unfold of_int. simpl.
  rewrite !Qred_correct. by rewrite inject_Z_mult.
Qed.

(** A window bound of a whole number of milliseconds is the origin plus
    that many million nanoseconds; a later bound in milliseconds is a later
    bound in nanoseconds, so a window [t1, t2] with t1 ≤ t2 is well formed;
    a bound that is not negative is not before the origin. *)
Theorem window_bounds (t0 : Z) :
  (∀ n : Z, Origin.bound (Some t0) (of_int n) = Some (t0 + n * 1000000)) ∧
  (∀ t1 t2 lo hi, (t1 ≤ t2)%Qc →
     Origin.bound (Some t0) t1 = Some lo →
     Origin.bound (Some t0) t2 = Some hi → lo ≤ hi) ∧
  (∀ t1 lo, (Q2Qc 0 ≤ t1)%Qc →
     Origin.bound (Some t0) t1 = Some lo → t0 ≤ lo).
Proof.
  unfold Origin.bound. simpl. split; [|split].
  - intros n. unfold f1e6. by rewrite of_int_mul, py_int_of_int.
  - intros t1 t2 lo hi Hle [= <-] [= <-].
    assert (py_int (t1 * f1e6) ≤ py_int (t2 * f1e6)); [|lia].
    apply py_int_mono. by apply Qcmult_le_mono_pos_r; [apply f1e6_pos|].
  - intros t1 lo Hle [= <-].
    assert (py_int (Q2Qc 0 * f1e6) ≤ py_int (t1 * f1e6)) as H.
    { apply py_int_mono. by apply Qcmult_le_mono_pos_r; [apply f1e6_pos|]. }
    replace (Q2Qc 0 * f1e6)%Qc with (of_int 0) in H
      by (apply Qc_is_canon; reflexivity).
    rewrite py_int_of_int in H. lia.
Qed.

Lemma window_bounds_witness :
  Origin.bound (Some 40) (of_int 2) = Some 2000040 ∧ 40 ≤ 2000040.
Proof.
  destruct (window_bounds 40) as (Hn & Hmono & _).
  split; [apply Hn|].
  apply (Hmono (of_int 0) (of_int 2) 40 2000040).
  - by vm_compute.
  - reflexivity.
  - apply Hn.
Defined.

(** The window bound as Python computes it, with the product ms * 1e6
    rounded to binary64, against the bound with the exact product: for a
    float ms >= 0 with ms * 1e6 < 2^53 the two differ by at most one
    nanosecond, the computed one being the greater when the product rounds
    up to a whole number, and they are equal when the product is itself a
    float, as it is for every whole number of milliseconds. *)
Theorem window_bound_rounding (t0 : Z) (ms : Qc) :
  Binary64.is_float ms → (Q2Qc 0 ≤ ms)%Qc →
  (ms * f1e6 < of_int (2 ^ 53))%Qc →
  (∃ lo lo64,
     Origin.bound (Some t0) ms = Some lo ∧
     Origin.bound64 (Some t0) ms = Some lo64 ∧
     lo ≤ lo64 ≤ lo + 1 ∧
     (lo64 = lo + 1 → Binary64.mul ms f1e6 = of_int (lo64 - t0)) ∧
     (Binary64.is_float (ms * f1e6)%Qc → lo64 = lo)) ∧
  (∀ n, 0 ≤ n → n * 1000000 < 2 ^ 53 →
        Origin.bound64 (Some t0) (of_int n) = Some (t0 + n * 1000000)).
Proof.
  intros Hf H0 Hq.
  assert (Binary64.round f1e6 = f1e6) as Hf6
    by (unfold f1e6; apply round_int; lia).
  unfold Binary64.is_float in Hf.
  split.
  - assert (Binary64.mul ms f1e6 = Binary64.round (ms * f1e6)) as Hmul
      by (unfold Binary64.mul; by rewrite Hf, Hf6).
    assert (Q2Qc 0 ≤ ms * f1e6)%Qc as Hq0.
    { replace (Q2Qc 0) with (Q2Qc 0 * f1e6)%Qc by ring.
      apply Qcmult_le_mono_pos_r; [apply f1e6_pos | done]. }
    destruct (int_round_bounds _ Hq0 Hq) as (Hb & Hup & _).
    unfold Origin.bound, Origin.bound64. cbn [mbind option_bind].
    rewrite Hmul.
    rewrite (py_int_floor (ms * f1e6)) by done.
    eexists _, _. split; [reflexivity|]. split; [reflexivity|].
    split; [lia|]. split.
    + intros Heq. rewrite Hup by lia. rewrite py_int_of_int. f_equal. lia.
    + intros Hfq. rewrite Hfq. rewrite (py_int_floor (ms * f1e6)) by done.
      done.
  - intros n Hn0 Hn. unfold Origin.bound64, Binary64.mul.
    cbn [mbind option_bind]. rewrite (round_int n) by lia. rewrite Hf6. unfold f1e6.
    rewrite of_int_mul, round_int by lia. by rewrite py_int_of_int.
Qed.

Lemma window_bound_rounding_witness :
  Origin.bound64 (Some 40) (Binary64.round (Q2Qc (1001 # 1000)))
    = Some 1001039 ∧
  ∃ lo, Origin.bound (Some 40) (Binary64.round (Q2Qc (1001 # 1000)))
          = Some lo ∧ lo ≤ 1001039 ≤ lo + 1.
Proof.
  destruct (window_bound_rounding 40 (Binary64.round (Q2Qc (1001 # 1000))))
    as [(lo & lo64 & Hb & Hb64 & Hle & _) _].
  - apply Qc_is_canon. by vm_compute.
  - by vm_compute.
  - by vm_compute.
  - assert (Origin.bound64 (Some 40) (Binary64.round (Q2Qc (1001 # 1000)))
            = Some 1001039) as H64 by (by vm_compute).
    split; [exact H64|]. rewrite H64 in Hb64. injection Hb64 as <-.
    exists lo. split; [exact Hb | exact Hle].
Defined.

End WindowFacts.

(** ** The rows of the pairing *)

Section PairRowsFacts.
Import Pairing.

Lemma StronglySorted_lookup {A} (R : relation A) (l : list A) i j a b :
  StronglySorted R l → (i < j)%nat →
  l !! i = Some a → l !! j = Some b → R a b.
Proof.
  intros Hs Hij Ha Hb.
  rewrite <- (take_drop_middle l j b Hb) in Hs.
  eapply (StronglySorted_app_1_elem_of _ _ _ a b Hs).
  - apply elem_of_take. eauto.
  - left.
Qed.

Lemma ev_omap_imap (g : nat → Event → option Pair) (l : list Event) :
  (∀ i e, is_kernel e = true → g i e = None) →
  (∀ i e, is_kernel e = false → ∃ p, g i e = Some p ∧ ev p = e) →
  ev <$> omap id (imap g l) = filter (λ e, is_kernel e = false) l.
Proof.
  revert g. induction l as [|e l IH]; intros g Hk Hm; [done|].
  rewrite imap_cons, filter_cons. cbn [omap list_omap id].
  destruct (is_kernel e) eqn:He.
  - rewrite (Hk 0%nat e He), decide_False by done.
    apply IH; intros i e'; [apply Hk | apply Hm].
  - destruct (Hm 0%nat e He) as (p & -> & Hp).
    rewrite decide_True, fmap_cons, Hp by done. f_equal.
    apply IH; intros i e'; [apply Hk | apply Hm].
Qed.

(** The rows are the memcpys of the timeline, in its order. *)
Lemma ev_pairs (events : list Event) :
  ev <$> pairs events = filter (λ e, is_kernel e = false) events.
Proof.
  unfold pairs. apply ev_omap_imap.
  - intros i e He. by destruct e.
  - intros i e He. destruct e; [done|]. by eexists.
Qed.

(** main raises exactly on a trace without any kernel.  Otherwise it
    writes one row for each memcpy that overlaps the window, in start
    order. *)
Theorem pairs_one_row_per_memcpy db t1 t2 :
  (main db t1 t2 = None ↔ kernels db = []) ∧
  ∀ rows, main db t1 t2 = Some rows →
    ∃ lo hi,
      Origin.bound (Origin.t0_pairs db) t1 = Some lo ∧
      Origin.bound (Origin.t0_pairs db) t2 = Some hi ∧
      ev <$> rows =
        of_memcpy <$>
          sort_by m_start
            (filter (λ m, lo ≤ m_end m ∧ m_start m ≤ hi) (memcpys db)).
Proof.
  split; [apply main_None|].
  intros rows (lo & hi & Hlo & Hhi & ->)%main_Some.
  exists lo, hi. split; [done|]. split; [done|].
  rewrite ev_pairs. unfold timeline. rewrite filter_sort_by, filter_app.
  rewrite (filter_none _ (of_kernel _ <$> _));
    [|by intros e (k & -> & _)%list_elem_of_fmap].
  rewrite app_nil_l.
  rewrite (filter_ext_elem _ (λ _, True));
    [|by intros e (m & -> & _)%list_elem_of_fmap].
  assert (∀ l : list Event, filter (λ _, True) l = l) as Hall.
  { intros l. induction l as [|z l IHl]; [done|].
    by rewrite filter_cons, decide_True, IHl. }
  rewrite Hall, sort_by_fmap.
  change (ev_start ∘ of_memcpy) with m_start.
  rewrite (sort_by_sorted_id m_start (sort_by m_start _)); [done|].
  apply sort_by_sorted.
Qed.

Lemma pairs_one_row_per_memcpy_witness :
  ∃ rows,
    main Traces.two_copies_then_kernel (of_int (-1)) (of_int 1) = Some rows ∧
    length rows = 2%nat.
Proof.
  destruct (pairs_one_row_per_memcpy Traces.two_copies_then_kernel
              (of_int (-1)) (of_int 1)) as [_ H].
  eexists. split; [vm_compute; reflexivity|].
  match goal with |- length ?r = _ =>
    destruct (H r) as (lo & hi & Hlo & Hhi & Hev); [vm_compute; reflexivity|]
  end.
  injection Hlo as <-. injection Hhi as <-.
  rewrite <- (length_fmap ev), Hev. reflexivity.
Defined.

(** In a row, the previous kernel is a kernel of the transfer's stream
    that starts no later than the transfer, and the next kernel one that
    starts no earlier. *)
Theorem neighbours_in_start_order names ks ms p :
  p ∈ pairs (timeline names ks ms) →
  (∀ k, prev_kernel p = Some k →
        is_kernel k = true ∧ ev_stream k = ev_stream (ev p) ∧
        ev_start k ≤ ev_start (ev p)) ∧
  (∀ n, next_kernel p = Some n →
        is_kernel n = true ∧ ev_stream n = ev_stream (ev p) ∧
        ev_start (ev p) ≤ ev_start n).
Proof.
  intros (i & e & He & Hp)%elem_of_pairs.
  pose proof (lookup_lt_Some _ _ _ He) as Hlt.
  destruct (timeline_sorted names ks ms) as [Hs _].
  apply pair_at_fields in Hp as (-> & _ & Hprev & Hnext & _).
  split.
  - intros k Hk. rewrite Hk in Hprev.
    pose proof (prev_nearest (timeline names ks ms) (ev_stream e) i) as Hn.
    rewrite <- Hprev in Hn. destruct Hn as (j & Hj & Hjk & Hon & _); [lia|].
    unfold kernel_on in Hon. apply andb_true_iff in Hon as [Hker Hst].
    apply bool_decide_eq_true in Hst. split; [done|]. split; [done|].
    apply (StronglySorted_lookup _ _ j i k e Hs Hj Hjk He).
  - intros n Hn'. rewrite Hn' in Hnext.
    pose proof (next_nearest (timeline names ks ms) (ev_stream e) i Hlt) as Hn.
    rewrite <- Hnext in Hn. destruct Hn as (j & Hj & Hjk & Hon & _).
    unfold kernel_on in Hon. apply andb_true_iff in Hon as [Hker Hst].
    apply bool_decide_eq_true in Hst. split; [done|]. split; [done|].
    apply (StronglySorted_lookup _ _ i j e n Hs Hj He Hjk).
Qed.

Lemma neighbours_in_start_order_witness :
  ∃ p, p ∈ pairs (timeline (StringIds Traces.scenario)
                    (kernels Traces.scenario) (memcpys Traces.scenario)) ∧
       ∃ k, prev_kernel p = Some k ∧ ev_start k ≤ ev_start (ev p).
Proof.
  eexists. split; [vm_compute; apply list_elem_of_here|].
  match goal with |- ∃ k, prev_kernel ?p = _ ∧ _ =>
    destruct (neighbours_in_start_order (StringIds Traces.scenario)
                (kernels Traces.scenario) (memcpys Traces.scenario) p)
      as [Hprev _]; [vm_compute; apply list_elem_of_here|]
  end.
  eexists. split; [reflexivity|]. by apply Hprev.
Defined.

(** Whenever main returns, that is on a trace with a kernel, its rows are
    those of the pairing loop on the timeline of the window: every memcpy
    of the timeline has a row and every row is of such a memcpy, with the
    nearest kernel of its stream before it as previous kernel and the
    nearest one after it as next kernel, either side empty when the stream
    has no kernel there, and the gaps start - prev.end and
    next.start - end (over 1e6), empty with their side. *)
Theorem pairing_rows_nearest_kernels db t1 t2 rows :
  main db t1 t2 = Some rows →
  ∃ lo hi events,
    Origin.bound (Origin.t0_pairs db) t1 = Some lo ∧
    Origin.bound (Origin.t0_pairs db) t2 = Some hi ∧
    events =
      timeline (StringIds db)
        (sort_by k_start
           (filter (λ k, lo ≤ k_end k ∧ k_start k ≤ hi) (kernels db)))
        (sort_by m_start
           (filter (λ m, lo ≤ m_end m ∧ m_start m ≤ hi) (memcpys db))) ∧
    StronglySorted (key_le ev_start) events ∧
    (∀ i e, events !! i = Some e → is_kernel e = false →
            ∃ p, p ∈ rows ∧ ev p = e ∧
                 nearest_before events (ev_stream e) i (prev_kernel p) ∧
                 nearest_after events (ev_stream e) i (next_kernel p)) ∧
    (∀ p, p ∈ rows →
       ∃ i, events !! i = Some (ev p) ∧ is_kernel (ev p) = false ∧
            nearest_before events (ev_stream (ev p)) i (prev_kernel p) ∧
            nearest_after events (ev_stream (ev p)) i (next_kernel p) ∧
            gap_before p =
              (λ k, (of_int (ev_start (ev p) - ev_end k) / f1e6)%Qc)
                <$> prev_kernel p ∧
            gap_after p =
              (λ k, (of_int (ev_start k - ev_end (ev p)) / f1e6)%Qc)
                <$> next_kernel p).
Proof.
  intros (lo & hi & Hlo & Hhi & ->)%main_Some.
  eexists lo, hi, _. split; [done|]. split; [done|]. split; [reflexivity|].
  set (events := timeline _ _ _).
  split; [apply timeline_sorted|]. split.
  - intros i e Hi Hk.
    destruct (pair_at events i e) as [p|] eqn:Hp;
      [|by destruct e].
    exists p. split; [apply elem_of_pairs; eauto|].
    pose proof (lookup_lt_Some _ _ _ Hi) as Hlt.
    apply pair_at_fields in Hp as (He & _ & Hprev & Hnext & _).
    split; [done|]. rewrite Hprev, Hnext.
    split; [apply prev_nearest; lia | by apply next_nearest].
  - intros p (i & e & Hi & Hp)%elem_of_pairs.
    pose proof (lookup_lt_Some _ _ _ Hi) as Hlt.
    apply pair_at_fields in Hp as (He & Hk & Hprev & Hnext & Hgb & Hga).
    exists i. rewrite He. split; [done|]. split; [done|].
    split; [rewrite Hprev; apply prev_nearest; lia|].
    split; [rewrite Hnext; by apply next_nearest|]. done.
Qed.

Lemma pairing_rows_nearest_kernels_witness :
  ∃ rows, main Traces.scenario (of_int 0) (of_int 1) = Some rows ∧
          length rows = 1%nat ∧
          ∀ p, p ∈ rows → is_kernel (ev p) = false.
Proof.
  eexists. split; [vm_compute; reflexivity|]. split; [reflexivity|].
  intros p Hp.
  match type of Hp with
  | p ∈ ?rows =>
      destruct (pairing_rows_nearest_kernels Traces.scenario
                  (of_int 0) (of_int 1) rows eq_refl)
        as (lo & hi & events & _ & _ & _ & _ & _ & Hrows)
  end.
  destruct (Hrows p Hp) as (i & _ & Hk & _). exact Hk.
Defined.

End PairRowsFacts.

(** ** What binning keeps *)

Section BinConservationFacts.
Import Aggregator.

Lemma group_insert_sizes k r (gs : list (Key * list Row)) :
  zsum ((λ g, Z.of_nat (length g.2)) <$> group_insert k r gs) =
  zsum ((λ g, Z.of_nat (length g.2)) <$> gs) + 1.
Proof.
  induction gs as [|[k' ms] gs IH]; [done|].
  cbn [group_insert]. destruct (decide (k = k')); [|destruct (decide (key_lt k k'))].
  - rewrite !fmap_cons, !zsum_cons. cbn [snd]. rewrite length_app. simpl. lia.
  - rewrite !fmap_cons, !zsum_cons. simpl. lia.
  - rewrite !fmap_cons, !zsum_cons, IH. lia.
Qed.

Lemma groupby_sizes (keyf : Row → Key) (rows : list Row) :
  zsum ((λ g, Z.of_nat (length g.2)) <$> groupby keyf rows) =
  Z.of_nat (length rows).
Proof.
  unfold groupby. induction rows as [|r rows IH] using rev_ind; [done|].
  rewrite foldl_app. cbn [foldl]. rewrite group_insert_sizes, IH, length_app.
  simpl. lia.
Qed.

Lemma agg_counts kernels bin_ms :
  b_count <$> agg kernels bin_ms =
  (λ g, Z.of_nat (length g.2)) <$> groupby (key_of bin_ms) kernels.
Proof.
  unfold agg.
  destruct (groupby_spec (key_of bin_ms) kernels) as (_ & _ & Hg).
  induction (groupby (key_of bin_ms) kernels) as [|[k ms] gs IH]; [done|].
  destruct (Hg k ms) as [_ Hne]; [left|].
  destruct (agg_group_is_Some k ms Hne) as [b Hb].
  cbn [omap list_omap]. rewrite Hb. rewrite !fmap_cons. cbn [snd].
  apply agg_group_fields in Hb as (_ & -> & _). f_equal.
  apply IH. intros k' ms' Hin. apply Hg. by right.
Qed.

(** Binning loses no kernel and no memcpy: the counts of the bins add up
    to the number of kernel rows, every bin counts at least one kernel, so
    there are no more bins than kernels, and the memcpy rows are passed on
    as they are. *)
Theorem binning_conserves_events df bin_ms :
  zsum (b_count <$> (bin_events df bin_ms).1) =
    Z.of_nat (length (of_type kernel df)) ∧
  (∀ b, b ∈ (bin_events df bin_ms).1 → 1 ≤ b_count b) ∧
  (length (bin_events df bin_ms).1 ≤ length (of_type kernel df))%nat ∧
  (bin_events df bin_ms).2 = of_type memcpy df.
Proof.
  destruct (bin_events_bins df bin_ms) as [-> ->].
  assert (Hone : ∀ b, b ∈ agg (of_type kernel df) bin_ms → 1 ≤ b_count b).
  { intros b (ms & _ & Hne & Hb)%elem_of_agg.
    apply agg_group_fields in Hb as (_ & -> & _).
    destruct ms; [done | simpl; lia]. }
  assert (Hsum : zsum (b_count <$> agg (of_type kernel df) bin_ms) =
                 Z.of_nat (length (of_type kernel df)))
    by (rewrite agg_counts; apply groupby_sizes).
  split; [done|]. split; [done|]. split; [|done].
  assert (∀ l : list Bin, (∀ b, b ∈ l → 1 ≤ b_count b) →
            Z.of_nat (length l) ≤ zsum (b_count <$> l)) as Hlen.
  { induction l as [|b l IH]; intros Hl; [done|].
    rewrite fmap_cons, zsum_cons. simpl.
    assert (1 ≤ b_count b) by (apply Hl; left).
    assert (Z.of_nat (length l) ≤ zsum (b_count <$> l))
      by (apply IH; intros b' Hb'; apply Hl; by right).
    lia. }
  specialize (Hlen _ Hone). lia.
Qed.

(** The bins come out in strictly ascending order of (stream, bin). *)
Theorem bins_in_key_order df bin_ms :
  StronglySorted key_lt (bin_key <$> (bin_events df bin_ms).1).
Proof.
  destruct (bin_events_bins df bin_ms) as [-> _]. rewrite agg_keys.
  apply groupby_spec.
Qed.

Lemma Qc_le_this (n : Z) (q : Qc) :
  (of_int n ≤ q)%Qc ↔ (inject_Z n <= q)%Q.
Proof. unfold Qcle, of_int. simpl. by rewrite Qred_correct. Qed.

Lemma Qc_lt_this (n : Z) (q : Qc) :
  (q < of_int n)%Qc ↔ (q < inject_Z n)%Q.
Proof. unfold Qclt, of_int. simpl. by rewrite Qred_correct. Qed.

Lemma Qcdiv_mul (a b : Qc) : (Q2Qc 0 < b)%Qc → (a / b * b)%Qc = a.
Proof.
  intros Hb. field. intros ->. by apply (Qclt_not_le _ _ Hb), Qcle_refl.
Qed.

(** On floats, a later start never has a smaller bin index. *)
Lemma bin_of_mono (bin_ms : Qc) (r r' : Row) :
  Binary64.is_float bin_ms → (Q2Qc 0 < bin_ms)%Qc →
  Binary64.is_float (start_ms r) → Binary64.is_float (start_ms r') →
  (Q2Qc 0 ≤ start_ms r)%Qc → (start_ms r ≤ start_ms r')%Qc →
  bin_of bin_ms r ≤ bin_of bin_ms r'.
Proof.
  intros HfW HW Hf Hf' Hs Hle. unfold bin_of.
  rewrite (div_float _ _ Hf HfW), (div_float _ _ Hf' HfW).
  apply py_int_mono, round_mono; [by apply Qcdiv_nonneg|].
  unfold Qcdiv. apply Qcmult_le_mono_pos_r; [by apply Qcinv_pos | done].
Qed.

(** For a frame of floats with a positive width, starts that are not
    negative and quotients below 2^53: the start of a bin is below the end
    of the window of its index, (bin + 1) * W, and not below the start of
    that window, bin * W, by more than one part in 2^53 (the index is of a
    binary64 quotient); on one stream a bin of greater index starts later.
    When no kernel ends before it starts, no bin does, and its duration is
    not negative. *)
Theorem bin_starts_near_their_window df bin_ms :
  Binary64.is_float bin_ms → (Q2Qc 0 < bin_ms)%Qc →
  (∀ r, r ∈ of_type kernel df →
        Binary64.is_float (start_ms r) ∧ (Q2Qc 0 ≤ start_ms r)%Qc ∧
        (start_ms r / bin_ms < of_int (2 ^ 53))%Qc) →
  (∀ b, b ∈ (bin_events df bin_ms).1 →
     (b_start_ms b < of_int (b_bin b + 1) * bin_ms)%Qc ∧
     (of_int (b_bin b) * bin_ms ≤
      b_start_ms b * (of_int 1 + Binary64.pow2 (-53)))%Qc ∧
     Qfloor (b_start_ms b / bin_ms)%Qc ≤ b_bin b ≤
       Qfloor (b_start_ms b / bin_ms)%Qc + 1) ∧
  (∀ b b', b ∈ (bin_events df bin_ms).1 → b' ∈ (bin_events df bin_ms).1 →
     b_stream_id b = b_stream_id b' → b_bin b < b_bin b' →
     (b_start_ms b < b_start_ms b')%Qc) ∧
  ((∀ r, r ∈ of_type kernel df → (start_ms r ≤ end_ms r)%Qc) →
   ∀ b, b ∈ (bin_events df bin_ms).1 →
        (b_start_ms b ≤ b_end_ms b)%Qc ∧ (Q2Qc 0 ≤ b_duration_ms b)%Qc).
Proof.
  intros HfW HW Hrows. destruct (bin_events_bins df bin_ms) as [-> _].
  assert (Hfirst : ∀ b, b ∈ agg (of_type kernel df) bin_ms →
            ∃ r, r ∈ of_type kernel df ∧ start_ms r = b_start_ms b ∧
                 bin_of bin_ms r = b_bin b).
  { intros b (ms & Hms & Hne & Hb)%elem_of_agg.
    apply agg_group_fields in Hb as (_ & _ & Hlo & _).
    apply col_min_spec in Hlo as [Hin _].
    apply list_elem_of_fmap in Hin as (r & Hr & Hin). rewrite Hms in Hin.
    apply list_elem_of_filter in Hin as [Hkey Hin].
    unfold key_of, bin_key in Hkey. injection Hkey as _ Hbin.
    exists r. by rewrite Hr. }
  split; [|split].
  - intros b Hb. destruct (Hfirst b Hb) as (r & Hr & Hst & Hbin).
    destruct (Hrows r Hr) as (Hf & Hs0 & Hq).
    destruct (bin_of_bounds bin_ms r HfW HW Hf Hs0 Hq)
      as (Hfl & _ & Hhi & Hlo).
    rewrite <- Hst, <- Hbin. done.
  - intros b b' Hb Hb' _ Hlt.
    destruct (Hfirst b Hb) as (r & Hr & Hst & Hbin).
    destruct (Hfirst b' Hb') as (r' & Hr' & Hst' & Hbin').
    destruct (Hrows r Hr) as (Hf & Hs0 & _).
    destruct (Hrows r' Hr') as (Hf' & Hs0' & _).
    rewrite <- Hst, <- Hst'. rewrite <- Hbin, <- Hbin' in Hlt.
    destruct (Qclt_le_dec (start_ms r) (start_ms r')) as [?|Hle]; [done|].
    pose proof (bin_of_mono bin_ms r' r HfW HW Hf' Hf Hs0' Hle). lia.
  - intros Hse b (ms & Hms & Hne & Hb)%elem_of_agg.
    apply agg_group_fields in Hb as (_ & _ & Hlo & Hhi & _ & _ & _ & Hdur).
    apply col_min_spec in Hlo as [_ Hlo].
    apply col_max_spec in Hhi as [_ Hhi].
    destruct ms as [|r ms']; [done|].
    assert (r ∈ of_type kernel df) as Hr.
    { assert (r ∈ r :: ms') as Hin by left. rewrite Hms in Hin.
      by apply list_elem_of_filter in Hin as [_ ?]. }
    assert (b_start_ms b ≤ b_end_ms b)%Qc as Hle.
    { eapply Qcle_trans; [apply (Hlo (start_ms r)); left|].
      eapply Qcle_trans; [apply (Hse r Hr)|]. apply (Hhi (end_ms r)). left. }
    split; [done|]. rewrite Hdur.
    apply (Qcplus_le_mono_r _ _ (b_start_ms b)).
    replace (Q2Qc 0 + b_start_ms b)%Qc with (b_start_ms b) by ring.
    replace (b_end_ms b - b_start_ms b + b_start_ms b)%Qc with (b_end_ms b)
      by ring.
    done.
Qed.

Lemma bin_starts_near_their_window_witness :
  ∃ b, b ∈ (bin_events MoreTraces.starts_at_one MoreTraces.tenth).1 ∧
       b_bin b = 10 ∧
       (b_start_ms b < of_int 11 * MoreTraces.tenth)%Qc ∧
       (of_int 10 * MoreTraces.tenth ≤
        b_start_ms b * (of_int 1 + Binary64.pow2 (-53)))%Qc.
Proof.
  destruct (bin_starts_near_their_window MoreTraces.starts_at_one
              MoreTraces.tenth) as (Hwin & _ & _).
  - apply Qc_is_canon. by vm_compute.
  - by vm_compute.
  - intros r Hr. vm_compute in Hr.
    apply list_elem_of_singleton in Hr as ->.
    split; [apply Qc_is_canon; by vm_compute|]. split; by vm_compute.
  - eexists. split; [vm_compute; apply list_elem_of_here|].
    match goal with |- b_bin ?b = _ ∧ _ =>
      destruct (Hwin b) as (Hhi & Hlo & _);
        [vm_compute; apply list_elem_of_here|]
    end.
    split; [reflexivity|]. split; [exact Hhi | exact Hlo].
Defined.

Lemma kernel_record_start_nonneg_witness :
  (Q2Qc 0 ≤ start_ms (kernel_record 0 ∅ EmptyString
                         (Traces.mk_kernel 50 60 1)))%Qc.
Proof.
  apply (kernel_record_start_nonneg Traces.scenario).
  - reflexivity.
  - vm_compute. right. left.
Defined.

End BinConservationFacts.

(** ** Kernel names *)

Section NameFacts.

Lemma chars_app (s1 s2 : string) : chars (s1 +:+ s2) = chars s1 ++ chars s2.
Proof. induction s1 as [|a s1 IH]; [done|]. simpl. by rewrite IH. Qed.

Lemma before_char_chars (c : ascii) (s : string) (a : ascii) :
  a ∈ chars (before_char c s) → a ≠ c ∧ a ∈ chars s.
Proof.
  induction s as [|b s IH]; simpl; [by intros ?%elem_of_nil|].
  case_decide as Hb; [by intros ?%elem_of_nil|].
  simpl. intros [->|Ha]%elem_of_cons.
  - split; [done | left].
  - destruct (IH Ha). split; [done | by right].
Qed.

Lemma before_char_absent (c : ascii) (s : string) :
  c ∉ chars s → before_char c s = s.
Proof.
  induction s as [|b s IH]; simpl; [done|]. intros Hc.
  rewrite decide_False by (intros ->; apply Hc; left).
  rewrite IH; [done|]. intros Hin. apply Hc. by right.
Qed.

Lemma before_char_app (c : ascii) (s t : string) :
  c ∉ chars s → before_char c (s +:+ String c t) = s.
Proof.
  induction s as [|b s IH]; simpl; intros Hc.
  - by rewrite decide_True.
  - rewrite decide_False by (intros ->; apply Hc; left).
    rewrite IH; [done|]. intros Hin. apply Hc. by right.
Qed.

Lemma split_colons_cons2 (a b : ascii) (rest : string) :
  split_colons (String a (String b rest)) =
  if decide (a = ":"%char ∧ b = ":"%char)
  then EmptyString :: split_colons rest
  else match split_colons (String b rest) with
       | p :: ps => String a p :: ps
       | [] => [String a EmptyString]
       end.
Proof. reflexivity. Qed.

Lemma split_colons_nonempty (s : string) : split_colons s ≠ [].
Proof.
  destruct s as [|a [|b rest]]; [done..|]. rewrite split_colons_cons2.
  case_decide; [done|]. by destruct (split_colons (String b rest)).
Qed.

(** The characters of the parts are characters of the string. *)
Lemma split_colons_chars (n : nat) (s : string) :
  (String.length s ≤ n)%nat →
  ∀ p a, p ∈ split_colons s → a ∈ chars p → a ∈ chars s.
Proof.
  revert s. induction n as [|n IH]; intros s Hn p a.
  - destruct s; [|simpl in Hn; lia]. simpl.
    intros ->%list_elem_of_singleton. done.
  - destruct s as [|c [|b rest]].
    + simpl. intros ->%list_elem_of_singleton. done.
    + simpl. intros ->%list_elem_of_singleton. done.
    + rewrite split_colons_cons2. simpl in Hn. case_decide as Hcc.
      * intros [->|Hp]%elem_of_cons; [by intros ?%elem_of_nil|].
        intros Ha. do 2 right. apply (IH rest ltac:(lia) p a); done.
      * pose proof (IH (String b rest)) as IH'.
        destruct (split_colons (String b rest)) as [|p0 ps] eqn:Hsp.
        -- intros ->%list_elem_of_singleton. simpl.
           intros [->|?%elem_of_nil]%elem_of_cons; [left | done].
        -- intros [->|Hp]%elem_of_cons.
           ++ simpl. intros [->|Ha]%elem_of_cons; [left|].
              right. apply (IH' ltac:(simpl; lia) p0 a); [left | done].
           ++ intros Ha. right.
              apply (IH' ltac:(simpl; lia) p a); [by right | done].
Qed.

Lemma last_two_chars (parts : list string) (a : ascii) :
  a ∈ chars (last_two parts) →
  a = ":"%char ∨ ∃ p, p ∈ parts ∧ a ∈ chars p.
Proof.
  unfold last_two. destruct (reverse parts) as [|z [|y l]] eqn:Hr.
  - by intros ?%elem_of_nil.
  - intros Ha. right. exists z. split; [|done].
    apply elem_of_reverse. rewrite Hr. left.
  - rewrite !chars_app. simpl.
    intros [Ha|[->|[->|Ha]%elem_of_cons]%elem_of_cons]%elem_of_app.
    + right. exists y. split; [|done].
      apply elem_of_reverse. rewrite Hr. right. left.
    + by left.
    + by left.
    + right. exists z. split; [|done].
      apply elem_of_reverse. rewrite Hr. left.
Qed.

(** The short name of a kernel holds no template or argument list:
    neither ['<'] nor ['('] occurs in it, whatever the demangled name. *)
Theorem short_name_has_no_brackets (demangled : option string) (a : ascii) :
  a ∈ chars (short_name demangled) → a ≠ "<"%char ∧ a ≠ "("%char.
Proof.
  assert (Hu : a ∈ chars "unknown" → a ≠ "<"%char ∧ a ≠ "("%char).
  { simpl. intros Ha.
    repeat (apply elem_of_cons in Ha as [->|Ha]; [by split|]).
    by apply elem_of_nil in Ha. }
  destruct demangled as [[|c d]|]; [done| |done].
  unfold short_name. intros Ha.
  apply last_two_chars in Ha as [->|(p & Hp & Ha)]; [by split|].
  eapply (split_colons_chars _ _ (le_n _)) in Ha; [|exact Hp].
  apply before_char_chars in Ha as [Hne1 Ha].
  apply before_char_chars in Ha as [Hne2 _]. done.
Qed.

Lemma short_name_has_no_brackets_witness :
  short_name (Some "void at::native::vectorized_kernel<4, float>(int)"%string) =
  "native::vectorized_kernel"%string ∧
  ∀ a, a ∈ chars "native::vectorized_kernel" → a ≠ "<"%char ∧ a ≠ "("%char.
Proof.
  split; [reflexivity|]. intros a Ha.
  apply (short_name_has_no_brackets
           (Some "void at::native::vectorized_kernel<4, float>(int)"%string)).
  exact Ha.
Defined.

End NameFacts.

Section NameComponentFacts.

Lemma before_char_app_absent (c : ascii) (s u : string) :
  c ∉ chars s → before_char c (s +:+ u) = (s +:+ before_char c u)%string.
Proof.
  induction s as [|b s IH]; simpl; intros Hc; [done|].
  rewrite decide_False by (intros ->; apply Hc; left).
  rewrite IH; [done|]. intros Hin. apply Hc. by right.
Qed.

Lemma join_colons_cons2 (p q : string) (ps : list string) :
  join_colons (p :: q :: ps) = (p +:+ "::" +:+ join_colons (q :: ps))%string.
Proof. reflexivity. Qed.

Lemma join_colons_cons_char (a : ascii) (p : string) (ps : list string) :
  join_colons (String a p :: ps) = String a (join_colons (p :: ps)).
Proof. by destruct ps. Qed.

Lemma join_colons_chars (ps : list string) (a : ascii) :
  a ∈ chars (join_colons ps) →
  a = ":"%char ∨ ∃ p, p ∈ ps ∧ a ∈ chars p.
Proof.
  induction ps as [|p ps IH]; [by intros ?%elem_of_nil|].
  destruct ps as [|q ps].
  - simpl. intros Ha. right. exists p. split; [left | done].
  - rewrite join_colons_cons2, !chars_app.
    intros [Ha|Ha]%elem_of_app.
    + right. exists p. split; [left | done].
    + simpl in Ha. apply elem_of_cons in Ha as [->|Ha]; [by left|].
      apply elem_of_cons in Ha as [->|Ha]; [by left|].
      destruct (IH Ha) as [->|(p' & Hp' & Ha')]; [by left|].
      right. exists p'. split; [by right | done].
Qed.

(** Joining the parts of a split gives the string back. *)
Lemma join_split_colons (n : nat) (s : string) :
  (String.length s ≤ n)%nat → join_colons (split_colons s) = s.
Proof.
  revert s. induction n as [|n IH]; intros s Hn.
  - by destruct s; [|simpl in Hn; lia].
  - destruct s as [|a [|b rest]]; [done..|].
    rewrite split_colons_cons2. simpl in Hn. case_decide as Hcc.
    + destruct Hcc as [-> ->].
      pose proof (split_colons_nonempty rest) as Hne.
      pose proof (IH rest ltac:(lia)) as Hrest.
      destruct (split_colons rest) as [|p ps]; [done|].
      by rewrite join_colons_cons2, Hrest.
    + pose proof (IH (String b rest) ltac:(simpl; lia)) as Hrest.
      pose proof (split_colons_nonempty (String b rest)) as Hne.
      destruct (split_colons (String b rest)) as [|p ps]; [done|].
      by rewrite join_colons_cons_char, Hrest.
Qed.

(** Splitting a join of parts without colons gives the parts back. *)
Lemma split_join_colons (ps : list string) :
  ps ≠ [] → (∀ p, p ∈ ps → ":"%char ∉ chars p) →
  split_colons (join_colons ps) = ps.
Proof.
  induction ps as [|p ps IH]; [done|]. intros _ Hclean.
  assert (Hps : ps ≠ [] → split_colons (join_colons ps) = ps).
  { intros Hne. apply IH; [done|]. intros q Hq. apply Hclean. by right. }
  assert (Hp : ":"%char ∉ chars p) by (apply Hclean; left).
  clear IH Hclean. induction p as [|a p IHp].
  - destruct ps as [|q ps]; [done|]. rewrite join_colons_cons2.
    change (split_colons ("" +:+ "::" +:+ join_colons (q :: ps))%string)
      with (EmptyString :: split_colons (join_colons (q :: ps))).
    by rewrite Hps.
  - rewrite join_colons_cons_char.
    assert (a ≠ ":"%char) as Ha by (intros ->; apply Hp; left).
    assert (":"%char ∉ chars p) as Hp' by (intros Hin; apply Hp; by right).
    specialize (IHp Hp').
    destruct (join_colons (p :: ps)) as [|b rest] eqn:Hj.
    + simpl in IHp. by simplify_eq.
    + rewrite split_colons_cons2, decide_False by tauto. by rewrite IHp.
Qed.

Lemma last_two_snoc2 (init : list string) (y z : string) :
  last_two (init ++ [y; z]) = (y +:+ "::" +:+ z)%string.
Proof. unfold last_two. by rewrite reverse_app. Qed.

Lemma short_name_nonempty (c : ascii) (d : string) :
  short_name (Some (String c d)) =
  last_two (split_colons
    (before_char "("%char (before_char "<"%char (String c d)))).
Proof. reflexivity. Qed.

(** The short name of a qualified name is its last two components: for
    components without [':'], ['<'] and ['('], the name a::...::y::z,
    alone or followed by a template list or an argument list, is shortened
    to y::z; a single component is kept as it is; a missing or empty name
    is "unknown". *)
Theorem short_name_keeps_last_two (init : list string) (y z t : string) :
  (∀ p a, p ∈ init ++ [y; z] → a ∈ chars p →
          a ≠ ":"%char ∧ a ≠ "<"%char ∧ a ≠ "("%char) →
  short_name (Some (join_colons (init ++ [y; z]))) =
    (y +:+ "::" +:+ z)%string ∧
  short_name (Some (join_colons (init ++ [y; z]) +:+ String "<" t)) =
    (y +:+ "::" +:+ z)%string ∧
  short_name (Some (join_colons (init ++ [y; z]) +:+ String "(" t)) =
    (y +:+ "::" +:+ z)%string ∧
  short_name (Some (z +:+ String "<" t)) = z ∧
  short_name None = "unknown"%string ∧
  short_name (Some EmptyString) = "unknown"%string.
Proof.
  intros Hclean.
  assert (Hne : init ++ [y; z] ≠ []) by (by destruct init).
  assert (Hcolon : ∀ p, p ∈ init ++ [y; z] → ":"%char ∉ chars p).
  { intros p Hp Hin. by destruct (Hclean p _ Hp Hin) as (? & _). }
  assert (HJ : ∀ c, c = "<"%char ∨ c = "("%char →
                    c ∉ chars (join_colons (init ++ [y; z]))).
  { intros c Hc Hin. apply join_colons_chars in Hin as [->|(p & Hp & Hin)].
    - by destruct Hc.
    - destruct (Hclean p _ Hp Hin) as (_ & ? & ?). by destruct Hc as [->| ->]. }
  assert (Hz : ∀ c, c = "<"%char ∨ c = "("%char ∨ c = ":"%char → c ∉ chars z).
  { intros c Hc Hin.
    destruct (Hclean z c) as (? & ? & ?); [|done|].
    - apply elem_of_app. right. right. left.
    - by destruct Hc as [->|[->| ->]]. }
  pose proof (split_join_colons _ Hne Hcolon) as Hsplit.
  set (J := join_colons (init ++ [y; z])) in *.
  assert (HJne : J ≠ EmptyString).
  { intros HJe. rewrite HJe in Hsplit. simpl in Hsplit.
    destruct init as [|? [|? ?]]; simplify_eq. }
  split; [|split; [|split; [|split; [|done]]]].
  - destruct J as [|c d] eqn:HJeq; [done|]. rewrite short_name_nonempty.
    rewrite <- HJeq in *.
    rewrite (before_char_absent "<") by (apply HJ; by left).
    rewrite (before_char_absent "(") by (apply HJ; by right).
    by rewrite Hsplit, last_two_snoc2.
  - destruct (J +:+ String "<" t)%string as [|c d] eqn:Heq;
      [by destruct J|].
    rewrite short_name_nonempty, <- Heq.
    rewrite before_char_app by (apply HJ; by left).
    rewrite (before_char_absent "(") by (apply HJ; by right).
    by rewrite Hsplit, last_two_snoc2.
  - destruct (J +:+ String "(" t)%string as [|c d] eqn:Heq;
      [by destruct J|].
    rewrite short_name_nonempty, <- Heq.
    rewrite before_char_app_absent by (apply HJ; by left).
    assert (before_char "<" (String "(" t) =
            String "(" (before_char "<" t)) as -> by reflexivity.
    rewrite before_char_app by (apply HJ; by right).
    by rewrite Hsplit, last_two_snoc2.
  - destruct (z +:+ String "<" t)%string as [|c d] eqn:Heq;
      [by destruct z|].
    rewrite short_name_nonempty, <- Heq.
    rewrite before_char_app by (apply Hz; by left).
    rewrite (before_char_absent "(") by (apply Hz; right; by left).
    assert (split_colons z = [z]) as ->; [|done].
    apply (split_join_colons [z]); [done|].
    intros p ->%list_elem_of_singleton. apply Hz. right. by right.
Qed.

Lemma short_name_keeps_last_two_witness :
  short_name (Some "at::native::add_kernel<float>(int)"%string) =
  "native::add_kernel"%string.
Proof.
  destruct (short_name_keeps_last_two ["at"%string] "native" "add_kernel"
              "float>(int)") as (_ & H & _).
  - intros p a Hp Ha. vm_compute in Hp.
    repeat (apply elem_of_cons in Hp as [->|Hp];
            [vm_compute in Ha;
             repeat (apply elem_of_cons in Ha as [->|Ha]; [by repeat split|]);
             by apply elem_of_nil in Ha|]).
    by apply elem_of_nil in Hp.
  - exact H.
Defined.

End NameComponentFacts.

(** ** The event selection of the timeline viewer *)

Section VisualizeFacts.

Lemma sql_min_perm (l l' : list Z) : l ≡ₚ l' → sql_min l = sql_min l'.
Proof.
  intros Hp. destruct (sql_min l) as [t|] eqn:E.
  - symmetry. apply sql_min_Some. apply sql_min_Some in E as [Hin Hlb].
    split; [by rewrite <- Hp|]. intros x Hx. apply Hlb. by rewrite Hp.
  - apply sql_min_None in E. subst. apply Permutation_nil in Hp. by subst.
Qed.

Lemma t0_query_events_min db :
  Origin.device_starts db ≠ [] →
  sql_min (Origin.device_starts db) = Some (Origin.t0_query_events db).
Proof.
  intros Hne.
  assert (Origin.t0_query_events db =
          default 0 (sql_min (Origin.device_starts db))) as ->.
  { unfold Origin.t0_query_events, Origin.device_starts, Origin.py_min.
    destruct (kernels db), (memcpys db); done. }
  destruct (sql_min (Origin.device_starts db)) eqn:E; [done|].
  by apply sql_min_None in E.
Qed.

Lemma sort_by_nil_inv {A} (key : A → Z) (l : list A) :
  sort_by key l = [] → l = [].
Proof.
  intros H. pose proof (sort_by_perm key l) as Hp. rewrite H in Hp.
  by apply Permutation_nil in Hp.
Qed.

Lemma longest_nil (n : Z) : Visualize.longest n [] = [].
Proof.
  unfold Visualize.longest, Visualize.slice_to. simpl.
  case_decide; by rewrite take_nil.
Qed.

(** What query_events returns, before the top-N step. *)
Lemma query_events_shape db s e :
  let t0 := Origin.t0_query_events db in
  ∃ ks ms,
    (∀ top, Visualize.query_events db s e top =
      (match top with Some n => Visualize.longest n ks | None => ks end,
       ms, t0)) ∧
    (∀ k, k ∈ ks ↔
       k ∈ kernels db ∧
       (∀ s0, s = Some s0 → t0 + py_int (s0 * f1e6)%Qc ≤ k_end k) ∧
       (∀ e0, e = Some e0 → k_start k ≤ t0 + py_int (e0 * f1e6)%Qc)) ∧
    (∀ m, m ∈ ms ↔
       m ∈ memcpys db ∧
       (∀ s0, s = Some s0 → t0 + py_int (s0 * f1e6)%Qc ≤ m_end m) ∧
       (∀ e0, e = Some e0 → m_start m ≤ t0 + py_int (e0 * f1e6)%Qc)) ∧
    StronglySorted (key_le k_start) ks ∧
    StronglySorted (key_le m_start) ms.
Proof.
  intros t0.
  destruct (decide (kernels db = [] ∧ memcpys db = [])) as [[Hk Hm]|Hne].
  - exists [], []. unfold Visualize.query_events. rewrite Hk, Hm. simpl.
    assert (t0 = 0) as ->.
    { unfold t0, Origin.t0_query_events. by rewrite Hk, Hm. }
    split; [intros top; destruct top; by rewrite ?longest_nil|].
    split; [|split; [|split; constructor]].
    + intros k. split; [by intros ?%elem_of_nil|].
      by intros [?%elem_of_nil _].
    + intros m. split; [by intros ?%elem_of_nil|].
      by intros [?%elem_of_nil _].
  - assert (Hmatch : ∀ (X : Type) (a b : X),
      match sort_by k_start (kernels db),
            sort_by m_start (memcpys db) with
      | [], [] => a
      | _, _ => b
      end = b).
    { intros X a b.
      destruct (sort_by k_start (kernels db)) eqn:HK; [|done].
      destruct (sort_by m_start (memcpys db)) eqn:HM; [|done].
      exfalso. apply Hne. split; by eapply sort_by_nil_inv. }
    assert (Ht0 : default 0 (Origin.py_min
              ((k_start <$> sort_by k_start (kernels db)) ++
               (m_start <$> sort_by m_start (memcpys db)))) = t0).
    { unfold t0, Origin.t0_query_events, Origin.py_min.
      rewrite (sql_min_perm _ ((k_start <$> kernels db) ++
                               (m_start <$> memcpys db)))
        by (by rewrite !sort_by_perm).
      by destruct (kernels db), (memcpys db). }
    destruct s as [s0|], e as [e0|]; eexists _, _;
      (split; [intros top; unfold Visualize.query_events; cbv zeta;
               rewrite Hmatch, Ht0; cbn beta iota; reflexivity|]);
      (split; [|split; [|split]]);
      rewrite ?filter_sort_by; try apply sort_by_sorted;
      intros x; rewrite ?elem_of_sort_by, ?list_elem_of_filter;
      intuition (simplify_eq; eauto).
Qed.

Lemma elem_of_slice_to {A} (n : Z) (l : list A) (x : A) :
  x ∈ Visualize.slice_to n l → x ∈ l.
Proof.
  unfold Visualize.slice_to. case_decide; intros Hx; by eapply subseteq_take.
Qed.

Lemma elem_of_longest (n : Z) (ks : list KernelRow) (k : KernelRow) :
  k ∈ Visualize.longest n ks → k ∈ ks.
Proof.
  unfold Visualize.longest. rewrite elem_of_sort_by.
  intros Hk%elem_of_slice_to. unfold sort_by_desc in Hk.
  by rewrite elem_of_sort_by in Hk.
Qed.

(** query_events takes the earliest device event as the time base, returns
    only events of the trace that overlap the requested window, none of
    them before the time base, every memcpy of the window (and, without
    top_kernels, every kernel of it), each list in start order. *)
Theorem query_events_window db (s e : option Qc) (top : option Z)
    (ks : list KernelRow) (ms : list MemcpyRow) (t0 : Z) :
  Visualize.query_events db s e top = (ks, ms, t0) →
  t0 = Origin.t0_query_events db ∧
  (∀ k, k ∈ ks →
     k ∈ kernels db ∧ t0 ≤ k_start k ∧
     (∀ s0, s = Some s0 → t0 + py_int (s0 * f1e6)%Qc ≤ k_end k) ∧
     (∀ e0, e = Some e0 → k_start k ≤ t0 + py_int (e0 * f1e6)%Qc)) ∧
  (top = None →
   ∀ k, k ∈ kernels db →
     (∀ s0, s = Some s0 → t0 + py_int (s0 * f1e6)%Qc ≤ k_end k) →
     (∀ e0, e = Some e0 → k_start k ≤ t0 + py_int (e0 * f1e6)%Qc) →
     k ∈ ks) ∧
  (∀ m, m ∈ ms ↔
     m ∈ memcpys db ∧
     (∀ s0, s = Some s0 → t0 + py_int (s0 * f1e6)%Qc ≤ m_end m) ∧
     (∀ e0, e = Some e0 → m_start m ≤ t0 + py_int (e0 * f1e6)%Qc)) ∧
  (∀ m, m ∈ ms → t0 ≤ m_start m) ∧
  StronglySorted (key_le k_start) ks ∧
  StronglySorted (key_le m_start) ms.
Proof.
  intros Hq.
  destruct (query_events_shape db s e)
    as (ks0 & ms0 & Heq & Hks & Hms & Hsk & Hsm).
  rewrite Heq in Hq. injection Hq as <- <- <-.
  assert (Hlb : ∀ x, x ∈ Origin.device_starts db →
                     Origin.t0_query_events db ≤ x).
  { intros x Hx.
    assert (Origin.device_starts db ≠ []) as Hne
      by (intros Hnil; rewrite Hnil in Hx; by apply elem_of_nil in Hx).
    pose proof (t0_query_events_min db Hne) as Hmin.
    apply sql_min_Some in Hmin as [_ Hmin]. by apply Hmin. }
  assert (Hin : ∀ k, k ∈ match top with
                         | Some n => Visualize.longest n ks0
                         | None => ks0
                         end → k ∈ ks0).
  { intros k. destruct top; [apply elem_of_longest | done]. }
  split; [done|]. split; [|split; [|split; [|split; [|split]]]].
  - intros k Hk%Hin. apply Hks in Hk as (Hk & Hlo & Hhi).
    split; [done|]. split; [|done].
    apply Hlb, elem_of_app. left. apply list_elem_of_fmap. by exists k.
  - intros -> k Hk Hlo Hhi. by apply Hks.
  - done.
  - intros m (Hm & _)%Hms.
    apply Hlb, elem_of_app. right. apply list_elem_of_fmap. by exists m.
  - destruct top; [apply sort_by_sorted | done].
  - done.
Qed.

Lemma query_events_window_witness :
  ∃ ks ms,
    Visualize.query_events MoreTraces.three_kernels
      (Some (Q2Qc (150 # 1000000))) None None = (ks, ms, 50) ∧
    length ks = 2%nat ∧ ms = [] ∧
    ∀ k, k ∈ ks → 200 ≤ k_end k.
Proof.
  eexists _, _. split; [vm_compute; reflexivity|].
  split; [reflexivity|]. split; [reflexivity|].
  intros k Hk.
  match goal with
  | Hk : k ∈ ?l |- _ =>
      destruct (query_events_window MoreTraces.three_kernels
                  (Some (Q2Qc (150 # 1000000))) None None l [] 50 eq_refl)
        as (_ & Hks & _)
  end.
  destruct (Hks k Hk) as (_ & _ & Hlo & _).
  exact (Hlo _ eq_refl).
Defined.

(** top_kernels = n keeps n of the kernels of the window (all of them if
    there are fewer), each at least as long as every kernel it leaves out,
    and changes neither the memcpys nor the time base. *)
Theorem query_events_top db (s e : option Qc) (n : Z)
    (all ks : list KernelRow) (ms ms' : list MemcpyRow) (t0 t0' : Z) :
  0 ≤ n →
  Visualize.query_events db s e None = (all, ms, t0) →
  Visualize.query_events db s e (Some n) = (ks, ms', t0') →
  ms' = ms ∧ t0' = t0 ∧
  length ks = (Z.to_nat n `min` length all)%nat ∧
  (∀ k, k ∈ ks → k ∈ all) ∧
  (∀ k k', k ∈ ks → k' ∈ all → k' ∉ ks →
           Visualize.k_duration k' ≤ Visualize.k_duration k) ∧
  (length all ≤ Z.to_nat n → ks ≡ₚ all)%nat.
Proof.
  intros Hn Hall Hq.
  destruct (query_events_shape db s e) as (ks0 & ms0 & Heq & _).
  rewrite Heq in Hall, Hq.
  injection Hall as <- <- <-. injection Hq as <- <- <-.
  split; [done|]. split; [done|].
  unfold Visualize.longest, Visualize.slice_to.
  rewrite decide_True by done.
  set (D := sort_by_desc Visualize.k_duration ks0).
  assert (HD : ∀ k, k ∈ D ↔ k ∈ ks0)
    by (intros k; unfold D, sort_by_desc; apply elem_of_sort_by).
  split; [|split; [|split]].
  - rewrite sort_by_length, length_take. unfold D, sort_by_desc.
    by rewrite sort_by_length.
  - intros k Hk. rewrite elem_of_sort_by in Hk.
    apply HD. by eapply subseteq_take.
  - intros k k' Hk Hk' Hout. rewrite elem_of_sort_by in Hk, Hout.
    apply HD in Hk'. rewrite <- (take_drop (Z.to_nat n) D) in Hk'.
    apply elem_of_app in Hk' as [Hk'|Hk']; [done|].
    pose proof (sort_by_desc_sorted Visualize.k_duration ks0) as Hs.
    fold D in Hs. rewrite <- (take_drop (Z.to_nat n) D) in Hs.
    exact (StronglySorted_app_1_elem_of _ _ _ _ _ Hs Hk Hk').
  - intros Hlen. rewrite sort_by_perm, take_ge.
    + unfold D, sort_by_desc. apply sort_by_perm.
    + unfold D, sort_by_desc. rewrite sort_by_length. lia.
Qed.

Lemma query_events_top_witness :
  ∃ all ks ms,
    Visualize.query_events MoreTraces.three_kernels None None None
      = (all, ms, 50) ∧
    Visualize.query_events MoreTraces.three_kernels None None (Some 2)
      = (ks, ms, 50) ∧
    length all = 3%nat ∧ length ks = 2%nat ∧
    k_start <$> ks = [200; 300].
Proof.
  eexists _, _, _. split; [vm_compute; reflexivity|].
  split; [vm_compute; reflexivity|].
  split; [reflexivity|]. split; [|reflexivity].
  match goal with
  | |- length ?ks = _ =>
      destruct (query_events_top MoreTraces.three_kernels None None 2
                  _ ks _ _ 50 50 ltac:(lia) eq_refl eq_refl)
        as (_ & _ & Hlen & _)
  end.
  exact Hlen.
Defined.

End VisualizeFacts.

(** ** The three sections of the window dump *)

Section DumpWindowFacts.
Import Correlator.

Lemma filter_all {A} (P : A → Prop) `{∀ x, Decision (P x)} (l : list A) :
  (∀ x, x ∈ l → P x) → filter P l = l.
Proof.
  induction l as [|x l IH]; intros Hl; [done|].
  rewrite filter_cons, decide_True by (apply Hl; left).
  rewrite IH; [done|]. intros y Hy. apply Hl. by right.
Qed.

Lemma length_join_unique_prop (ms : list MemcpyRow) (rs : list RuntimeRow)
    (P : MemcpyRow → Prop) `{∀ m, Decision (P m)} :
  NoDup (r_correlationId <$> rs) →
  length (filter (λ mr, P mr.1) (join_on_correlation ms rs)) =
  length (filter (λ m, P m ∧ m_correlationId m ∈ r_correlationId <$> rs) ms).
Proof.
  intros Hnd.
  etrans; [|etrans;
    [exact (length_join_unique ms rs (λ m, bool_decide (P m)) Hnd)|]];
    f_equal; apply list_filter_iff; intros x;
    by rewrite bool_decide_eq_true.
Qed.

Lemma ms_le (a b : Z) : (of_int a / f1e6 ≤ of_int b / f1e6)%Qc ↔ a ≤ b.
Proof.
  rewrite (Qcmult_le_mono_pos_r _ _ f1e6 f1e6_pos), !ms_to_ns.
  apply of_int_le.
Qed.

Lemma ms_sub (a b t : Z) :
  (of_int (b - t) / f1e6 - of_int (a - t) / f1e6)%Qc =
  (of_int (b - a) / f1e6)%Qc.
Proof.
  assert (of_int (b - a) = (of_int (b - t) - of_int (a - t))%Qc) as ->.
  { apply Qc_is_canon. unfold of_int. simpl.
    rewrite !Qred_correct. unfold Qminus.
    rewrite <- inject_Z_opp, <- inject_Z_plus.
    apply inject_Z_injective. lia. }
  field. apply f1e6_neq0.
Qed.

Lemma t0_None db : Origin.t0 db = None ↔ kernels db = [] ∧ memcpys db = [].
Proof.
  unfold Origin.t0.
  destruct (sql_min (k_start <$> kernels db)) as [t|] eqn:Hk.
  - split; [done|]. intros [Hnil _]. rewrite Hnil in Hk. done.
  - apply sql_min_None, fmap_nil_inv in Hk.
    rewrite sql_min_None. split.
    + by intros ?%fmap_nil_inv.
    + by intros [_ ->].
Qed.

Lemma t0_le_kernels db t0 k :
  Origin.t0 db = Some t0 → k ∈ kernels db → t0 ≤ k_start k.
Proof.
  unfold Origin.t0. intros Ht Hk.
  destruct (sql_min (k_start <$> kernels db)) as [t|] eqn:Hmin.
  - simplify_eq. apply sql_min_Some in Hmin as [_ Hlb].
    apply Hlb, list_elem_of_fmap. by exists k.
  - apply sql_min_None, fmap_nil_inv in Hmin. rewrite Hmin in Hk.
    by apply elem_of_nil in Hk.
Qed.

(** dump_window_csv.main stops with an error exactly on a trace that has
    neither a kernel nor a memcpy: the origin is then None and the window
    bounds cannot be computed. *)
Theorem dump_window_needs_an_event db (t1 t2 : Qc) :
  DumpWindow.main db t1 t2 = None ↔ kernels db = [] ∧ memcpys db = [].
Proof.
  rewrite <- t0_None. unfold DumpWindow.main.
  by destruct (Origin.t0 db).
Qed.

(** The kernel section of the window dump has one line per kernel that
    overlaps the window, in start order; on every line the start is not
    negative, the duration is the end minus the start, and the kernel
    overlaps the window [t1, t2] cut to whole nanoseconds. *)
Theorem dump_window_kernel_section db (t1 t2 : Qc) (d : DumpWindow.Dump) :
  DumpWindow.main db t1 t2 = Some d →
  ∃ t0, Origin.t0 db = Some t0 ∧
  length (DumpWindow.kernel_lines d) =
    length (filter (λ k, t0 + py_int (t1 * f1e6)%Qc ≤ k_end k ∧
                         k_start k ≤ t0 + py_int (t2 * f1e6)%Qc)
                   (kernels db)) ∧
  StronglySorted
    (λ a b, (DumpWindow.kl_start_ms a ≤ DumpWindow.kl_start_ms b)%Qc)
    (DumpWindow.kernel_lines d) ∧
  ∀ l, l ∈ DumpWindow.kernel_lines d →
    (Q2Qc 0 ≤ DumpWindow.kl_start_ms l)%Qc ∧
    (DumpWindow.kl_end_ms l - DumpWindow.kl_start_ms l)%Qc =
      DumpWindow.kl_duration_ms l ∧
    (of_int (py_int (t1 * f1e6)) / f1e6 ≤ DumpWindow.kl_end_ms l)%Qc ∧
    (DumpWindow.kl_start_ms l ≤ of_int (py_int (t2 * f1e6)) / f1e6)%Qc.
Proof.
  unfold DumpWindow.main. destruct (Origin.t0 db) as [t0|] eqn:Ht0; [|done].
  simpl. intros [= <-]. exists t0. split; [done|]. simpl.
  split; [|split].
  - unfold DumpWindow.KERNEL_SQL. by rewrite length_fmap, sort_by_length.
  - apply (StronglySorted_fmap _ (key_le k_start)).
    + intros a b Hab. unfold key_le in Hab. simpl. apply ms_le. lia.
    + apply sort_by_sorted.
  - intros l (k & -> & Hk)%list_elem_of_fmap.
    unfold DumpWindow.KERNEL_SQL in Hk. rewrite elem_of_sort_by in Hk.
    apply list_elem_of_filter in Hk as [[Hlo Hhi] Hk]. simpl.
    pose proof (t0_le_kernels _ _ _ Ht0 Hk) as Hge.
    split; [apply ms_nonneg; lia|]. split; [apply ms_sub|].
    split; apply ms_le; lia.
Qed.

Lemma dump_window_kernel_section_witness :
  ∃ d, DumpWindow.main MoreTraces.three_kernels (of_int 0)
         (Q2Qc (150 # 1000000)) = Some d ∧
       length (DumpWindow.kernel_lines d) = 2%nat.
Proof.
  eexists. split; [vm_compute; reflexivity|].
  match goal with
  | |- length (DumpWindow.kernel_lines ?d) = _ =>
      destruct (dump_window_kernel_section MoreTraces.three_kernels
                  (of_int 0) (Q2Qc (150 # 1000000)) d eq_refl)
        as (t0 & Ht0 & Hlen & _)
  end.
  injection Ht0 as <-. rewrite Hlen. reflexivity.
Defined.

(** Every line of the joined section of the window dump describes a
    transfer that also has a line in the memcpy section, with the same
    times, size, kinds and bandwidth; when the API calls have distinct
    correlation ids the joined section is not longer than the memcpy
    section, and as long when every transfer has an API call. *)
Theorem dump_window_joined_section db (t1 t2 : Qc) (d : DumpWindow.Dump) :
  DumpWindow.main db t1 t2 = Some d →
  ∃ t0, Origin.t0 db = Some t0 ∧
  (∀ o, o ∈ DumpWindow.e2e_lines d →
     ∃ l, l ∈ DumpWindow.memcpy_lines d ∧
       DumpWindow.ml_start_ms l =
         (of_int (w_gpu_start (wo_row o) - t0) / f1e6)%Qc ∧
       DumpWindow.ml_end_ms l =
         (of_int (w_gpu_end (wo_row o) - t0) / f1e6)%Qc ∧
       DumpWindow.ml_duration_ms l = (of_int (wo_gpu_dma o) / f1e6)%Qc ∧
       DumpWindow.ml_size_bytes l = w_bytes (wo_row o) ∧
       DumpWindow.ml_dma_bw l = wo_bw o ∧
       DumpWindow.ml_src_mem l =
         DumpWindow.mem_kind_or_number (w_srcKind (wo_row o)) ∧
       DumpWindow.ml_dst_mem l =
         DumpWindow.mem_kind_or_number (w_dstKind (wo_row o)) ∧
       DumpWindow.ml_direction l =
         DumpWindow.copy_kind_or_number (w_copyKind (wo_row o)) ∧
       DumpWindow.ml_device_id l = w_deviceId (wo_row o) ∧
       DumpWindow.ml_stream_id l = w_streamId (wo_row o)) ∧
  (NoDup (r_correlationId <$> runtime db) →
     (length (DumpWindow.e2e_lines d) ≤
      length (DumpWindow.memcpy_lines d))%nat ∧
     ((∀ m, m ∈ memcpys db →
            m_correlationId m ∈ r_correlationId <$> runtime db) →
      length (DumpWindow.e2e_lines d) =
      length (DumpWindow.memcpy_lines d))).
Proof.
  unfold DumpWindow.main. destruct (Origin.t0 db) as [t0|] eqn:Ht0; [|done].
  simpl. intros [= <-]. exists t0. split; [done|]. simpl.
  set (lo := t0 + py_int (t1 * f1e6)%Qc).
  set (hi := t0 + py_int (t2 * f1e6)%Qc).
  split.
  - intros o (row & -> & Hrow)%list_elem_of_fmap.
    apply elem_of_MEMCPY_E2E_SQL in Hrow
      as (m & r & Hm & Hr & Hc & Hlo & Hhi & ->).
    exists (DumpWindow.memcpy_line t0 m). split; [|by repeat split].
    apply list_elem_of_fmap. exists m. split; [done|].
    unfold DumpWindow.MEMCPY_SQL.
    by apply elem_of_sort_by, list_elem_of_filter.
  - intros Hnd.
    assert (Hlen : length (win_out <$> MEMCPY_E2E_SQL db lo hi) =
      length (filter (λ m, m_correlationId m ∈ r_correlationId <$> runtime db)
                (DumpWindow.MEMCPY_SQL db lo hi))).
    { unfold MEMCPY_E2E_SQL, DumpWindow.MEMCPY_SQL.
      rewrite !length_fmap, sort_by_length, filter_sort_by, sort_by_length.
      etrans; [exact (length_join_unique_prop _ _
        (λ m, lo ≤ m_end m ∧ m_start m ≤ hi) Hnd)|].
      rewrite list_filter_filter. f_equal. apply list_filter_iff.
      intros m. tauto. }
    rewrite Hlen, (length_fmap (DumpWindow.memcpy_line t0)). split.
    + apply length_filter.
    + intros Hall. f_equal. apply filter_all.
      intros m Hm. apply Hall. unfold DumpWindow.MEMCPY_SQL in Hm.
      rewrite elem_of_sort_by in Hm.
      by apply list_elem_of_filter in Hm as [_ Hm].
Qed.

Lemma dump_window_joined_section_witness :
  ∃ d, DumpWindow.main MoreTraces.three_kernels (Q2Qc (-1 # 1)) (of_int 1)
       = Some d ∧
       length (DumpWindow.e2e_lines d) = length (DumpWindow.memcpy_lines d).
Proof.
  eexists. split; [vm_compute; reflexivity|].
  match goal with
  | |- length (DumpWindow.e2e_lines ?d) = _ =>
      destruct (dump_window_joined_section MoreTraces.three_kernels
                  (Q2Qc (-1 # 1)) (of_int 1) d eq_refl)
        as (t0 & _ & _ & Hlen)
  end.
  apply Hlen.
  - vm_compute. repeat constructor; set_solver.
  - intros m Hm. apply list_elem_of_singleton in Hm as ->.
    vm_compute. left.
Defined.

End DumpWindowFacts.

(** ** The frame of the end-to-end plot *)

Section PlotE2EFacts.
Import Correlator.

Lemma ms_zero : (of_int 0 / f1e6)%Qc = Q2Qc 0.
Proof. apply Qc_is_canon. reflexivity. Qed.

Lemma ms_shift_le (a b t : Z) :
  (of_int (a - t) / f1e6 ≤ of_int (b - t) / f1e6)%Qc ↔ a ≤ b.
Proof.
  rewrite (Qcmult_le_mono_pos_r _ _ f1e6 f1e6_pos), !ms_to_ns, of_int_le.
  lia.
Qed.

(** The columns load adds, for one row of the query. *)
Lemma frame_row_columns (t0 : Z) (r : E2ERow) :
  let f := PlotE2E.frame_row t0 r in
  PlotE2E.cpu_dur_ms f = (of_int (cpu_end r - cpu_start r) / f1e6)%Qc ∧
  PlotE2E.gpu_dur_ms f = (of_int (gpu_end r - gpu_start r) / f1e6)%Qc ∧
  PlotE2E.launch_oh_ms f =
    (of_int (py_max 0 (gpu_start r - cpu_start r)) / f1e6)%Qc ∧
  PlotE2E.e2e_ms f =
    (of_int (py_max (cpu_end r - cpu_start r) (gpu_end r - cpu_start r))
     / f1e6)%Qc.
Proof.
  simpl. rewrite !ms_sub. split; [done|]. split; [done|]. split.
  - unfold PlotE2E.clip_lower, py_max.
    destruct (decide (of_int (gpu_start r - cpu_start r) / f1e6 < Q2Qc 0)%Qc)
      as [Hneg|Hpos].
    + rewrite ms_negative in Hneg. rewrite decide_False by lia.
      by rewrite ms_zero.
    + rewrite ms_negative in Hpos.
      destruct (decide (0 < gpu_start r - cpu_start r)); [done|].
      by replace (gpu_start r - cpu_start r) with 0 by lia.
  - unfold Aggregator.fmax, py_max.
    destruct (decide (of_int (cpu_end r - t0) / f1e6 ≤
                      of_int (gpu_end r - t0) / f1e6)%Qc) as [Hle|Hgt].
    + rewrite ms_shift_le in Hle. rewrite ms_sub.
      destruct (decide (cpu_end r - cpu_start r < gpu_end r - cpu_start r));
        [done|].
      by replace (gpu_end r) with (cpu_end r) by lia.
    + rewrite ms_shift_le in Hgt. rewrite ms_sub.
      by rewrite decide_False by lia.
Qed.

(** The frame plot_memcpy_e2e.load builds agrees with analyze_memcpy on
    every row (in exact arithmetic): its durations, its clamped launch
    overhead and its end-to-end time are the nanosecond values of analyze
    divided by 1e6; so the launch overhead is never negative and the
    end-to-end time is never below the time of the API call.  A frame is
    never empty, its origin is the origin of the trace, and with
    min_bytes > 0 no row is smaller than min_bytes. *)
Theorem plot_frame_agrees_with_analyze db (start_ms end_ms : option Qc)
    (min_bytes : Z) (frame : list PlotE2E.FrameRow) (t0 : Z) :
  PlotE2E.load db start_ms end_ms min_bytes = Some (Some (frame, t0)) →
  Origin.t0 db = Some t0 ∧ frame ≠ [] ∧
  ∀ f, f ∈ frame →
    let r := PlotE2E.fr_row f in
    PlotE2E.cpu_dur_ms f = (of_int (cpu_wall_ns r) / f1e6)%Qc ∧
    PlotE2E.gpu_dur_ms f = (of_int (gpu_dma_ns r) / f1e6)%Qc ∧
    PlotE2E.launch_oh_ms f =
      (of_int (py_max 0 (launch_overhead_ns r)) / f1e6)%Qc ∧
    PlotE2E.e2e_ms f = (of_int (e2e_of r) / f1e6)%Qc ∧
    (Q2Qc 0 ≤ PlotE2E.launch_oh_ms f)%Qc ∧
    (PlotE2E.cpu_dur_ms f ≤ PlotE2E.e2e_ms f)%Qc ∧
    (0 < min_bytes → min_bytes ≤ bytes r).
Proof.
  unfold PlotE2E.load, PlotE2E.load_where.
  destruct (analyze_where (Origin.t0 db) start_ms end_ms) as [w|]; [|done].
  simpl.
  set (w' := λ m, w m && (if decide (0 < min_bytes)
                          then bool_decide (min_bytes ≤ m_bytes m)
                          else true)).
  destruct (E2E_QUERY db w') as [|r0 rows] eqn:Hq; [done|].
  destruct (Origin.t0 db) as [t|]; [|done]. simpl.
  intros [= <- <-]. split; [done|]. split; [done|].
  intros f Hf. rewrite <- fmap_cons in Hf.
  apply list_elem_of_fmap in Hf as (r & -> & Hr).
  rewrite <- Hq in Hr.
  apply elem_of_E2E_QUERY in Hr as (m & c & _ & _ & _ & Hw & ->).
  destruct (frame_row_columns t (e2e_select (StringIds db) (m, c)))
    as (Hc & Hg & Hl & He).
  cbv zeta in Hc, Hg, Hl, He. cbv zeta.
  rewrite Hc, Hg, Hl, He. unfold e2e_of. simpl.
  repeat split; try done.
  - apply ms_nonneg. rewrite py_max_spec. lia.
  - apply ms_le. rewrite py_max_spec. lia.
  - intros Hmin. unfold w' in Hw. rewrite decide_True in Hw by done.
    apply andb_true_iff in Hw as [_ Hw]. by apply bool_decide_eq_true in Hw.
Qed.

Lemma plot_frame_agrees_with_analyze_witness :
  ∃ f, PlotE2E.load MoreTraces.three_kernels None None 0
       = Some (Some ([f], 100)) ∧
       PlotE2E.e2e_ms f = (of_int 20 / f1e6)%Qc.
Proof.
  eexists. split; [vm_compute; reflexivity|].
  match goal with
  | |- PlotE2E.e2e_ms ?f = _ =>
      destruct (plot_frame_agrees_with_analyze MoreTraces.three_kernels
                  None None 0 [f] 100 eq_refl) as (_ & _ & Hrows);
      destruct (Hrows f (list_elem_of_here _ _)) as (_ & _ & _ & He & _)
  end.
  rewrite He. reflexivity.
Defined.

End PlotE2EFacts.
